(** * pySDC: problem classes of the heat equation and the collocation front end

    A shallow embedding of
      - [examples/matrix_heat1d/ProblemClass.py]  (classes [heat1d], [heat1d_periodic]),
      - [examples/sharpclaw/ProblemClass.py]      (class [sharpclaw]),
      - [pySDC/implementations/collocation_classes/equidistant.py] ([Equidistant]),
      - [pySDC/playgrounds/Newton_PFASST/newton_pfasst_1D_playground.py] (the drivers).

    Python floats are idealised as the real numbers [R]; numpy one-dimensional
    arrays are sequences of reals; scipy sparse matrices are square matrices
    over [R]; Python objects live in a store addressed by locations, and
    every method is a computation over that store which either returns a value
    or raises an exception. *)

From HB Require Import structures.
From mathcomp Require Import ssreflect ssrfun ssrbool eqtype ssrnat seq choice.
From mathcomp Require Import fintype finfun bigop tuple order ssralg ssrnum ssrint.
From mathcomp Require Import poly matrix.
From Stdlib Require Import Reals Lra String ClassicalEpsilon FunctionalExtensionality.

Set Implicit Arguments.
Unset Strict Implicit.
Unset Printing Implicit Defensive.

Import GRing.Theory.

Delimit Scope R_scope with Re.
Delimit Scope ring_scope with R.
Delimit Scope nat_scope with N.
Bind Scope ring_scope with R.
Local Open Scope ring_scope.

(** ** The reals as a MathComp field

    The matrix and polynomial libraries are stated over MathComp's algebraic
    structures; the instances below equip the Standard Library's [R] with
    them. *)

Module RField.

Definition Reqb (x y : R) : bool := if Req_EM_T x y then true else false.

Lemma ReqbP : Equality.axiom Reqb.
Proof. by move=> x y; rewrite /Reqb; case: Req_EM_T => h; constructor. Qed.

Definition Rfind (P : pred R) (n : nat) : option R :=
  match excluded_middle_informative (exists x, P x) with
  | left ex => Some (proj1_sig (constructive_indefinite_description _ ex))
  | right _ => None
  end.

Lemma Rfind_some P n x : Rfind P n = Some x -> P x.
Proof.
rewrite /Rfind; case: excluded_middle_informative => // ex [<-].
exact: (proj2_sig (constructive_indefinite_description _ ex)).
Qed.

Lemma Rfind_ex (P : pred R) : (exists x, P x) -> exists n, Rfind P n.
Proof.
by move=> ex; exists 0%N; rewrite /Rfind; case: excluded_middle_informative.
Qed.

Lemma Rfind_ext (P Q : pred R) : P =1 Q -> Rfind P =1 Rfind Q.
Proof. by move=> PQ n; have -> // : P = Q; exact: functional_extensionality. Qed.

Lemma RplusA : associative Rplus.
Proof. by move=> x y z; rewrite Rplus_assoc. Qed.

Lemma RmultA : associative Rmult.
Proof. by move=> x y z; rewrite Rmult_assoc. Qed.

Lemma RmultDl : left_distributive Rmult Rplus.
Proof. by move=> x y z; rewrite Rmult_plus_distr_r. Qed.

End RField.

HB.instance Definition _ := hasDecEq.Build R RField.ReqbP.
HB.instance Definition _ :=
  hasChoice.Build R RField.Rfind_some RField.Rfind_ex RField.Rfind_ext.
HB.instance Definition _ := GRing.isZmodule.Build R
  RField.RplusA Rplus_comm Rplus_0_l Rplus_opp_l.

Lemma R1_neq0 : R1 != 0 :> R.
Proof. by apply/eqP; exact: R1_neq_R0. Qed.

HB.instance Definition _ := GRing.Zmodule_isComNzRing.Build R
  RField.RmultA Rmult_comm Rmult_1_l RField.RmultDl R1_neq0.

Lemma RmultVx (x : R) : x != 0 -> Rinv x * x = 1.
Proof. by move=> /eqP x0; apply: Rinv_l. Qed.

HB.instance Definition _ := GRing.ComNzRing_isField.Build R RmultVx Rinv_0.

(** The ring operations of the structure are the Standard Library's. *)
Lemma RaddE (x y : R) : x + y = (x + y)%Re. Proof. by []. Qed.
Lemma RmulE (x y : R) : x * y = (x * y)%Re. Proof. by []. Qed.
Lemma RoppE (x : R) : - x = (- x)%Re. Proof. by []. Qed.
Lemma RsubE (x y : R) : x - y = (x - y)%Re. Proof. by []. Qed.
Lemma RdivE (x y : R) : x / y = (x / y)%Re. Proof. by []. Qed.
Lemma RinvE (x : R) : x^-1 = (/ x)%Re. Proof. by []. Qed.
Lemma R0E : 0%R = 0%Re :> R. Proof. by []. Qed.
Lemma R1E : 1%R = 1%Re :> R. Proof. by []. Qed.

Lemma RnatE (n : nat) : n%:R = INR n :> R.
Proof.
by elim: n => [//|n IH]; rewrite -addn1 natrD IH plus_INR.
Qed.

(** ** Python exceptions, results and the object store *)

Inductive exn : Type :=
  | AssertionError
  | AttributeError
  | TypeError
  | ValueError
  | ZeroDivisionError
  | IndexError
  | RuntimeError
  | ConfigurationError
  | SolveFailure.

Inductive result (A : Type) : Type :=
  | Ok (a : A)
  | Raise (e : exn).

Arguments Ok {A} a.
Arguments Raise {A} e.

(** Values found in a parameter dictionary. *)
Inductive pyval : Type :=
  | PyInt (z : int)
  | PyFloat (x : R)
  | PyStr (s : string).

(** A Python dict with string keys, in insertion order. *)
Definition pydict := seq (string * pyval).

Fixpoint dict_get (d : pydict) (k : string) : option pyval :=
  if d is (k', v) :: d' then
    if String.eqb k k' then Some v else dict_get d' k
  else None.

(** [k in d] *)
Definition dict_mem (k : string) (d : pydict) : bool :=
  if dict_get d k is Some _ then true else false.

(** The data-type classes handed to a problem as [dtype_u] and [dtype_f]. *)
Inductive dtype : Type := mesh_class | rhs_imex_mesh_class.

Definition loc := nat.
Bind Scope nat_scope with loc.

(** Comparison of floats. *)
Definition Rleb (x y : R) : bool := if Rle_dec x y then true else false.

(** ** numpy arrays and scipy sparse matrices

    A one-dimensional array is a sequence of reals; a sparse matrix of shape
    [(n, n)] is a square matrix.  [vec_of] and [arr_of] move between an array
    and the column vector a matrix acts on. *)

Definition np_zeros (n : nat) : seq R := nseq n 0.

Definition vec_of (n : nat) (v : seq R) : 'cV[R]_n := \col_(i < n) nth 0 v i.

Definition arr_of (n : nat) (x : 'cV[R]_n) : seq R :=
  [seq x i ord0 | i <- enum 'I_n].

(** [sp.eye(n)] *)
Definition sp_eye (n : nat) : 'M[R]_n := 1%:M.

(** [sp.diags(diagonals, offsets, shape=(n, n))]: the k-th diagonal value sits
    at the entries [(i, i + offsets[k])]; entries named by several diagonals
    add up. *)
Definition sp_diags (diagonals : seq R) (offsets : seq int) (n : nat) : 'M[R]_n :=
  \matrix_(i < n, j < n)
    \sum_(p <- zip diagonals offsets)
      (if (j : nat)%:Z == (i : nat)%:Z + p.2 then p.1 else 0).

(** [M.dot(v)]: numpy refuses operands whose shapes do not agree. *)
Definition sp_dot (n : nat) (M : 'M[R]_n) (v : seq R) : result (seq R) :=
  if size v == n then Ok (arr_of (M *m vec_of n v)) else Raise ValueError.

(** [scipy.sparse.linalg.inv(M)]: the inverse of a regular matrix; the sparse
    LU factorisation behind it raises [RuntimeError] on an exactly singular
    one. *)
Definition LA_inv (n : nat) (M : 'M[R]_n) : result 'M[R]_n :=
  if M \in unitmx then Ok (invmx M) else Raise RuntimeError.

(** The infinity norm of an array, [max |v_i|] (0 for the empty array). *)
Definition norm_inf (v : seq R) : R := foldr (fun x m => Rmax (Rabs x) m) 0 v.

(** ** Polynomials and their integrals *)

(** The antiderivative of [p] that vanishes at 0. *)
Definition prim (p : {poly R}) : {poly R} :=
  \poly_(i < (size p).+1) (if i == 0%N then 0 else p`_i.-1 / i%:R).

(** The integral of [p] from [a] to [b]. *)
Definition integ (p : {poly R}) (a b : R) : R := (prim p).[b] - (prim p).[a].

(** The j-th Lagrange basis polynomial of the nodes [xs]. *)
Definition lagrange (xs : seq R) (j : nat) : {poly R} :=
  \prod_(k <- iota 0 (size xs) | k != j)
    ((nth 0 xs j - nth 0 xs k)^-1 *: ('X - (nth 0 xs k)%:P)).

(** ** Problem instances and the object store *)

(** The attributes of a [heat1d] or [heat1d_periodic] instance: whatever the
    parameter dictionary installs ([attrs]), what [ptype.__init__] records,
    and the fields the constructor computes. *)
Record heat1d : Type := Heat1d_obj {
  attrs : pydict;
  dtype_u : dtype;
  dtype_f : dtype;
  nvars : nat;
  nu : R;
  dx : R;
  A : 'M[R]_nvars;
  xvalues : seq R
}.

(** A [sharpclaw] instance; the pyclaw controller it holds does not interact
    with the methods modelled here. *)
Record sharpclaw : Type := Sharpclaw_obj {
  sc_attrs : pydict;
  sc_nvars : nat;
  sc_dx : R
}.

(** Modelled from the spec: the class [Collocation] of
    [pySDC.implementations.collocations] is not part of the sources at hand.
    The spec's node set is "an ordered sequence of M quadrature points", with
    "weights for integrating the final value" and "a dense M x M integration
    matrix Q such that Q.f approximates the integral of f from the interval's
    left edge to each node"; node type and quadrature type "are fixed at
    construction". *)
Record collocation : Type := Collocation_obj {
  num_nodes : nat;
  tleft : R;
  tright : R;
  node_type : string;
  quad_type : string;
  useSpline : bool;
  nodes : seq R;
  weights : seq R;
  Qmat : 'M[R]_num_nodes
}.

Inductive obj : Type :=
  | OMesh (values : seq R)
  | ORhsImex (impl expl : loc)
  | OHeat1d (P : heat1d)
  | OHeat1dPeriodic (sparse_format : pyval) (P : heat1d)
  | OSharpclaw (P : sharpclaw)
  | OCollocation (C : collocation).

Definition store := seq obj.

Definition olook (s : store) (l : loc) : option obj := nth None (map Some s) l.

(** Computations over the store that return or raise. *)
Definition Py (T : Type) : Type := store -> result T * store.

Definition ret {T} (x : T) : Py T := fun s => (Ok x, s).

Definition raise {T} (e : exn) : Py T := fun s => (Raise e, s).

Definition bind {T U} (m : Py T) (f : T -> Py U) : Py U :=
  fun s => match m s with
           | (Ok x, s') => f x s'
           | (Raise e, s') => (Raise e, s')
           end.

Declare Scope py_scope.
Delimit Scope py_scope with py.
Notation "x <- m ;; k" := (bind m (fun x => k))
  (at level 61, m at next level, right associativity) : py_scope.
Notation "m ;; k" := (bind m (fun _ => k))
  (at level 61, right associativity) : py_scope.
Local Open Scope py_scope.

(** [assert b] *)
Definition py_assert (b : bool) : Py unit :=
  if b then ret tt else raise AssertionError.

(** Lifting a pure fallible step. *)
Definition lift {T} (r : result T) : Py T := fun s => (r, s).

(** A fresh object. *)
Definition alloc (o : obj) : Py loc := fun s => (Ok (size s), rcons s o).

(** *** The mesh data types *)

(** Modelled from the spec: the class [mesh] of [pySDC.datatype_classes.mesh]
    is not part of the sources at hand; the spec requires of the mesh type
    "zero-initialization at a given size, element-wise add/scale, an
    infinity-norm or similar for residual computation".  [mesh n] is the
    constructor call [mesh(n)]. *)
Definition mesh (n : nat) : Py loc := alloc (OMesh (np_zeros n)).

(** Modelled from the spec: [u.values], the array held by a mesh. *)
Definition get_values (u : loc) : Py (seq R) :=
  fun s => if olook s u is Some (OMesh v) then (Ok v, s)
           else (Raise AttributeError, s).

(** Modelled from the spec: the assignment [me.values = v]. *)
Definition set_values (me : loc) (v : seq R) : Py unit :=
  fun s => if olook s me is Some (OMesh _)
           then (Ok tt, set_nth (OMesh v) s me (OMesh v))
           else (Raise AttributeError, s).

(** Modelled from the spec: [c * u] for a float [c] and a mesh [u],
    element-wise scaling into a fresh mesh. *)
Definition mesh_rmul (c : R) (u : loc) : Py loc :=
  v <- get_values u ;; alloc (OMesh [seq c * x | x <- v]).

(** Modelled from the spec: [abs(u)], the infinity norm of a mesh. *)
Definition mesh_abs (u : loc) : Py R :=
  v <- get_values u ;; ret (norm_inf v).

(** Modelled from the spec: the class [rhs_imex_mesh] of
    [pySDC.datatype_classes.mesh] is not part of the sources at hand; the
    spec describes a right-hand side as a pair "(explicit_part,
    implicit_part)".  [rhs_imex_mesh n] is the constructor call: two fresh
    zero meshes under one object. *)
Definition rhs_imex_mesh (n : nat) : Py loc :=
  i <- mesh n ;; e <- mesh n ;; alloc (ORhsImex i e).

(** Modelled from the spec: the assignment [f.impl = l]. *)
Definition set_impl (f l : loc) : Py unit :=
  fun s => if olook s f is Some (ORhsImex _ e)
           then (Ok tt, set_nth (ORhsImex l e) s f (ORhsImex l e))
           else (Raise AttributeError, s).

(** Modelled from the spec: the assignment [f.expl = l]. *)
Definition set_expl (f l : loc) : Py unit :=
  fun s => if olook s f is Some (ORhsImex i _)
           then (Ok tt, set_nth (ORhsImex i l) s f (ORhsImex i l))
           else (Raise AttributeError, s).

(** What a caller can observe of a returned mesh: its array. *)
Definition mesh_outcome (rs : result loc * store) : result (option (seq R)) :=
  match rs with
  | (Ok me, s) => Ok (if olook s me is Some (OMesh v) then Some v else None)
  | (Raise e, _) => Raise e
  end.

(** What a caller can observe of a returned right-hand side: the arrays of
    its implicit and explicit parts. *)
Definition rhs_outcome (rs : result loc * store)
  : result (option (seq R * seq R)) :=
  match rs with
  | (Ok f, s) =>
      Ok (if olook s f is Some (ORhsImex i e) then
            if olook s i is Some (OMesh vi) then
              if olook s e is Some (OMesh ve) then Some (vi, ve) else None
            else None
          else None)
  | (Raise e, _) => Raise e
  end.

(** The time argument of [force_term]: a Python float or a numpy array. *)
Inductive time_arg : Type :=
  | TScalar (t : R)
  | TArray (t : seq R).

(** [1/(self.nvars + 1)], the spacing of the Dirichlet problem: adding 1 to
    a string is a [TypeError], and the division fails at -1. *)
Definition dirichlet_dx (v : option pyval) : result R :=
  match v with
  | Some (PyInt z) =>
      if z == -1 then Raise ZeroDivisionError else Ok (1 / (z + 1)%:~R)
  | Some (PyFloat x) =>
      if x == -1 then Raise ZeroDivisionError else Ok (1 / (x + 1))
  | Some (PyStr _) => Raise TypeError
  | None => Raise AttributeError
  end.

(** [1.0/self.nvars], the spacing of the periodic problem: dividing by a
    string is a [TypeError], and the division fails at 0. *)
Definition periodic_dx (v : option pyval) : result R :=
  match v with
  | Some (PyInt z) =>
      if z == 0 then Raise ZeroDivisionError else Ok (1 / z%:~R)
  | Some (PyFloat x) =>
      if x == 0 then Raise ZeroDivisionError else Ok (1 / x)
  | Some (PyStr _) => Raise TypeError
  | None => Raise AttributeError
  end.

(** Reading [nvars] as the dimension [N] of the Dirichlet problem, in
    [sp.diags(stencil, [-1,0,1], shape=(N,N))]: a shape that cannot hold the
    off-diagonals is refused with [ValueError], one that is not made of
    integers with [TypeError]. *)
Definition as_dim (v : option pyval) : result nat :=
  match v with
  | Some (PyInt (Posz n.+1)) => Ok n.+1
  | Some (PyInt (Posz 0)) => Raise ValueError
  | Some (PyInt (Negz _)) => Raise ValueError
  | Some (PyFloat _) => Raise TypeError
  | Some (PyStr _) => Raise TypeError
  | None => Raise AttributeError
  end.

(** Reading [nvars] as the dimension [N] of the periodic problem: after the
    shape check of the first [sp.diags], the corner diagonals at the offsets
    [N-1] and [1-N] need two distinct offsets. *)
Definition as_dim_periodic (v : option pyval) : result nat :=
  match v with
  | Some (PyInt (Posz n.+2)) => Ok n.+2
  | Some (PyInt (Posz 1)) => Raise ValueError
  | Some (PyInt (Posz 0)) => Raise ValueError
  | Some (PyInt (Negz _)) => Raise ValueError
  | Some (PyFloat _) => Raise TypeError
  | Some (PyStr _) => Raise TypeError
  | None => Raise AttributeError
  end.

(** Reading a number as a float. *)
Definition as_float (v : option pyval) : result R :=
  match v with
  | Some (PyInt z) => Ok z%:~R
  | Some (PyFloat x) => Ok x
  | Some (PyStr _) => Raise TypeError
  | None => Raise AttributeError
  end.

(** [setattr(self, k, v)] on an instance of a class whose read-only
    properties are [properties], for a value [v] that is a number or a
    string: a property without a setter refuses the assignment with
    [AttributeError]; of the attributes every object has, [__class__] and
    [__dict__] refuse such a value with [TypeError] and [__weakref__] is not
    writable; any other name becomes an attribute of the instance.  The
    base class [ptype] is not part of the sources at hand and is taken to
    define no read-only attribute of its own. *)
Definition setattr_check (properties : seq string) (k : string)
  : result unit :=
  if has (String.eqb k) properties then Raise AttributeError
  else if String.eqb k "__class__" || String.eqb k "__dict__"
       then Raise TypeError
  else if String.eqb k "__weakref__" then Raise AttributeError
  else Ok tt.

(** The loop [for k,v in cparams.items(): setattr(self,k,v)], which stops at
    the first name that cannot be set. *)
Fixpoint setattr_items (properties : seq string) (cparams : pydict)
  : result unit :=
  if cparams is (k, v) :: cparams' then
    match setattr_check properties k with
    | Ok _ => setattr_items properties cparams'
    | Raise e => Raise e
    end
  else Ok tt.

(** The read-only properties of [heat1d] and of [heat1d_periodic]:
    [system_matrix], [A_I] and [A_E]. *)
Definition heat_properties : seq string :=
  [:: "system_matrix"%string; "A_I"%string; "A_E"%string].

(** Calling the method [name] of [self]: an entry of the parameter
    dictionary under the (mangled) name of the method has become an
    attribute of the instance and hides the method; a number or a string is
    not callable. *)
Definition method_lookup (attrs : pydict) (name : string) : result unit :=
  if dict_mem name attrs then Raise TypeError else Ok tt.

(** ** Class [heat1d]: forced 1D heat equation with Dirichlet-0 boundary *)

Module Heat1d.

(** [__get_A(N, nu, dx)] *)
Definition __get_A (N : nat) (nu dx : R) : 'M[R]_N :=
  let stencil := [:: 1; -2%:R; 1] in
  let A := sp_diags stencil [:: -1; 0; 1] N in
  (nu / dx ^+ 2) *: A.

(** [__init__(cparams, dtype_u, dtype_f)], returning the new instance. *)
Definition __init__ (cparams : pydict) (dtype_u dtype_f : dtype) : Py loc :=
  py_assert (dict_mem "nvars" cparams) ;;
  py_assert (dict_mem "nu" cparams) ;;
  lift (setattr_items heat_properties cparams) ;;
  let attrs := cparams in
  dx <- lift (dirichlet_dx (dict_get attrs "nvars")) ;;
  lift (method_lookup attrs "_heat1d__get_A") ;;
  nvars <- lift (as_dim (dict_get attrs "nvars")) ;;
  nu <- lift (as_float (dict_get attrs "nu")) ;;
  let A := __get_A nvars nu dx in
  let xvalues := [seq (i.+1)%:R * dx | i <- iota 0 nvars] in
  alloc (OHeat1d (Heat1d_obj attrs dtype_u dtype_f nu dx A xvalues)).

(** Reading [self]. *)
Definition get_self (self : loc) : Py heat1d :=
  fun s => if olook s self is Some (OHeat1d P) then (Ok P, s)
           else (Raise TypeError, s).

(** [solve_system(rhs, factor, u0)] *)
Definition solve_system (self rhs : loc) (factor : R) (u0 : loc) : Py loc :=
  P <- get_self self ;;
  me <- mesh (nvars P) ;;
  Minv <- lift (LA_inv (sp_eye (nvars P) - factor *: A P)) ;;
  rv <- get_values rhs ;;
  v <- lift (sp_dot Minv rv) ;;
  set_values me v ;;
  ret me.

(** [__eval_fexpl(u, t)] *)
Definition __eval_fexpl (self u : loc) (t : R) : Py loc :=
  P <- get_self self ;;
  let xvalues := [seq (i.+1)%:R * dx P | i <- iota 0 (nvars P)] in
  fexpl <- mesh (nvars P) ;;
  set_values fexpl (np_zeros (nvars P)) ;;
  ret fexpl.

(** [__eval_fimpl(u, t)] *)
Definition __eval_fimpl (self u : loc) (t : R) : Py loc :=
  P <- get_self self ;;
  fimpl <- mesh (nvars P) ;;
  uv <- get_values u ;;
  v <- lift (sp_dot (A P) uv) ;;
  set_values fimpl v ;;
  ret fimpl.

(** [eval_f(u, t)] *)
Definition eval_f (self u : loc) (t : R) : Py loc :=
  P <- get_self self ;;
  f <- rhs_imex_mesh (nvars P) ;;
  i <- __eval_fimpl self u t ;;
  set_impl f i ;;
  e <- __eval_fexpl self u t ;;
  set_expl f e ;;
  ret f.

(** [u_exact(t)] *)
Definition u_exact (self : loc) (t : R) : Py loc :=
  P <- get_self self ;;
  me <- mesh (nvars P) ;;
  set_values me
    [seq sin (PI * x) * exp (- PI ^+ 2 * nu P * t) | x <- xvalues P] ;;
  ret me.

(** The property [system_matrix], read off an instance. *)
Definition system_matrix (P : heat1d) : 'M[R]_(nvars P) := A P.

(** [force_term(t)] *)
Definition force_term (self : loc) (t : time_arg) : Py (seq R) :=
  P <- get_self self ;;
  match t with
  | TArray t => ret (np_zeros (size (xvalues P) * size t))
  | TScalar t =>
      ret [seq - sin (PI * x) * (sin t - nu P * PI ^+ 2 * cos t) | x <- xvalues P]
  end.

(** The stacking [np.hstack(map(lambda tau: force_term(tau), t))] of the
    scalar evaluations at the entries of an array. *)
Fixpoint force_term_stacked (self : loc) (t : seq R) : Py (seq R) :=
  if t is tau :: t' then
    f <- force_term self (TScalar tau) ;;
    fs <- force_term_stacked self t' ;;
    ret (f ++ fs)
  else ret [::].

End Heat1d.

(** ** Class [heat1d_periodic]: forced 1D heat equation, periodic boundary *)

Module Heat1dPeriodic.

Section WithToSparse.

(** [pySDC.tools.transfer_tools.to_sparse(A, format)], which stores a matrix
    in the requested format, is not part of the sources at hand. *)
Variable to_sparse : forall n : nat, 'M[R]_n -> pyval -> result 'M[R]_n.

(** [__get_A(N, nu, dx)], reading [self.sparse_format] *)
Definition __get_A (sparse_format : pyval) (N : nat) (nu dx : R)
  : result 'M[R]_N :=
  let stencil := [:: 1; -2%:R; 1] in
  let A := sp_diags stencil [:: -1; 0; 1] N
           + sp_diags [:: 1; 1] [:: N%:Z - 1; 1 - N%:Z] N in
  to_sparse ((nu / dx ^+ 2) *: A) sparse_format.

(** [__init__(cparams, dtype_u, dtype_f)], returning the new instance. *)
Definition __init__ (cparams : pydict) (dtype_u dtype_f : dtype) : Py loc :=
  py_assert (dict_mem "nvars" cparams) ;;
  py_assert (dict_mem "nu" cparams) ;;
  let sparse_format :=
    if dict_get cparams "sparse_format" is Some fmt then fmt
    else PyStr "array" in
  lift (setattr_items heat_properties cparams) ;;
  let attrs := cparams in
  dx <- lift (periodic_dx (dict_get attrs "nvars")) ;;
  lift (method_lookup attrs "_heat1d_periodic__get_A") ;;
  nvars <- lift (as_dim_periodic (dict_get attrs "nvars")) ;;
  nu <- lift (as_float (dict_get attrs "nu")) ;;
  A <- lift (__get_A sparse_format nvars nu dx) ;;
  let xvalues := [seq i%:R * dx | i <- iota 0 nvars] in
  alloc (OHeat1dPeriodic sparse_format
           (Heat1d_obj attrs dtype_u dtype_f nu dx A xvalues)).

End WithToSparse.

(** Reading [self]. *)
Definition get_self (self : loc) : Py heat1d :=
  fun s => if olook s self is Some (OHeat1dPeriodic _ P) then (Ok P, s)
           else (Raise TypeError, s).

(** [solve_system(rhs, factor, u0)] *)
Definition solve_system (self rhs : loc) (factor : R) (u0 : loc) : Py loc :=
  P <- get_self self ;;
  me <- mesh (nvars P) ;;
  Minv <- lift (LA_inv (sp_eye (nvars P) - factor *: A P)) ;;
  rv <- get_values rhs ;;
  v <- lift (sp_dot Minv rv) ;;
  set_values me v ;;
  ret me.

(** [__eval_fexpl(u, t)] *)
Definition __eval_fexpl (self u : loc) (t : R) : Py loc :=
  P <- get_self self ;;
  let xvalues := [seq i%:R * dx P | i <- iota 0 (nvars P)] in
  fexpl <- mesh (nvars P) ;;
  set_values fexpl (np_zeros (nvars P)) ;;
  ret fexpl.

(** [__eval_fimpl(u, t)] *)
Definition __eval_fimpl (self u : loc) (t : R) : Py loc :=
  P <- get_self self ;;
  fimpl <- mesh (nvars P) ;;
  uv <- get_values u ;;
  v <- lift (sp_dot (A P) uv) ;;
  set_values fimpl v ;;
  ret fimpl.

(** [eval_f(u, t)] *)
Definition eval_f (self u : loc) (t : R) : Py loc :=
  P <- get_self self ;;
  f <- rhs_imex_mesh (nvars P) ;;
  i <- __eval_fimpl self u t ;;
  set_impl f i ;;
  e <- __eval_fexpl self u t ;;
  set_expl f e ;;
  ret f.

(** [u_exact(t)] *)
Definition u_exact (self : loc) (t : R) : Py loc :=
  P <- get_self self ;;
  me <- mesh (nvars P) ;;
  set_values me
    [seq sin (PI * x) * exp (- PI ^+ 2 * nu P * t) | x <- xvalues P] ;;
  ret me.

(** [force_term(t)] *)
Definition force_term (self : loc) (t : time_arg) : Py (seq R) :=
  P <- get_self self ;;
  match t with
  | TArray t => ret (np_zeros (size (xvalues P) * size t))
  | TScalar t =>
      ret [seq - sin (PI * x) * (sin t - nu P * PI ^+ 2 * cos t) | x <- xvalues P]
  end.

End Heat1dPeriodic.

(** ** Class [sharpclaw] *)

Module Sharpclaw.

(** Reading [self]. *)
Definition get_self (self : loc) : Py sharpclaw :=
  fun s => if olook s self is Some (OSharpclaw P) then (Ok P, s)
           else (Raise TypeError, s).

(** [solve_system(rhs, factor, u0)] *)
Definition solve_system (self rhs : loc) (factor : R) (u0 : loc) : Py loc :=
  P <- get_self self ;;
  m <- mesh (sc_nvars P) ;;
  me <- mesh_rmul 0 m ;;
  ret me.

(** [__eval_fexpl(u, t)] *)
Definition __eval_fexpl (self u : loc) (t : R) : Py loc :=
  P <- get_self self ;;
  let xvalues := [seq (i.+1)%:R * sc_dx P | i <- iota 0 (sc_nvars P)] in
  m <- mesh (sc_nvars P) ;;
  fexpl <- mesh_rmul 0 m ;;
  ret fexpl.

(** [__eval_fimpl(u, t)] *)
Definition __eval_fimpl (self u : loc) (t : R) : Py loc :=
  P <- get_self self ;;
  fimpl <- mesh (sc_nvars P) ;;
  uv <- get_values u ;;
  set_values fimpl [seq 0 * x | x <- uv] ;;
  ret fimpl.

(** [eval_f(u, t)] *)
Definition eval_f (self u : loc) (t : R) : Py loc :=
  P <- get_self self ;;
  f <- rhs_imex_mesh (sc_nvars P) ;;
  i <- __eval_fimpl self u t ;;
  set_impl f i ;;
  e <- __eval_fexpl self u t ;;
  set_expl f e ;;
  ret f.

(** [u_exact(t)] *)
Definition u_exact (self : loc) (t : R) : Py loc :=
  P <- get_self self ;;
  me <- mesh (sc_nvars P) ;;
  let xvalues := [seq (i.+1)%:R * sc_dx P | i <- iota 0 (sc_nvars P)] in
  set_values me [seq sin (PI * x) * cos t | x <- xvalues] ;;
  ret me.

End Sharpclaw.

(** ** The collocation generator *)

Module Collocation.

Section WithNodeGenerator.

(** The generators of the node types other than the equidistant one
    (Gauss-Radau-right, Gauss-Lobatto, ...) are not part of the sources at
    hand: [other_nodes node_type quad_type M a b] is the node set of a
    supported combination and [None] for an unsupported one. *)
Variable other_nodes : string -> string -> nat -> R -> R -> option (seq R).

(** Modelled from the spec: "equidistant nodes with Lobatto-style
    quadrature", [M] equally spaced points of [[a, b]] starting at the left
    edge and, from two nodes on, ending at the right edge. *)
Definition equid_lobatto (M : nat) (a b : R) : seq R :=
  [seq a + i%:R * ((b - a) / (M.-1)%:R) | i <- iota 0 M].

(** Modelled from the spec: the node set of a node-type and quadrature-type
    tag, if the combination is supported. *)
Definition gen_nodes (node_type quad_type : string) (M : nat) (a b : R)
  : option (seq R) :=
  if String.eqb node_type "EQUID" && String.eqb quad_type "LOBATTO"
  then Some (equid_lobatto M a b)
  else other_nodes node_type quad_type M a b.

(** Modelled from the spec: "a dense M x M integration matrix Q such that
    Q.f approximates the integral of f from the interval's left edge to each
    node": entry [(m, j)] integrates the j-th Lagrange polynomial of the
    nodes from the left edge to the m-th node. *)
Definition gen_Qmatrix (M : nat) (a : R) (xs : seq R) : 'M[R]_M :=
  \matrix_(m < M, j < M) integ (lagrange xs j) a (nth 0 xs m).

(** Modelled from the spec: "weights for integrating the final value", the
    integrals of the Lagrange polynomials over the whole interval. *)
Definition gen_weights (M : nat) (a b : R) (xs : seq R) : seq R :=
  [seq integ (lagrange xs j) a b | j <- iota 0 M].

(** Modelled from the spec: the constructor of the class [Collocation], which
    "fails with ConfigurationError if M < 1, if the node/quadrature
    combination is unsupported, or if a >= b". *)
Definition __init__ (num_nodes : int) (tleft tright : R)
    (node_type quad_type : string) (useSpline : bool) : Py loc :=
  match num_nodes with
  | Posz (_.+1 as M) =>
      if Rleb tright tleft then raise ConfigurationError
      else match gen_nodes node_type quad_type M tleft tright with
           | Some xs =>
               alloc (OCollocation
                 (Collocation_obj tleft tright node_type quad_type useSpline
                    xs (gen_weights M tleft tright xs)
                    (gen_Qmatrix M tleft xs)))
           | None => raise ConfigurationError
           end
  | _ => raise ConfigurationError
  end.

End WithNodeGenerator.

End Collocation.

(** ** Class [Equidistant] *)

Module Equidistant.

Section WithNodeGenerator.

Variable other_nodes : string -> string -> nat -> R -> R -> option (seq R).

(** [__init__(num_nodes, tleft, tright)] *)
Definition __init__ (num_nodes : int) (tleft tright : R) : Py loc :=
  Collocation.__init__ other_nodes num_nodes tleft tright
    "EQUID" "LOBATTO" false.

End WithNodeGenerator.

End Equidistant.

(** ** The controller

    The controller classes ([allinclusive_multigrid_nonMPI],
    [allinclusive_newton_nonMPI]) are not part of the sources at hand; the
    playground calls them. *)

Module Controller.

(** Modelled from the spec: the states of a Step, "PENDING -> PREDICTING ->
    ITERATING -> CONVERGED | MAXITER_REACHED", the last two terminal. *)
Inductive status : Type :=
  | PENDING
  | PREDICTING
  | ITERATING
  | CONVERGED
  | MAXITER_REACHED.

Definition terminal (st : status) : bool :=
  match st with
  | CONVERGED | MAXITER_REACHED => true
  | _ => false
  end.

(** Modelled from the spec: the "two companion orchestration modes", plain
    multi-level and Newton-coupled. *)
Inductive mode : Type := Multigrid | NewtonCoupled.

(** Modelled from the spec: a stats record, "(step_id, time, level_id,
    iteration, metric_name, value)". *)
Record stat_entry : Type := Stat {
  step_id : nat;
  time : R;
  level_id : nat;
  iteration : nat;
  metric_name : string;
  value : R
}.

(** Modelled from the spec: the configuration a controller is built with,
    the number of time-slices, their length and the stopping criteria; in
    the Newton-coupled mode the controller "additionally tracks an outer
    Newton iteration count and an inner linear-solve counter". *)
Record controller : Type := Controller_obj {
  num_procs : nat;
  dt : R;
  restol : R;
  maxiter : nat;
  cmode : mode;
  newton_counters : option (nat * nat)
}.

(** Modelled from the spec: the constructor of a controller. *)
Definition new (num_procs : nat) (dt restol : R) (maxiter : nat) (m : mode)
  : controller :=
  Controller_obj num_procs dt restol maxiter m
    (if m is NewtonCoupled then Some (0%N, 0%N) else None).

(** Modelled from the spec: the attribute [nouteriter] of a controller. *)
Definition nouteriter (C : controller) : result nat :=
  if newton_counters C is Some (k, _) then Ok k else Raise AttributeError.

(** Modelled from the spec: the attribute [ninnersolve] of a controller. *)
Definition ninnersolve (C : controller) : result nat :=
  if newton_counters C is Some (_, k) then Ok k else Raise AttributeError.

Section WithLevels.

(** The state space, and the work of one Step on its level stack (sweeper,
    levels and transfer operators), which the claims here do not look into:
    [predictor u0 t dt] is the end value after the predictor pass, and
    [step_pass m u0 uend t dt] the end value, the residual and the number of
    inner linear solves of one per-iteration pass.  Both sweep, and a sweep
    "surfaces whatever error the implicit-solve collaborator raises as a
    SolveFailure": [None] stands for that outcome. *)
Variable V : Type.
Variable predictor : V -> R -> R -> option V.
Variable step_pass : mode -> V -> V -> R -> R -> option (V * R * nat).

(** Modelled from the spec: a Step, "a time interval [t, t+dt), and status
    flags (done, iteration count)", with the start and end value of its
    finest level and the residual of its last pass. *)
Record step : Type := Step_obj {
  u_start : V;
  u_end : V;
  t_slice : R;
  st : status;
  niter : nat;
  res : R
}.

(** Modelled from the spec: the predictor pass of a Step, "PENDING ->
    PREDICTING -> ITERATING". *)
Definition predict_step (C : controller) (sp : step) : option step :=
  if predictor (u_start sp) (t_slice sp) (dt C) is Some ue
  then Some (Step_obj (u_start sp) ue (t_slice sp) ITERATING 0 0)
  else None.

(** The predictor pass of every Step; the first failure ends it. *)
Fixpoint predict_all (C : controller) (steps : seq step)
  : option (seq step) :=
  if steps is sp :: steps' then
    if predict_step C sp is Some sp' then
      if predict_all C steps' is Some sps then Some (sp' :: sps) else None
    else None
  else Some [::].

(** Modelled from the spec: "for every non-terminal Step: run one
    per-iteration pass"; the result is the Step, its stats record and the
    number of inner solves of the pass. *)
Definition pass_step (C : controller) (k : nat) (sp : step)
  : option (step * seq stat_entry * nat) :=
  if terminal (st sp) then Some (sp, [::], 0%N)
  else
    if step_pass (cmode C) (u_start sp) (u_end sp) (t_slice sp) (dt C)
      is Some (ue, r, solves)
    then Some (Step_obj (u_start sp) ue (t_slice sp) ITERATING (niter sp).+1 r,
               [:: Stat k (t_slice sp) 0 (niter sp).+1 "residual" r], solves)
    else None.

(** The passes of one global iteration, Step [k] first; the first failure
    ends them. *)
Fixpoint pass_all (C : controller) (k : nat) (steps : seq step)
  : option (seq (step * seq stat_entry * nat)) :=
  if steps is sp :: steps' then
    if pass_step C k sp is Some r then
      if pass_all C k.+1 steps' is Some rs then Some (r :: rs) else None
    else None
  else Some [::].

(** Modelled from the spec: the communication step, "for every Step k except
    the last, copy Step k's finest-level end value into Step k+1's
    finest-level starting value, only if Step k is further along or equal in
    iteration count"; [prev] is Step k as it stands after its pass. *)
Fixpoint communicate (prev : option step) (steps : seq step) : seq step :=
  if steps is sp :: steps' then
    let sp' :=
      if prev is Some sp0 then
        if (niter sp <= niter sp0)%N
        then Step_obj (u_end sp0) (u_end sp) (t_slice sp) (st sp) (niter sp) (res sp)
        else sp
      else sp in
    sp' :: communicate (Some sp) steps'
  else [::].

(** Modelled from the spec: "mark CONVERGED or MAXITER_REACHED as
    appropriate": converged "when residual <= configured tolerance", capped
    "when iteration count hits the configured cap". *)
Definition bookkeeping (C : controller) (sp : step) : step :=
  if terminal (st sp) then sp
  else if Rleb (res sp) (restol C)
       then Step_obj (u_start sp) (u_end sp) (t_slice sp) CONVERGED (niter sp) (res sp)
  else if (maxiter C <= niter sp)%N
       then Step_obj (u_start sp) (u_end sp) (t_slice sp) MAXITER_REACHED
              (niter sp) (res sp)
  else sp.

(** Modelled from the spec: "a Step stuck in ITERATING past an absolute
    iteration ceiling is forced to MAXITER_REACHED". *)
Definition force_maxiter (sp : step) : step :=
  if terminal (st sp) then sp
  else Step_obj (u_start sp) (u_end sp) (t_slice sp) MAXITER_REACHED
         (niter sp) (res sp).

(** Modelled from the spec: the global iteration loop, which stops "when
    every Step is terminal"; [ceiling] bounds the number of global
    iterations, [k] counts them and [solves] the inner solves.  A
    [SolveFailure] in a pass "aborts the run": the loop ends with [None]. *)
Fixpoint iterate (C : controller) (ceiling k : nat) (steps : seq step)
    (log : seq stat_entry) (solves : nat)
  : option (seq step * seq stat_entry * nat * nat) :=
  if all (fun sp => terminal (st sp)) steps then Some (steps, log, k, solves)
  else if ceiling is c.+1 then
    if pass_all C 0 steps is Some passed then
      let steps1 := communicate None [seq r.1.1 | r <- passed] in
      let steps2 := [seq bookkeeping C sp | sp <- steps1] in
      iterate C c k.+1 steps2
        (log ++ flatten [seq r.1.2 | r <- passed])
        (solves + sumn [seq r.2 | r <- passed])
    else None
  else Some ([seq force_maxiter sp | sp <- steps], log, k, solves).

(** Modelled from the spec: the requested interval is "evenly divisible into
    the configured number of time-slices" when the slices of length [dt]
    cover it exactly. *)
Definition evenly_divisible (C : controller) (t_start t_end : R) : bool :=
  t_end - t_start == (num_procs C)%:R * dt C.

(** Modelled from the spec: "run(initial_value, t_start, t_end) ->
    (final_value, stats_log); fails with ConfigurationError if the requested
    interval is not evenly divisible into the configured number of
    time-slices", and "a run either converges, exhausts its iteration
    budget, or raises a SolveFailure/TransferError that aborts the run"
    ([TransferError] being "fatal at setup time (hierarchy construction),
    not a per-iteration condition").  Every Step starts from the initial
    value, goes through the predictor and then through the loop; the final
    value is the end value of the last Step.  The result comes with the
    controller as the run leaves it; the diagnostics a [SolveFailure]
    carries are not modelled. *)
Definition run (C : controller) (u0 : V) (t_start t_end : R)
  : result (V * seq stat_entry) * controller :=
  if ~~ evenly_divisible C t_start t_end then (Raise ConfigurationError, C)
  else
    let pending :=
      [seq Step_obj u0 u0 (t_start + i%:R * dt C) PENDING 0 0
      | i <- iota 0 (num_procs C)] in
    if predict_all C pending is Some predicted then
      if iterate C (maxiter C) 0 predicted [::] 0
        is Some (steps, log, k, solves)
      then
        (Ok (last u0 [seq u_end sp | sp <- steps], log),
         Controller_obj (num_procs C) (dt C) (restol C) (maxiter C) (cmode C)
           (if cmode C is NewtonCoupled then Some (k, solves) else None))
      else (Raise SolveFailure, C)
    else (Raise SolveFailure, C).

End WithLevels.

End Controller.

(** ** The playground drivers *)

Module Playground.

(** [int(x)] of a float: truncation towards zero. *)
Definition py_int (x : R) : Z :=
  if Rleb 0 x then Int_part x else (- Int_part (- x))%Z.

(** What [setup()] puts into the description, as far as the drivers and the
    controller read it: [level_params['restol']], [level_params['dt']],
    [step_params['maxiter']], [problem_params['newton_maxiter']] and
    [problem_params['newton_tol']]. *)
Record description : Type := Description {
  level_restol : R;
  level_dt : R;
  step_maxiter : nat;
  newton_maxiter : nat;
  newton_tol : R
}.

(** [setup()] *)
Definition setup : description :=
  Description (1 / 10%:R ^+ 8) (1 / 10%:R ^+ 3) 50 1 (1 / 10%:R ^+ 9).

Section Drivers.

Variable V : Type.
Variable predictor : V -> R -> R -> option V.
Variable step_pass :
  Controller.mode -> V -> V -> R -> R -> option (V * R * nat).

(** The quotient [x / y] of two Python floats is the double that the
    hardware rounds the exact quotient to; the integer part that [int]
    takes of it can differ from that of the exact quotient, so the rounded
    division is kept apart from the division of the reals. *)
Variable float_div : R -> R -> R.

(** The initial value [controller.MS[0].levels[0].prob.u_exact(t0)] and the
    timing that
    [sort_stats(filter_stats(stats, type='timing_run'), sortby='time')[0][1]]
    reads off the log come from classes and helpers that are not part of
    the sources at hand. *)
Variable initial_value : Controller.controller -> R -> result V.
Variable timing_run : seq Controller.stat_entry -> result R.

(** [run_newton_pfasst_matrixfree(Tend)]; the result is what the driver
    prints: the number of outer iterations, the number of inner solves in
    total, per iteration and per step, and the time taken. *)
Definition run_newton_pfasst_matrixfree (Tend : R)
  : result (nat * nat * R * R * R) :=
  let description := setup in
  let outer_restol := level_restol description in
  let description :=
    Description (newton_tol description) (level_dt description)
      (newton_maxiter description) (newton_maxiter description)
      (newton_tol description) in
  let t0 := 0 in
  let num_procs := py_int (float_div (Tend - t0) (level_dt description)) in
  let controller :=
    Controller.new (Z.to_nat num_procs) (level_dt description)
      (level_restol description) (step_maxiter description)
      Controller.NewtonCoupled in
  match initial_value controller t0 with
  | Raise e => Raise e
  | Ok uinit =>
      match Controller.run predictor step_pass controller uinit t0 Tend with
      | (Raise e, _) => Raise e
      | (Ok (uend, stats), controller) =>
          match timing_run stats with
          | Raise e => Raise e
          | Ok timing =>
              match Controller.ninnersolve controller with
              | Raise e => Raise e
              | Ok nsolves_all =>
                  if (num_procs =? 0)%Z then Raise ZeroDivisionError
                  else
                    let nsolves_step := nsolves_all%:R / IZR num_procs in
                    match Controller.nouteriter controller with
                    | Raise e => Raise e
                    | Ok 0%N => Raise ZeroDivisionError
                    | Ok nouteriter =>
                        let nsolves_iter := nsolves_all%:R / nouteriter%:R in
                        Ok (nouteriter, nsolves_all, nsolves_iter,
                            nsolves_step, timing)
                    end
              end
          end
      end
  end.

End Drivers.

End Playground.

(** ** Specifications and examples *)

(** The value of [heat1d.eval_f(u, t)] as a function of what [self] and [u]
    refer to: the arrays of the implicit and of the explicit part. *)
Definition eval_f_value (oself ou : option obj)
  : result (option (seq R * seq R)) :=
  if oself is Some (OHeat1d P) then
    if ou is Some (OMesh uv) then
      if size uv == nvars P
      then Ok (Some (arr_of (A P *m vec_of (nvars P) uv), np_zeros (nvars P)))
      else Raise ValueError
    else Raise AttributeError
  else Raise TypeError.

(** The value of [solve_system(rhs, factor, u0)] of a heat problem as a
    function of the instance and of what [rhs] refers to. *)
Definition solve_system_value (oP : option heat1d) (factor : R)
    (orhs : option obj) : result (option (seq R)) :=
  if oP is Some P then
    if (sp_eye (nvars P) - factor *: A P) \in unitmx then
      if orhs is Some (OMesh rv) then
        if size rv == nvars P
        then Ok (Some (arr_of (invmx (sp_eye (nvars P) - factor *: A P)
                               *m vec_of (nvars P) rv)))
        else Raise ValueError
      else Raise AttributeError
    else Raise RuntimeError
  else Raise TypeError.

(** The second-order finite-difference Laplacian on [n] interior points:
    -2 on the diagonal, 1 next to it. *)
Definition fd_laplacian (n : nat) : 'M[R]_n :=
  \matrix_(i < n, j < n)
    (if (i : nat) == j then -2%:R
     else if ((i : nat).+1 == j) || ((j : nat).+1 == i) then 1 else 0).

(** What [heat1d.__init__] establishes of a new instance. *)
Definition heat1d_invariant (P : heat1d) : Prop :=
  [/\ (0 < nvars P)%N,
      dx P = 1 / (nvars P).+1%:R,
      A P = Heat1d.__get_A (nvars P) (nu P) (dx P)
    & xvalues P = [seq (i.+1)%:R * dx P | i <- iota 0 (nvars P)]].

(** [frames k m Q]: run in a store that holds at least [k] objects, [m]
    leaves the first [k] of them as they are, never shrinks the store, and
    returns values that satisfy [Q]. *)
Definition frames (k : nat) (T : Type) (m : Py T) (Q : T -> Prop) : Prop :=
  forall s, (k <= size s)%N ->
    [/\ (size s <= size (m s).2)%N,
        forall l, (l < k)%N -> olook (m s).2 l = olook s l
      & forall x, (m s).1 = Ok x -> Q x].

(** An instance, as [heat1d.__init__] builds it from
    [{'nvars': 2, 'nu': 1.0}]. *)
Definition heat1d_example : heat1d :=
  @Heat1d_obj [:: ("nvars"%string, PyInt 2%:Z); ("nu"%string, PyFloat 1)]
    mesh_class rhs_imex_mesh_class 2 1 (1 / 3%:R)
    (Heat1d.__get_A 2 1 (1 / 3%:R))
    [seq (i.+1)%:R * (1 / 3%:R) | i <- iota 0 2].

(** A periodic instance on two points. *)
Definition periodic_example : heat1d :=
  @Heat1d_obj [:: ("nvars"%string, PyInt 2%:Z); ("nu"%string, PyFloat 1)]
    mesh_class rhs_imex_mesh_class 2 1 (1 / 2%:R)
    ((1 / (1 / 2%:R) ^+ 2)
       *: (sp_diags [:: 1; -2%:R; 1] [:: -1; 0; 1] 2
           + sp_diags [:: 1; 1] [:: 2%:Z - 1; 1 - 2%:Z] 2))
    [seq i%:R * (1 / 2%:R) | i <- iota 0 2].

(** A generator of the other node types that knows one node set, the two
    Gauss-Radau-right nodes of an interval: the end of its first third and
    its right edge. *)
Definition radau_right_2 (nt qt : string) (M : nat) (a b : R)
  : option (seq R) :=
  if [&& String.eqb nt "LEGENDRE", String.eqb qt "RADAU-RIGHT" & M == 2%N]
  then Some [:: a + (b - a) / 3%:R; b] else None.

(** The periodic second-order finite-difference Laplacian on [n] points:
    the Dirichlet one plus a 1 in the two corners, which couple the first
    point with the last. *)
Definition periodic_laplacian (n : nat) : 'M[R]_n :=
  \matrix_(i < n, j < n)
    (fd_laplacian n i j
     + (if ((i : nat) == 0%N) && ((j : nat).+1 == n) then 1 else 0)
     + (if ((j : nat) == 0%N) && ((i : nat).+1 == n) then 1 else 0)).

(** What [heat1d_periodic.__init__] establishes of a new instance when
    [to_sparse] keeps the entries of the matrix. *)
Definition periodic_invariant (P : heat1d) : Prop :=
  [/\ (1 < nvars P)%N,
      dx P = 1 / (nvars P)%:R,
      A P = (nu P / dx P ^+ 2)
            *: (sp_diags [:: 1; -2%:R; 1] [:: -1; 0; 1] (nvars P)
                + sp_diags [:: 1; 1]
                    [:: (nvars P)%:Z - 1; 1 - (nvars P)%:Z] (nvars P))
    & xvalues P = [seq i%:R * dx P | i <- iota 0 (nvars P)]].

(** [writes_fresh_only m]: [m] changes no object of the store it is called
    in, and what it returns is a new object. *)
Definition writes_fresh_only (m : Py loc) : Prop :=
  forall s,
    (forall l, (l < size s)%N -> olook (m s).2 l = olook s l)
    /\ (forall r, (m s).1 = Ok r -> (size s <= r)%N).

(** ** What a run of the controller leaves of its Steps *)

Section RunSpec.

Variable V : Type.
Variable predictor : V -> R -> R -> option V.
Variable step_pass :
  Controller.mode -> V -> V -> R -> R -> option (V * R * nat).
Variable C : Controller.controller.

(** A Step at the end of a run: converged after at least one pass and
    within the cap, with a residual within the tolerance, or stopped at the
    cap. *)
Definition final_step (sp : Controller.step V) : bool :=
  match Controller.st sp with
  | Controller.CONVERGED =>
      [&& Rleb (Controller.res sp) (Controller.restol C),
          (0 < Controller.niter sp)%N
        & (Controller.niter sp <= Controller.maxiter C)%N]
  | Controller.MAXITER_REACHED =>
      Controller.niter sp == Controller.maxiter C
  | _ => false
  end.

(** The end value of a Step is the work of the Step on its own time-slice:
    of its predictor before the first pass, of a per-iteration pass, which
    also gives the residual, afterwards. *)
Definition produced (sp : Controller.step V) : Prop :=
  if Controller.niter sp is 0 then
    exists u,
      predictor u (Controller.t_slice sp) (Controller.dt C)
      = Some (Controller.u_end sp)
  else
    exists u ue n,
      step_pass (Controller.cmode C) u ue (Controller.t_slice sp)
        (Controller.dt C)
      = Some (Controller.u_end sp, Controller.res sp, n).

(** A Step after [k] global iterations: terminal as above, or iterating
    with [k] passes behind it. *)
Definition step_inv (k : nat) (sp : Controller.step V) : Prop :=
  [/\ produced sp, (Controller.niter sp <= k)%N
    & if Controller.terminal (Controller.st sp) then is_true (final_step sp)
      else Controller.st sp = Controller.ITERATING
           /\ Controller.niter sp = k].

(** [n] inner solves in [passes] passes, when a pass takes at least [lo]
    solves and, if [capped], at most [hi]. *)
Definition within (lo hi : nat) (capped : bool) (passes n : nat) : bool :=
  (lo * passes <= n)%N && (capped ==> (n <= hi * passes)%N).

(** [P] holds of every Step of a list. *)
Definition all_steps (P : Controller.step V -> Prop)
    (steps : seq (Controller.step V)) : Prop :=
  foldr (fun sp acc => P sp /\ acc) True steps.

End RunSpec.

(** The controller that [run_newton_pfasst_matrixfree(Tend)] instantiates:
    [num_procs = int((Tend - t0) / dt)] time-slices with [t0 = 0.0], of the
    length, with the tolerance and under the cap that the driver has
    written into the description. *)
Definition matrixfree_controller (float_div : R -> R -> R) (Tend : R)
  : Controller.controller :=
  Controller.new
    (Z.to_nat (Playground.py_int
                 (float_div (Tend - 0) (Playground.level_dt Playground.setup))))
    (Playground.level_dt Playground.setup)
    (Playground.newton_tol Playground.setup)
    (Playground.newton_maxiter Playground.setup)
    Controller.NewtonCoupled.

(** * Properties *)

(** ** The store *)

Lemma olook_some s l o : olook s l = Some o -> (l < size s)%N.
Proof.
rewrite /olook; case: (ltnP l (size s)) => // le.
by rewrite nth_default // size_map.
Qed.

Lemma olook_cat s t l :
  olook (s ++ t) l
  = if (l < size s)%N then olook s l else olook t (l - size s)%N.
Proof. by rewrite /olook map_cat nth_cat size_map. Qed.

Lemma olook_cat_old s t l : (l < size s)%N -> olook (s ++ t) l = olook s l.
Proof. by move=> lt; rewrite olook_cat lt. Qed.

Lemma olook_cat_new s t k : olook (s ++ t) (size s + k)%N = olook t k.
Proof. by rewrite olook_cat ltnNge leq_addr /= addKn. Qed.

Lemma olook_rcons_old s o l : (l < size s)%N -> olook (rcons s o) l = olook s l.
Proof. by move=> lt; rewrite -cats1 olook_cat lt. Qed.

Lemma olook_rcons_new s o : olook (rcons s o) (size s) = Some o.
Proof. by rewrite -cats1 olook_cat ltnn subnn. Qed.

Lemma set_nth_last (T : Type) (d : T) (s : seq T) x y :
  set_nth d (rcons s x) (size s) y = rcons s y.
Proof. by elim: s => [//|z s IH] /=; rewrite IH. Qed.

Lemma set_nth_cat_new (T : Type) (d : T) (s t : seq T) k y :
  set_nth d (s ++ t) (size s + k)%N y = s ++ set_nth d t k y.
Proof. by elim: s => [//|z s IH] /=; rewrite IH. Qed.

Lemma olook_set_nth s l o l' :
  (l < size s)%N ->
  olook (set_nth o s l o) l' = if l' == l then Some o else olook s l'.
Proof.
move=> lt; rewrite /olook.
have -> : [seq Some x | x <- set_nth o s l o]
          = set_nth None (map Some s) l (Some o).
  by elim: s l lt => [//|x s IH] [|l] //= lt; rewrite IH.
by rewrite nth_set_nth.
Qed.

Lemma size_set_nth_in (s : store) l o :
  (l < size s)%N -> size (set_nth o s l o) = size s.
Proof. by move=> lt; rewrite size_set_nth; apply/maxn_idPr. Qed.

(** ** Running the primitives *)

Lemma bind_ok T U (m : Py T) (f : T -> Py U) s x s' :
  m s = (Ok x, s') -> bind m f s = f x s'.
Proof. by rewrite /bind => ->. Qed.

Lemma bind_raise T U (m : Py T) (f : T -> Py U) s e s' :
  m s = (Raise e, s') -> bind m f s = (Raise e, s').
Proof. by rewrite /bind => ->. Qed.

Lemma get_values_run s u v :
  olook s u = Some (OMesh v) -> get_values u s = (Ok v, s).
Proof. by rewrite /get_values => ->. Qed.

Lemma set_values_new s v0 v :
  set_values (size s) v (rcons s (OMesh v0)) = (Ok tt, rcons s (OMesh v)).
Proof. by rewrite /set_values olook_rcons_new set_nth_last. Qed.

Lemma set_impl_run s f i0 e i :
  olook s f = Some (ORhsImex i0 e) ->
  set_impl f i s = (Ok tt, set_nth (ORhsImex i e) s f (ORhsImex i e)).
Proof. by rewrite /set_impl => ->. Qed.

Lemma set_expl_run s f i e0 e :
  olook s f = Some (ORhsImex i e0) ->
  set_expl f e s = (Ok tt, set_nth (ORhsImex i e) s f (ORhsImex i e)).
Proof. by rewrite /set_expl => ->. Qed.

Lemma rhs_imex_mesh_run n s :
  rhs_imex_mesh n s
  = (Ok (size s + 2)%N,
     s ++ [:: OMesh (np_zeros n); OMesh (np_zeros n);
              ORhsImex (size s) (size s + 1)%N]).
Proof.
rewrite /rhs_imex_mesh /mesh /bind /alloc !size_rcons -!cats1 -!catA /=.
by rewrite addn1 addn2.
Qed.

(** ** Arrays and column vectors *)

Lemma size_arr_of n (x : 'cV[R]_n) : size (arr_of x) = n.
Proof. by rewrite /arr_of size_map size_enum_ord. Qed.

Lemma nth_arr_of n (x : 'cV[R]_n) (i : 'I_n) : nth 0 (arr_of x) i = x i ord0.
Proof.
by rewrite /arr_of (nth_map i) ?size_enum_ord // nth_ord_enum.
Qed.

Lemma vec_of_arr_of n (x : 'cV[R]_n) : vec_of n (arr_of x) = x.
Proof.
apply/matrixP => i j; rewrite mxE nth_arr_of.
by congr (x _ _); apply: val_inj; case: j => [[|j] Hj].
Qed.

Lemma arr_of_vec_of n (v : seq R) : size v = n -> arr_of (vec_of n v) = v.
Proof.
move=> sz; apply: (@eq_from_nth _ 0); first by rewrite size_arr_of.
move=> i; rewrite size_arr_of => lt.
by rewrite (nth_arr_of _ (Ordinal lt)) mxE.
Qed.

Lemma arr_of_zero n : arr_of (0 : 'cV[R]_n) = np_zeros n.
Proof.
apply: (@eq_from_nth _ 0); first by rewrite size_arr_of size_nseq.
move=> i; rewrite size_arr_of => lt.
by rewrite (nth_arr_of _ (Ordinal lt)) mxE nth_nseq lt.
Qed.


(** ** Computations that only touch fresh objects *)

Lemma frames_ret k T (x : T) (Q : T -> Prop) : Q x -> frames k (ret x) Q.
Proof. by move=> Qx s le; split=> // y [<-]. Qed.

Lemma frames_raise k T e (Q : T -> Prop) : frames k (raise e) Q.
Proof. by move=> s le; split. Qed.

Lemma frames_lift k T (r : result T) : frames k (lift r) (fun=> True).
Proof. by move=> s le; split. Qed.

Lemma frames_weaken k T (m : Py T) (Q Q' : T -> Prop) :
  (forall x, Q x -> Q' x) -> frames k m Q -> frames k m Q'.
Proof. by move=> QQ' Hm s /Hm [le eq HQ]; split=> // x /HQ /QQ'. Qed.

Lemma frames_bind k T U (m : Py T) (f : T -> Py U) (Q : T -> Prop) Q' :
  frames k m Q -> (forall x, Q x -> frames k (f x) Q') ->
  frames k (bind m f) Q'.
Proof.
move=> Hm Hf s le; have [le1 eq1 HQ] := Hm s le.
rewrite /bind; case E: (m s) le1 eq1 HQ => [[x|e] s1] /= le1 eq1 HQ; last first.
  by split.
have [le2 eq2 HQ'] := Hf x (HQ x erefl) s1 (leq_trans le le1).
by split=> [|l lt|//]; [exact: leq_trans le2 | rewrite eq2 // eq1].
Qed.

Lemma frames_alloc k o : frames k (alloc o) (fun l => (k <= l)%N).
Proof.
move=> s le; split=> /= [|l lt|x [<-] //]; first by rewrite size_rcons.
by rewrite olook_rcons_old // (leq_trans lt).
Qed.

Lemma frames_mesh k n : frames k (mesh n) (fun l => (k <= l)%N).
Proof. exact: frames_alloc. Qed.

Lemma frames_py_assert k b : frames k (py_assert b) (fun=> True).
Proof. by case: b => s le; split. Qed.

Lemma frames_get_values k u : frames k (get_values u) (fun=> True).
Proof.
by move=> s le; rewrite /get_values; case: (olook s u) => [[]|]; split.
Qed.

Lemma frames_update k (s : store) l o :
  (k <= l)%N -> (l < size s)%N -> (k <= size s)%N ->
  [/\ (size s <= size (set_nth o s l o))%N,
      forall l', (l' < k)%N -> olook (set_nth o s l o) l' = olook s l'
    & forall x : unit, Ok tt = Ok x -> True].
Proof.
move=> kl lt le; split=> // [|l' lt'].
  by rewrite size_set_nth_in.
by rewrite olook_set_nth // ltn_eqF // (leq_trans lt').
Qed.

Lemma frames_set_values k me v :
  (k <= me)%N -> frames k (set_values me v) (fun=> True).
Proof.
move=> kme s le; rewrite /set_values.
case E: (olook s me) => [[v0|||||]|] /=; try by split.
exact: frames_update (olook_some E) le.
Qed.

Lemma frames_set_impl k f i :
  (k <= f)%N -> frames k (set_impl f i) (fun=> True).
Proof.
move=> kf s le; rewrite /set_impl.
case E: (olook s f) => [[|i0 e0||||]|] /=; try by split.
exact: frames_update (olook_some E) le.
Qed.

Lemma frames_set_expl k f e :
  (k <= f)%N -> frames k (set_expl f e) (fun=> True).
Proof.
move=> kf s le; rewrite /set_expl.
case E: (olook s f) => [[|i0 e0||||]|] /=; try by split.
exact: frames_update (olook_some E) le.
Qed.

Lemma frames_rhs_imex_mesh k n :
  frames k (rhs_imex_mesh n) (fun l => (k <= l)%N).
Proof.
rewrite /rhs_imex_mesh.
apply: frames_bind; first exact: frames_mesh.
move=> i _; apply: frames_bind; first exact: frames_mesh.
by move=> e _; exact: frames_alloc.
Qed.

Lemma frames_mesh_rmul k c u : frames k (mesh_rmul c u) (fun l => (k <= l)%N).
Proof.
rewrite /mesh_rmul.
apply: frames_bind; first exact: frames_get_values.
by move=> v _; exact: frames_alloc.
Qed.

Lemma frames_heat1d_self k self : frames k (Heat1d.get_self self) (fun=> True).
Proof.
by move=> s le; rewrite /Heat1d.get_self; case: (olook s self) => [[]|]; split.
Qed.

Lemma frames_periodic_self k self :
  frames k (Heat1dPeriodic.get_self self) (fun=> True).
Proof.
move=> s le; rewrite /Heat1dPeriodic.get_self.
by case: (olook s self) => [[]|]; split.
Qed.

Lemma frames_sharpclaw_self k self :
  frames k (Sharpclaw.get_self self) (fun=> True).
Proof.
by move=> s le; rewrite /Sharpclaw.get_self; case: (olook s self) => [[]|]; split.
Qed.

(** Chains of binds over the primitives. *)
Ltac frames_tac :=
  repeat first
    [ exact: frames_alloc | exact: frames_mesh | exact: frames_rhs_imex_mesh
    | exact: frames_mesh_rmul | exact: frames_get_values | exact: frames_lift
    | exact: frames_py_assert | exact: frames_raise
    | exact: frames_heat1d_self | exact: frames_periodic_self
    | exact: frames_sharpclaw_self
    | by apply: frames_set_values | by apply: frames_set_impl
    | by apply: frames_set_expl | by apply: frames_ret
    | apply: frames_bind; [ | intros ? ? ] ].

Lemma frames_heat1d_eval_fexpl k self u t :
  frames k (Heat1d.__eval_fexpl self u t) (fun l => (k <= l)%N).
Proof. by rewrite /Heat1d.__eval_fexpl; frames_tac. Qed.

Lemma frames_heat1d_eval_fimpl k self u t :
  frames k (Heat1d.__eval_fimpl self u t) (fun l => (k <= l)%N).
Proof. by rewrite /Heat1d.__eval_fimpl; frames_tac. Qed.

Lemma frames_heat1d_eval_f k self u t :
  frames k (Heat1d.eval_f self u t) (fun l => (k <= l)%N).
Proof.
rewrite /Heat1d.eval_f.
apply: frames_bind; first exact: frames_heat1d_self.
move=> P _; apply: frames_bind; first exact: frames_rhs_imex_mesh.
move=> f kf; apply: frames_bind; first exact: frames_heat1d_eval_fimpl.
move=> i ki; apply: frames_bind; first exact: frames_set_impl.
move=> _ _; apply: frames_bind; first exact: frames_heat1d_eval_fexpl.
move=> e ke; apply: frames_bind; first exact: frames_set_expl.
by move=> _ _; apply: frames_ret.
Qed.

Lemma frames_heat1d_solve_system k self rhs factor u0 :
  frames k (Heat1d.solve_system self rhs factor u0) (fun l => (k <= l)%N).
Proof. by rewrite /Heat1d.solve_system; frames_tac. Qed.

Lemma frames_heat1d_u_exact k self t :
  frames k (Heat1d.u_exact self t) (fun l => (k <= l)%N).
Proof. by rewrite /Heat1d.u_exact; frames_tac. Qed.

(** ** What the methods of [heat1d] compute *)

Lemma heat1d_self_run s self P :
  olook s self = Some (OHeat1d P) -> Heat1d.get_self self s = (Ok P, s).
Proof. by rewrite /Heat1d.get_self => ->. Qed.

Lemma heat1d_self_fail s self :
  (forall P, olook s self <> Some (OHeat1d P)) ->
  Heat1d.get_self self s = (Raise TypeError, s).
Proof.
by rewrite /Heat1d.get_self; case: (olook s self) => [[v|i e|P|f P|P|C]|] // /(_ P).
Qed.

Lemma heat1d_eval_fexpl_run s self u t P :
  olook s self = Some (OHeat1d P) ->
  Heat1d.__eval_fexpl self u t s
  = (Ok (size s), rcons s (OMesh (np_zeros (nvars P)))).
Proof.
move=> Hself; rewrite /Heat1d.__eval_fexpl (bind_ok _ (heat1d_self_run Hself)).
by rewrite /mesh /bind /alloc set_values_new.
Qed.

Lemma heat1d_eval_fimpl_run s self u t P :
  olook s self = Some (OHeat1d P) -> (u < size s)%N ->
  Heat1d.__eval_fimpl self u t s
  = (if olook s u is Some (OMesh uv) then
       if size uv == nvars P
       then Ok (size s) else Raise ValueError
     else Raise AttributeError,
     rcons s (OMesh (if olook s u is Some (OMesh uv) then
                       if size uv == nvars P
                       then arr_of (A P *m vec_of (nvars P) uv)
                       else np_zeros (nvars P)
                     else np_zeros (nvars P)))).
Proof.
move=> Hself lt; rewrite /Heat1d.__eval_fimpl (bind_ok _ (heat1d_self_run Hself)).
rewrite /mesh {1}/bind {1}/alloc /get_values {1}/bind olook_rcons_old //.
case: (olook s u) => [[uv|i e|Q|f Q|Q|C]|] //.
rewrite /sp_dot /lift {1}/bind; case: eqP => // _.
by rewrite /bind set_values_new.
Qed.

Lemma heat1d_eval_f_outcome s self u t :
  (u < size s)%N ->
  rhs_outcome (Heat1d.eval_f self u t s)
  = eval_f_value (olook s self) (olook s u).
Proof.
move=> lt; rewrite /Heat1d.eval_f /eval_f_value.
case Hself: (olook s self) => [[v|i e|P|f P|P|C]|];
  try by rewrite (bind_raise _ (heat1d_self_fail _)) // Hself.
rewrite (bind_ok _ (heat1d_self_run Hself)) (bind_ok _ (rhs_imex_mesh_run _ _)).
set z := OMesh (np_zeros _).
have lt_self := olook_some Hself.
rewrite {1}/bind (@heat1d_eval_fimpl_run _ self u t P) ?olook_cat_old ?size_cat ?ltn_addr //.
case Hu: (olook s u) => [[uv|i e|Q|f Q|Q|C]|] //.
case: eqP => // Hsz; rewrite rcons_cat /=.
set Au := OMesh (arr_of _).
have Hf1 : olook (s ++ [:: z; z; ORhsImex (size s) (size s + 1)%N; Au])
             (size s + 2)%N = Some (ORhsImex (size s) (size s + 1)%N).
  by rewrite olook_cat_new.
rewrite (bind_ok _ (set_impl_run _ Hf1)) set_nth_cat_new /=.
rewrite (bind_ok _ (@heat1d_eval_fexpl_run _ self u t P _)) ?olook_cat_old //.
rewrite rcons_cat size_cat /=.
have Hf2 : olook (s ++ [:: z; z; ORhsImex (size s + 3)%N (size s + 1)%N; Au; z])
             (size s + 2)%N = Some (ORhsImex (size s + 3)%N (size s + 1)%N).
  by rewrite olook_cat_new.
rewrite (bind_ok _ (set_expl_run _ Hf2)) set_nth_cat_new /= /ret /rhs_outcome.
by rewrite olook_cat_new /= !olook_cat_new.
Qed.

(** The part of [solve_system] that the two heat problems share. *)
Lemma solve_body_outcome s (P : heat1d) rhs factor :
  (rhs < size s)%N ->
  mesh_outcome
    ((me <- mesh (nvars P) ;;
      Minv <- lift (LA_inv (sp_eye (nvars P) - factor *: A P)) ;;
      rv <- get_values rhs ;;
      v <- lift (sp_dot Minv rv) ;;
      set_values me v ;;
      ret me) s)
  = solve_system_value (Some P) factor (olook s rhs).
Proof.
move=> lt; rewrite /solve_system_value /mesh {1}/bind {1}/alloc /LA_inv.
case: ifP => _; last by [].
rewrite /lift {1}/bind /get_values {1}/bind olook_rcons_old //.
case: (olook s rhs) => [[rv|i e|Q|f Q|Q|C]|] //.
rewrite /sp_dot {1}/bind; case: eqP => // _.
by rewrite /bind set_values_new /ret /= olook_rcons_new.
Qed.

Lemma heat1d_solve_system_outcome s self rhs factor u0 :
  (rhs < size s)%N ->
  mesh_outcome (Heat1d.solve_system self rhs factor u0 s)
  = solve_system_value
      (if olook s self is Some (OHeat1d P) then Some P else None)
      factor (olook s rhs).
Proof.
move=> lt; rewrite /Heat1d.solve_system.
case Hself: (olook s self) => [[v|i e|P|f P|P|C]|];
  try by rewrite (bind_raise _ (heat1d_self_fail _)) // Hself.
by rewrite (bind_ok _ (heat1d_self_run Hself)) solve_body_outcome.
Qed.

Lemma periodic_self_run s self f P :
  olook s self = Some (OHeat1dPeriodic f P) ->
  Heat1dPeriodic.get_self self s = (Ok P, s).
Proof. by rewrite /Heat1dPeriodic.get_self => ->. Qed.

Lemma periodic_self_fail s self :
  (forall f P, olook s self <> Some (OHeat1dPeriodic f P)) ->
  Heat1dPeriodic.get_self self s = (Raise TypeError, s).
Proof.
rewrite /Heat1dPeriodic.get_self.
by case: (olook s self) => [[v|i e|P|f P|P|C]|] // /(_ f P).
Qed.

Lemma periodic_solve_system_outcome s self rhs factor u0 :
  (rhs < size s)%N ->
  mesh_outcome (Heat1dPeriodic.solve_system self rhs factor u0 s)
  = solve_system_value
      (if olook s self is Some (OHeat1dPeriodic _ P) then Some P else None)
      factor (olook s rhs).
Proof.
move=> lt; rewrite /Heat1dPeriodic.solve_system.
case Hself: (olook s self) => [[v|i e|P|f P|P|C]|];
  try by rewrite (bind_raise _ (periodic_self_fail _)) // Hself.
by rewrite (bind_ok _ (periodic_self_run Hself)) solve_body_outcome.
Qed.

(** ** The constructor of [heat1d] *)

Lemma dirichlet_dx_pos (n : nat) :
  dirichlet_dx (Some (PyInt (Posz n.+1))) = Ok (1 / n.+2%:R).
Proof. by rewrite /dirichlet_dx /= rmorphD /= rmorph1 -pmulrn natr1. Qed.

Lemma heat1d_init_run cparams du df s self s' :
  Heat1d.__init__ cparams du df s = (Ok self, s') ->
  exists P, [/\ self = size s, s' = rcons s (OHeat1d P), attrs P = cparams
              & heat1d_invariant P].
Proof.
rewrite /Heat1d.__init__ /py_assert.
case: (dict_mem "nvars" cparams); last by [].
case: (dict_mem "nu" cparams); last by [].
rewrite /bind /ret /lift /=.
case: (setattr_items _ _) => [_|e] //.
case Ed: (dirichlet_dx _) => [d|e] //.
case: (method_lookup _ _) => [_|e] //.
case En: (as_dim _) => [n|e] //; case Enu: (as_float _) => [nu0|e] //.
rewrite /alloc => -[<- <-]; eexists; split=> //; split=> //=.
- by move: En; case: (dict_get _ _) => [[[[|m]|m]|x|x]|] //= [<-].
- move: En Ed; case: (dict_get _ _) => [[[[|m]|m]|x|x]|] //.
  by rewrite dirichlet_dx_pos => -[<-] [<-].
Qed.

Lemma int_eq_pred (i j : nat) : (j%:Z == i%:Z + (-1)) = (j.+1 == i).
Proof. by rewrite eq_sym subr_eq -PoszD addn1 eqz_nat eq_sym. Qed.

Lemma int_eq_succ (i j : nat) : (j%:Z == i%:Z + 1) = (i.+1 == j).
Proof. by rewrite -PoszD addn1 eqz_nat eq_sym. Qed.

(** The matrix assembled by [__get_A] is the scaled Laplacian. *)
Lemma get_A_laplacian n nu dx :
  Heat1d.__get_A n nu dx = (nu / dx ^+ 2) *: fd_laplacian n.
Proof.
rewrite /Heat1d.__get_A /=; congr (_ *: _).
apply/matrixP => i j; rewrite !mxE /= !big_cons big_nil /= addr0.
rewrite int_eq_pred int_eq_succ addr0 eqz_nat (eq_sym (j : nat)).
have [->|_] := eqVneq (i : nat) j.
  by rewrite gtn_eqF // add0r addr0.
rewrite add0r; case: (boolP (j.+1 == i :> nat)) => [/eqP <-|_].
  by rewrite gtn_eqF ?addr0 // ltnS leqnSn.
by rewrite add0r orbF.
Qed.

(** The rows of the Laplacian are the three-point stencil [1, -2, 1], with
    zero beyond both ends (the Dirichlet boundary). *)
Lemma fd_laplacian_stencil n (v : seq R) (i : 'I_n) :
  size v = n ->
  nth 0 (arr_of (fd_laplacian n *m vec_of n v)) i
  = (if (i : nat) is k.+1 then nth 0 v k else 0) - 2%:R * nth 0 v i
    + nth 0 v i.+1.
Proof.
move=> sz; rewrite nth_arr_of mxE.
have E (j : 'I_n) : true ->
    fd_laplacian n i j * vec_of n v j ord0
    = (if (j : nat).+1 == i then nth 0 v j else 0)
      + ((if (j : nat) == i then - 2%:R * nth 0 v j else 0)
      + (if (j : nat) == i.+1 then nth 0 v j else 0)).
  move=> _; rewrite !mxE (eq_sym (i : nat)) (eq_sym i.+1).
  have [->|ne] := eqVneq (j : nat) i.
    by rewrite gtn_eqF // ltn_eqF // add0r addr0 mulNr.
  case: (boolP (j.+1 == i :> nat)) => [/eqP <-|_].
    by rewrite orbT mul1r ltn_eqF ?addr0 // ltnS leqnSn.
  by rewrite orbF add0r add0r; case: eqP => _; rewrite ?mul1r ?mul0r.
rewrite (eq_bigr _ E) {E}.
rewrite !big_split /= addrA; congr (_ + _ + _).
- case: i => [[|k] Hk] /=.
    by rewrite big1 // => j _.
  have Hk' : (k < n)%N by exact: ltnW.
  rewrite (bigD1 (Ordinal Hk')) //= eqxx big1 ?addr0 // => j ne.
  by rewrite eqSS; case: eqP => // E; case/eqP: ne; apply: val_inj.
- rewrite (bigD1 i) //= eqxx big1 ?addr0 ?mulNr // => j ne.
  by case: eqP => // E; case/eqP: ne; apply: val_inj.
- case: (ltnP i.+1 n) => [lt|le].
    rewrite (bigD1 (Ordinal lt)) //= eqxx big1 ?addr0 // => j ne.
    by case: eqP => // E; case/eqP: ne; apply: val_inj.
  rewrite nth_default ?sz // big1 // => j _.
  by rewrite ltn_eqF // (leq_trans (ltn_ord j)).
Qed.

(** ** [eval_f] *)

(** C2: on an instance built by the constructor and a state of its size,
    [heat1d.eval_f(u, t)] returns a right-hand side whose implicit part is
    the product of the scaled finite-difference Laplacian with [u] and whose
    explicit part is the zero vector of length [nvars]. *)
Theorem heat1d_eval_f_splits s self u t P uv :
  olook s self = Some (OHeat1d P) -> heat1d_invariant P ->
  olook s u = Some (OMesh uv) -> size uv = nvars P ->
  rhs_outcome (Heat1d.eval_f self u t s)
  = Ok (Some (arr_of (((nu P / dx P ^+ 2) *: fd_laplacian (nvars P))
                      *m vec_of (nvars P) uv),
              nseq (nvars P) 0))
  /\ Heat1d.system_matrix P = (nu P / dx P ^+ 2) *: fd_laplacian (nvars P).
Proof.
move=> Hself [_ _ HA _] Hu Hsz.
rewrite heat1d_eval_f_outcome ?(olook_some Hu) // Hself Hu /eval_f_value.
by rewrite Hsz eqxx /Heat1d.system_matrix HA get_A_laplacian.
Qed.


Lemma heat1d_example_invariant : heat1d_invariant heat1d_example.
Proof. by split. Qed.

Lemma heat1d_example_built s :
  Heat1d.__init__ [:: ("nvars"%string, PyInt 2%:Z); ("nu"%string, PyFloat 1)]
    mesh_class rhs_imex_mesh_class s
  = (Ok (size s), rcons s (OHeat1d heat1d_example)).
Proof. by []. Qed.

Lemma heat1d_eval_f_splits_witness :
  rhs_outcome (Heat1d.eval_f 0 1 0
                 [:: OHeat1d heat1d_example; OMesh [:: 1; 2%:R]])
  = Ok (Some (arr_of (((1 / (1 / 3%:R) ^+ 2) *: fd_laplacian 2)
                      *m vec_of 2 [:: 1; 2%:R]),
              nseq 2 0))
  /\ Heat1d.system_matrix heat1d_example
     = (1 / (1 / 3%:R) ^+ 2) *: fd_laplacian 2.
Proof.
exact: (@heat1d_eval_f_splits
          [:: OHeat1d heat1d_example; OMesh [:: 1; 2%:R]] 0%N 1%N 0
          heat1d_example [:: 1; 2%:R] erefl heat1d_example_invariant
          erefl erefl).
Defined.

(** C5: [heat1d.eval_f(u, t)] changes no object that existed before the
    call, in particular neither [u] nor the problem instance, and a second
    call with the same arguments returns the same right-hand side.  *)
Theorem heat1d_eval_f_pure s self u t :
  (self < size s)%N -> (u < size s)%N ->
  let s1 := (Heat1d.eval_f self u t s).2 in
  [/\ forall l, (l < size s)%N -> olook s1 l = olook s l,
      olook s1 u = olook s u,
      olook s1 self = olook s self
    & rhs_outcome (Heat1d.eval_f self u t s1)
      = rhs_outcome (Heat1d.eval_f self u t s)].
Proof.
move=> lt_self lt_u s1.
have [le eq _] := @frames_heat1d_eval_f (size s) self u t s (leqnn _).
split=> //; try exact: eq.
by rewrite !heat1d_eval_f_outcome ?(leq_trans lt_u) // !eq.
Qed.

Lemma heat1d_eval_f_pure_witness :
  let s := [:: OHeat1d heat1d_example; OMesh [:: 1; 2%:R]] in
  let s1 := (Heat1d.eval_f 0 1 0 s).2 in
  [/\ forall l, (l < size s)%N -> olook s1 l = olook s l,
      olook s1 1 = olook s 1,
      olook s1 0 = olook s 0
    & rhs_outcome (Heat1d.eval_f 0 1 0 s1)
      = rhs_outcome (Heat1d.eval_f 0 1 0 s)].
Proof.
exact: (@heat1d_eval_f_pure
          [:: OHeat1d heat1d_example; OMesh [:: 1; 2%:R]] 0%N 1%N 0
          erefl erefl).
Defined.

(** ** [solve_system] *)

(** On a regular system matrix, [heat1d.solve_system] returns the solution
    of [(I - factor * A) u = rhs]. *)
Lemma heat1d_solve_system_solves s self rhs factor u0 P rv :
  olook s self = Some (OHeat1d P) ->
  olook s rhs = Some (OMesh rv) -> size rv = nvars P ->
  (sp_eye (nvars P) - factor *: Heat1d.system_matrix P) \in unitmx ->
  exists2 v,
    mesh_outcome (Heat1d.solve_system self rhs factor u0 s) = Ok (Some v)
    & (sp_eye (nvars P) - factor *: Heat1d.system_matrix P)
        *m vec_of (nvars P) v = vec_of (nvars P) rv.
Proof.
move=> Hself Hrhs Hsz reg.
rewrite heat1d_solve_system_outcome ?(olook_some Hrhs) // Hself Hrhs.
rewrite /solve_system_value -/(Heat1d.system_matrix P) reg Hsz eqxx.
by eexists; first by []; rewrite vec_of_arr_of mulKVmx.
Qed.

Lemma sharpclaw_self_run s self P :
  olook s self = Some (OSharpclaw P) -> Sharpclaw.get_self self s = (Ok P, s).
Proof. by rewrite /Sharpclaw.get_self => ->. Qed.

(** [sharpclaw.solve_system] returns the zero mesh, whatever the right-hand
    side. *)
Lemma sharpclaw_solve_system_zero s self rhs factor u0 P :
  olook s self = Some (OSharpclaw P) ->
  mesh_outcome (Sharpclaw.solve_system self rhs factor u0 s)
  = Ok (Some (np_zeros (sc_nvars P))).
Proof.
move=> Hself; rewrite /Sharpclaw.solve_system (bind_ok _ (sharpclaw_self_run Hself)).
rewrite /mesh {1}/bind {1}/alloc /mesh_rmul {1}/bind.
rewrite (bind_ok _ (get_values_run (olook_rcons_new _ _))) /alloc /ret /=.
rewrite olook_rcons_new; congr (Ok (Some _)).
by rewrite /np_zeros map_nseq mulr0.
Qed.


(** C1: a [sharpclaw] instance with one unknown, asked to solve with the
    right-hand side [[1.0]] and the factor [0.0], returns the mesh [[0.0]];
    that mesh does not satisfy [(I - factor * Operator) u = rhs], for the
    operator of the class and for any other one. *)
Theorem sharpclaw_solve_system_misses :
  let P := Sharpclaw_obj [:: ("nvars"%string, PyInt 1%:Z)] 1 (1 / 2%:R) in
  let s := [:: OSharpclaw P; OMesh [:: 1]; OMesh [:: 0]] in
  mesh_outcome (Sharpclaw.solve_system 0 1 0 2 s) = Ok (Some [:: 0])
  /\ forall Op : 'M[R]_1,
       (sp_eye 1 - 0 *: Op) *m vec_of 1 [:: 0] <> vec_of 1 [:: 1].
Proof.
move=> P s; split; first by rewrite (@sharpclaw_solve_system_zero _ _ _ _ _ P).
move=> Op /matrixP /(_ ord0 ord0); rewrite scale0r subr0 mul1mx !mxE /=.
by move/eqP; rewrite eq_sym oner_eq0.
Qed.

(** C9: the mesh returned by [solve_system(rhs, factor, u0)] of [heat1d] and
    of [heat1d_periodic] depends on the instance, on the right-hand side and
    on the factor only: two calls that differ in the initial guess, be it
    another object or the same object with other values, return equal
    meshes. *)
Theorem solve_system_ignores_u0 s1 s2 selfh selfp rhs factor u0 u0' :
  (rhs < size s1)%N -> (rhs < size s2)%N ->
  olook s1 rhs = olook s2 rhs ->
  olook s1 selfh = olook s2 selfh ->
  olook s1 selfp = olook s2 selfp ->
  mesh_outcome (Heat1d.solve_system selfh rhs factor u0 s1)
  = mesh_outcome (Heat1d.solve_system selfh rhs factor u0' s2)
  /\ mesh_outcome (Heat1dPeriodic.solve_system selfp rhs factor u0 s1)
     = mesh_outcome (Heat1dPeriodic.solve_system selfp rhs factor u0' s2).
Proof.
move=> lt1 lt2 Hrhs Hh Hp.
rewrite !heat1d_solve_system_outcome // !periodic_solve_system_outcome //.
by rewrite Hrhs Hh Hp.
Qed.


Lemma solve_system_ignores_u0_witness :
  let s1 := [:: OHeat1d heat1d_example;
                OHeat1dPeriodic (PyStr "array") periodic_example;
                OMesh [:: 1; 2%:R]; OMesh [:: 0; 0]; OMesh [:: 1; 1]] in
  let s2 := [:: OHeat1d heat1d_example;
                OHeat1dPeriodic (PyStr "array") periodic_example;
                OMesh [:: 1; 2%:R]; OMesh [:: 3%:R; 4%:R]; OMesh [:: 5%:R; 6%:R]] in
  mesh_outcome (Heat1d.solve_system 0 2 (1 / 10%:R) 3 s1)
  = mesh_outcome (Heat1d.solve_system 0 2 (1 / 10%:R) 4 s2)
  /\ mesh_outcome (Heat1dPeriodic.solve_system 1 2 (1 / 10%:R) 3 s1)
     = mesh_outcome (Heat1dPeriodic.solve_system 1 2 (1 / 10%:R) 4 s2).
Proof.
exact: (@solve_system_ignores_u0
          [:: OHeat1d heat1d_example;
              OHeat1dPeriodic (PyStr "array") periodic_example;
              OMesh [:: 1; 2%:R]; OMesh [:: 0; 0]; OMesh [:: 1; 1]]
          [:: OHeat1d heat1d_example;
              OHeat1dPeriodic (PyStr "array") periodic_example;
              OMesh [:: 1; 2%:R]; OMesh [:: 3%:R; 4%:R]; OMesh [:: 5%:R; 6%:R]]
          0%N 1%N 2%N (1 / 10%:R) 3%N 4%N erefl erefl erefl erefl erefl).
Defined.

(** ** The infinity norm *)

Lemma norm_inf_ge0 v : (0 <= norm_inf v)%Re.
Proof.
elim: v => [|x v IH] /=; first exact: Rle_refl.
by apply: Rle_trans (Rmax_l _ _); exact: Rabs_pos.
Qed.

Lemma norm_inf_scale (c : R) v :
  (0 <= c)%Re -> norm_inf [seq x * c | x <- v] = (norm_inf v * c)%Re.
Proof.
move=> c0; elim: v => [|x v IH] /=; first by rewrite Rmult_0_l.
rewrite IH RmulE Rabs_mult (Rabs_pos_eq c) //.
by rewrite !(Rmult_comm _ c) RmaxRmult.
Qed.

Lemma norm_inf_pos x v : (0 < x)%Re -> (0 < norm_inf (x :: v))%Re.
Proof.
move=> x0 /=; apply: Rlt_le_trans (Rmax_l _ _).
by rewrite Rabs_pos_eq //; exact: Rlt_le.
Qed.

(** ** [u_exact] *)

Lemma heat1d_u_exact_run s self t P :
  olook s self = Some (OHeat1d P) ->
  Heat1d.u_exact self t s
  = (Ok (size s),
     rcons s (OMesh [seq sin (PI * x) * exp (- PI ^+ 2 * nu P * t)
                    | x <- xvalues P])).
Proof.
move=> Hself; rewrite /Heat1d.u_exact (bind_ok _ (heat1d_self_run Hself)).
by rewrite /mesh /bind /alloc set_values_new.
Qed.

Lemma mesh_abs_run s u v :
  olook s u = Some (OMesh v) -> mesh_abs u s = (Ok (norm_inf v), s).
Proof. by move=> Hu; rewrite /mesh_abs (bind_ok _ (get_values_run Hu)). Qed.

Lemma first_node_in_unit_interval n :
  (0 < (PI * (1%:R * (1 / n.+2%:R)))%R < PI)%Re.
Proof.
have lt2 : (2 <= INR n.+2)%Re.
  by rewrite -[2%Re]/(INR 2); apply: le_INR; apply/leP.
have PI0 := PI_RGT_0.
rewrite !RnatE !RmulE RinvE R1E [INR 1]/=.
have inv : (0 < / INR n.+2 <= / 2)%Re.
  split; first by apply: Rinv_0_lt_compat; lra.
  by apply: Rinv_le_contravar; lra.
by split; nra.
Qed.

Lemma exp_decay (nu t : R) :
  (0 < nu)%Re -> (0 < t)%Re -> (exp (- PI ^+ 2 * nu * t) < 1)%Re.
Proof.
move=> nu0 t0; rewrite -exp_0; apply: exp_increasing.
have PI0 := PI_RGT_0.
rewrite expr2 !RmulE RoppE.
have h1 : (0 < PI * PI)%Re by nra.
have h2 : (0 < PI * PI * nu)%Re by nra.
by nra.
Qed.

Lemma norm_inf_exact (P : heat1d) (t : R) :
  norm_inf [seq sin (PI * x) * exp (- PI ^+ 2 * nu P * t) | x <- xvalues P]
  = (norm_inf [seq sin (PI * x) | x <- xvalues P]
     * exp (- PI ^+ 2 * nu P * t))%Re.
Proof.
have c0 : (0 <= exp (- PI ^+ 2 * nu P * t))%Re.
  by apply: Rlt_le; apply: exp_pos.
by rewrite -(norm_inf_scale _ c0) -map_comp.
Qed.

(** C6: on an instance built by the constructor, [heat1d.u_exact(t)] returns
    the mesh whose i-th value is [sin(pi x_i) exp(-pi^2 nu t)] with
    [x_i = (i+1) dx] and [dx = 1/(nvars+1)]; for a positive diffusion
    coefficient its norm at a later time is strictly smaller than at time
    0. *)
Theorem heat1d_u_exact_decays s self P t :
  olook s self = Some (OHeat1d P) -> heat1d_invariant P ->
  mesh_outcome (Heat1d.u_exact self t s)
  = Ok (Some [seq sin (PI * ((i.+1)%:R * (1 / (nvars P).+1%:R)))
                  * exp (- PI ^+ 2 * nu P * t)
             | i <- iota 0 (nvars P)])
  /\ ((0 < nu P)%Re -> (0 < t)%Re ->
      exists n0 nt s',
        (u0 <- Heat1d.u_exact self 0 ;;
         ut <- Heat1d.u_exact self t ;;
         n0 <- mesh_abs u0 ;;
         nt <- mesh_abs ut ;;
         ret (n0, nt)) s = (Ok (n0, nt), s')
        /\ (nt < n0)%Re).
Proof.
move=> Hself [n0 Hdx _ Hx]; split.
  rewrite (heat1d_u_exact_run _ Hself) /= olook_rcons_new Hx -Hdx -map_comp.
  by [].
move=> nu0 t0; have lt_self := olook_some Hself.
rewrite (bind_ok _ (heat1d_u_exact_run 0 Hself)).
rewrite (bind_ok _ (@heat1d_u_exact_run _ self t P _)) ?olook_rcons_old //.
set v0 := OMesh _; set vt := OMesh _.
have H0 : olook (rcons (rcons s v0) vt) (size s) = Some v0.
  by rewrite olook_rcons_old ?size_rcons // olook_rcons_new.
have Ht : olook (rcons (rcons s v0) vt) (size (rcons s v0)) = Some vt.
  by rewrite olook_rcons_new.
rewrite (bind_ok _ (mesh_abs_run H0)) (bind_ok _ (mesh_abs_run Ht)) /ret.
do 3!eexists; split; first by [].
rewrite !norm_inf_exact mulr0 exp_0 Rmult_1_r.
rewrite -[X in (_ < X)%Re]Rmult_1_r; apply: Rmult_lt_compat_l; last exact: exp_decay.
rewrite Hx Hdx; case: (nvars P) n0 => [//|n] _ /=.
by apply: norm_inf_pos; apply: sin_gt_0; case: (first_node_in_unit_interval n).
Qed.

Lemma heat1d_u_exact_decays_witness :
  let s := [:: OHeat1d heat1d_example] in
  mesh_outcome (Heat1d.u_exact 0 1 s)
  = Ok (Some [seq sin (PI * ((i.+1)%:R * (1 / 3%:R))) * exp (- PI ^+ 2 * 1 * 1)
             | i <- iota 0 2])
  /\ exists n0 nt s',
        (u0 <- Heat1d.u_exact 0 0 ;;
         ut <- Heat1d.u_exact 0 1 ;;
         n0 <- mesh_abs u0 ;;
         nt <- mesh_abs ut ;;
         ret (n0, nt)) s = (Ok (n0, nt), s')
        /\ (nt < n0)%Re.
Proof.
have [H1 H2] :=
  @heat1d_u_exact_decays [:: OHeat1d heat1d_example] 0%N heat1d_example 1
    erefl heat1d_example_invariant.
by split; [exact: H1 | apply: H2; exact: Rlt_0_1].
Defined.

(** ** [force_term] *)

Lemma heat1d_force_term_scalar s self P t :
  olook s self = Some (OHeat1d P) ->
  Heat1d.force_term self (TScalar t) s
  = (Ok [seq - sin (PI * x) * (sin t - nu P * PI ^+ 2 * cos t)
        | x <- xvalues P], s).
Proof.
by move=> Hself; rewrite /Heat1d.force_term (bind_ok _ (heat1d_self_run Hself)).
Qed.

Lemma heat1d_force_term_stacked_run s self P ts :
  olook s self = Some (OHeat1d P) ->
  Heat1d.force_term_stacked self ts s
  = (Ok (flatten [seq [seq - sin (PI * x) * (sin t - nu P * PI ^+ 2 * cos t)
                      | x <- xvalues P] | t <- ts]), s).
Proof.
move=> Hself; elim: ts => [//|t ts IH] /=.
by rewrite (bind_ok _ (heat1d_force_term_scalar t Hself)) (bind_ok _ IH).
Qed.

(** C10: on an instance built by the constructor, [heat1d.force_term]
    returns the forcing [-sin(pi x_i) (sin t - nu pi^2 cos t)] at the [nvars]
    grid points for a float [t], and the zero vector of length
    [nvars * n] for an array of length [n]; as soon as the forcing does not
    vanish at one entry of the array, this is not the stacking of the
    values at its entries. *)
Theorem heat1d_force_term_inconsistent s self P ts tau :
  olook s self = Some (OHeat1d P) -> heat1d_invariant P ->
  tau \in ts -> sin tau <> nu P * PI ^+ 2 * cos tau ->
  [/\ forall t,
        Heat1d.force_term self (TScalar t) s
        = (Ok [seq - sin (PI * ((i.+1)%:R * (1 / (nvars P).+1%:R)))
                   * (sin t - nu P * PI ^+ 2 * cos t)
              | i <- iota 0 (nvars P)], s),
      Heat1d.force_term self (TArray ts) s
      = (Ok (nseq (nvars P * size ts) 0), s)
    & exists2 stacked,
        Heat1d.force_term_stacked self ts s = (Ok stacked, s)
        & stacked <> nseq (nvars P * size ts) 0].
Proof.
move=> Hself [n0 Hdx _ Hx] Htau Hne; split.
- by move=> t; rewrite (heat1d_force_term_scalar _ Hself) Hx Hdx -map_comp.
- rewrite /Heat1d.force_term (bind_ok _ (heat1d_self_run Hself)).
  by rewrite Hx size_map size_iota.
rewrite (heat1d_force_term_stacked_run _ Hself); eexists; first by [].
set y := - sin (PI * (1%:R * dx P)) * (sin tau - nu P * PI ^+ 2 * cos tau).
have y0 : y != 0.
  rewrite mulf_eq0 oppr_eq0 subr_eq0 negb_or; apply/andP; split; last exact/eqP.
  apply/eqP => E; move: n0; rewrite Hdx in E *.
  case: (nvars P) E => [//|n] E _.
  have: (0 < sin (PI * (1%:R * (1 / n.+2%:R))))%Re.
    by apply: sin_gt_0; case: (first_node_in_unit_interval n).
  by rewrite E; exact: Rlt_irrefl.
have yin : y \in flatten
    [seq [seq - sin (PI * x) * (sin t - nu P * PI ^+ 2 * cos t)
         | x <- xvalues P] | t <- ts].
  apply/flatten_mapP; exists tau => //; rewrite Hx.
  by case: (nvars P) n0 => [//|n] _; rewrite /= inE eqxx.
move=> E; move: yin; rewrite E => /nseqP [/eqP y0' _].
by rewrite y0' in y0.
Qed.

Lemma heat1d_force_term_inconsistent_witness :
  let s := [:: OHeat1d heat1d_example] in
  let ts := [:: 0; 1] in
  [/\ forall t,
        Heat1d.force_term 0 (TScalar t) s
        = (Ok [seq - sin (PI * ((i.+1)%:R * (1 / 3%:R)))
                   * (sin t - 1 * PI ^+ 2 * cos t)
              | i <- iota 0 2], s),
      Heat1d.force_term 0 (TArray ts) s = (Ok (nseq (2 * 2) 0), s)
    & exists2 stacked,
        Heat1d.force_term_stacked 0 ts s = (Ok stacked, s)
        & stacked <> nseq (2 * 2) 0].
Proof.
apply: (@heat1d_force_term_inconsistent
          [:: OHeat1d heat1d_example] 0%N heat1d_example [:: 0; 1] 0
          erefl heat1d_example_invariant).
- by rewrite inE eqxx.
- rewrite sin_0 cos_0 mulr1 mul1r expr2 RmulE => E.
  have PI0 := PI_RGT_0.
  have h : (0 < PI * PI)%Re by nra.
  by rewrite -E in h; exact: (Rlt_irrefl _ h).
Defined.

(** ** Construction from an incomplete parameter dictionary *)

(** C7, as stated, fails: built from the dictionary [{'nu': 1.0}], without
    'nvars', [heat1d.__init__] raises [AssertionError], which is not
    [ConfigurationError]. *)
Lemma heat1d_init_missing_nvars_raises_assertion_error :
  (Heat1d.__init__ [:: ("nu"%string, PyFloat 1)]
     mesh_class rhs_imex_mesh_class [::]).1 = Raise AssertionError
  /\ (Heat1d.__init__ [:: ("nu"%string, PyFloat 1)]
        mesh_class rhs_imex_mesh_class [::]).1 <> Raise ConfigurationError.
Proof. by []. Qed.

(** C7, amended: a parameter dictionary that lacks 'nvars' or 'nu' makes the
    constructors of [heat1d] and of [heat1d_periodic] raise [AssertionError]
    at once, and the store is as before: no instance is produced. *)
Theorem heat_init_missing_parameter to_sparse cparams du df s :
  ~~ (dict_mem "nvars" cparams && dict_mem "nu" cparams) ->
  Heat1d.__init__ cparams du df s = (Raise AssertionError, s)
  /\ Heat1dPeriodic.__init__ to_sparse cparams du df s
     = (Raise AssertionError, s).
Proof.
rewrite /Heat1d.__init__ /Heat1dPeriodic.__init__.
by case: (dict_mem "nvars" cparams); case: (dict_mem "nu" cparams).
Qed.

Lemma heat_init_missing_parameter_witness :
  Heat1d.__init__ [:: ("nvars"%string, PyInt 4%:Z)]
    mesh_class rhs_imex_mesh_class [::] = (Raise AssertionError, [::])
  /\ Heat1dPeriodic.__init__ (fun n A _ => Ok A) [:: ("nvars"%string, PyInt 4%:Z)]
       mesh_class rhs_imex_mesh_class [::] = (Raise AssertionError, [::]).
Proof.
exact: (@heat_init_missing_parameter (fun n A _ => Ok A)
          [:: ("nvars"%string, PyInt 4%:Z)] mesh_class rhs_imex_mesh_class [::]
          isT).
Defined.

(** ** Integrals of polynomials *)

Lemma natr_neq0 (n : nat) : n.+1%:R != 0 :> R.
Proof. by rewrite RnatE; apply/eqP; exact: not_0_INR. Qed.

Lemma coef_prim (p : {poly R}) (i : nat) :
  (prim p)`_i = if i == 0%N then 0 else p`_i.-1 / i%:R.
Proof.
rewrite coef_poly; case: ltnP => // le; case: i le => [//|i] /= le.
by rewrite nth_default ?mul0r.
Qed.

(** [prim p] is an antiderivative of [p]. *)
Lemma deriv_prim (p : {poly R}) : (prim p)^`() = p.
Proof.
apply/polyP => i; rewrite coef_deriv coef_prim /= -mulr_natr.
by rewrite -mulrA mulVf ?mulr1 // natr_neq0.
Qed.

Lemma primD (p q : {poly R}) : prim (p + q) = prim p + prim q.
Proof.
apply/polyP => i; rewrite coefD !coef_prim; case: eqP => _; first by rewrite addr0.
by rewrite coefD mulrDl.
Qed.

Lemma primZ (c : R) (p : {poly R}) : prim (c *: p) = c *: prim p.
Proof.
apply/polyP => i; rewrite coefZ !coef_prim; case: eqP => _; first by rewrite mulr0.
by rewrite coefZ mulrA.
Qed.

Lemma prim0 : prim 0 = 0.
Proof. by apply/polyP => i; rewrite coef_prim !coef0 mul0r if_same. Qed.

Lemma integD p q a b : integ (p + q) a b = integ p a b + integ q a b.
Proof. by rewrite /integ primD !hornerD opprD addrACA. Qed.

Lemma integZ c p a b : integ (c *: p) a b = c * integ p a b.
Proof. by rewrite /integ primZ !hornerZ mulrBr. Qed.

Lemma integ0 a b : integ 0 a b = 0.
Proof. by rewrite /integ prim0 !horner0 subrr. Qed.

Lemma integ_sum (I : Type) (r : seq I) (F : I -> {poly R}) a b :
  integ (\sum_(i <- r) F i) a b = \sum_(i <- r) integ (F i) a b.
Proof.
elim: r => [|i r IH]; first by rewrite !big_nil integ0.
by rewrite !big_cons integD IH.
Qed.

(** The integral of a monomial: [(b^(k+1) - a^(k+1)) / (k+1)]. *)
Lemma integ_Xn (k : nat) (a b : R) :
  integ 'X^k a b = (b ^+ k.+1 - a ^+ k.+1) / k.+1%:R.
Proof.
have E : prim 'X^k = (k.+1%:R)^-1 *: 'X^(k.+1) :> {poly R}.
  apply/polyP => i; rewrite coef_prim coefZ !coefXn; case: i => [|i] /=.
    by rewrite mulr0.
  by rewrite eqSS; case: eqP => [->|_]; rewrite ?mul1r ?mulr1 ?mul0r ?mulr0.
by rewrite /integ E !hornerZ !hornerXn -mulrBr mulrC.
Qed.

(** ** Lagrange interpolation *)

Section Lagrange.

Variable xs : seq R.
Hypothesis xs_uniq : uniq xs.

Let n := size xs.

Lemma size_prod_linear (r : seq nat) (P : pred nat) (F : nat -> {poly R}) :
  (forall k, (size (F k) <= 2)%N) ->
  (size (\prod_(k <- r | P k) F k)%R <= (count P r).+1)%N.
Proof.
move=> szF; elim: r => [|k r IH]; first by rewrite big_nil size_poly1.
rewrite big_cons /=; case: (P k); last by rewrite add0n.
apply: leq_trans (size_polyMleq _ _) _.
by rewrite -subn1 leq_subLR add1n -[_.+3]/(2 + (count P r).+1)%N leq_add.
Qed.

Lemma size_lagrange j : (j < n)%N -> (size (lagrange xs j) <= n)%N.
Proof.
move=> lt; rewrite /lagrange.
apply: leq_trans (size_prod_linear _ _ _) _.
  by move=> k; apply: leq_trans (size_scale_leq _ _) _; rewrite size_XsubC.
have := count_predC (pred1 j) (iota 0 n).
rewrite size_iota count_uniq_mem ?iota_uniq // mem_iota /= add0n lt /=.
move=> E; rewrite -[X in (_ < X)%N]E add1n ltnS.
by apply: eq_leq; apply: eq_count => k.
Qed.

Lemma lagrange_at j k :
  (j < n)%N -> (k < n)%N -> (lagrange xs j).[nth 0 xs k] = (j == k)%:R.
Proof.
move=> ltj ltk; rewrite /lagrange horner_prod.
have [<-|ne] := eqVneq j k.
  rewrite big1_seq // => i /andP [ne]; rewrite mem_iota add0n => /andP [_ lti].
  by rewrite hornerZ hornerXsubC mulVf // subr_eq0 nth_uniq // eq_sym.
rewrite big_mkcond (bigD1_seq k) ?iota_uniq ?mem_iota //= eq_sym ne.
by rewrite hornerZ hornerXsubC subrr mulr0 mul0r.
Qed.

(** A polynomial of degree below the number of nodes is the combination of
    the Lagrange polynomials with its values at the nodes. *)
Lemma lagrange_interpolation (p : {poly R}) :
  (size p <= n)%N ->
  p = \sum_(j < n) p.[nth 0 xs j] *: lagrange xs j.
Proof.
move=> szp; apply/eqP; rewrite -subr_eq0; apply/eqP.
apply: (@roots_geq_poly_eq0 _ _ xs) => //; last first.
  apply: leq_trans (size_polyD _ _) _; rewrite geq_max szp size_polyN /=.
  apply: leq_trans (size_sum _ _ _) _; apply/bigmax_leqP => j _.
  by apply: leq_trans (size_scale_leq _ _) _; exact: size_lagrange.
apply/allP => x /(nthP 0) [k ltk <-].
rewrite rootE hornerD hornerN horner_sum subr_eq0; apply/eqP.
rewrite (bigD1 (Ordinal ltk)) //= hornerZ lagrange_at // eqxx mulr1.
rewrite big1 ?addr0 // => j ne; rewrite hornerZ lagrange_at //.
by rewrite -[j == k :> nat]/(j == Ordinal ltk) (negbTE ne) mulr0.
Qed.

(** The matrix [Q] integrates polynomials of degree below the number of
    nodes exactly, from [a] to each node. *)
Lemma gen_Qmatrix_exact (a : R) (p : {poly R}) (m : 'I_n) :
  (size p <= n)%N ->
  \sum_(j < n) Collocation.gen_Qmatrix n a xs m j * p.[nth 0 xs j]
  = integ p a (nth 0 xs m).
Proof.
move=> szp; rewrite [in RHS](lagrange_interpolation szp) integ_sum.
by apply: eq_bigr => j _; rewrite mxE integZ mulrC.
Qed.

(** So do the weights, over the whole interval. *)
Lemma gen_weights_exact (a b : R) (p : {poly R}) :
  (size p <= n)%N ->
  \sum_(j < n) nth 0 (Collocation.gen_weights n a b xs) j * p.[nth 0 xs j]
  = integ p a b.
Proof.
move=> szp; rewrite [in RHS](lagrange_interpolation szp) integ_sum.
apply: eq_bigr => j _; rewrite /Collocation.gen_weights.
by rewrite (nth_map 0%N) ?size_iota // nth_iota // add0n integZ mulrC.
Qed.

(** It is the only matrix that does: exactness on the Lagrange polynomials
    fixes every entry. *)
Lemma gen_Qmatrix_unique (a : R) (Q : 'M[R]_n) :
  (forall (p : {poly R}) (m : 'I_n), (size p <= n)%N ->
     \sum_(j < n) Q m j * p.[nth 0 xs j] = integ p a (nth 0 xs m)) ->
  Q = Collocation.gen_Qmatrix n a xs.
Proof.
move=> exact; apply/matrixP => m k; rewrite mxE.
rewrite -(exact _ m (size_lagrange (ltn_ord k))) (bigD1 k) //=.
rewrite lagrange_at // eqxx mulr1 big1 ?addr0 // => j ne.
by rewrite lagrange_at // -[k == j :> nat]/(k == j) eq_sym (negbTE ne) mulr0.
Qed.

End Lagrange.

(** ** The collocation generator *)

Lemma RlebP (x y : R) : reflect (x <= y)%Re (Rleb x y).
Proof. by rewrite /Rleb; case: (Rle_dec x y) => h; constructor. Qed.

Lemma natr_inj : injective (fun i : nat => i%:R : R).
Proof. by move=> i j; rewrite !RnatE; exact: INR_eq. Qed.

Lemma size_equid_lobatto M a b : size (Collocation.equid_lobatto M a b) = M.
Proof. by rewrite /Collocation.equid_lobatto size_map size_iota. Qed.

Lemma uniq_equid_lobatto M a b :
  (a < b)%Re -> uniq (Collocation.equid_lobatto M a b).
Proof.
move=> ab; case: M => [//|[//|M]].
rewrite /Collocation.equid_lobatto map_inj_uniq ?iota_uniq //.
have h0 : (b - a) / M.+1%:R != 0.
  rewrite mulf_neq0 ?invr_eq0 ?natr_neq0 // subr_eq0.
  by apply/eqP => E; rewrite E in ab; exact: (Rlt_irrefl _ ab).
by move=> i j /addrI /(mulIf h0) /natr_inj.
Qed.

Section Generator.

Variable other_nodes : string -> string -> nat -> R -> R -> option (seq R).

(** What is asked of the generators of the other node types: as many
    nodes as requested, no two of them equal. *)
Hypothesis other_nodes_ok :
  forall nt qt M a b xs,
    (a < b)%Re -> other_nodes nt qt M a b = Some xs -> size xs = M /\ uniq xs.

Lemma gen_nodes_ok nt qt M a b xs :
  (a < b)%Re -> Collocation.gen_nodes other_nodes nt qt M a b = Some xs ->
  size xs = M /\ uniq xs.
Proof.
move=> ab; rewrite /Collocation.gen_nodes; case: ifP => _; last exact: other_nodes_ok.
by case=> <-; rewrite size_equid_lobatto; split=> //; exact: uniq_equid_lobatto.
Qed.

Lemma Rleb_lt a b : (a < b)%Re -> Rleb b a = false.
Proof. by move=> ab; case: RlebP => // /(Rlt_not_le _ _ ab). Qed.

(** C3: for every node count [M >= 1], every interval [a < b] and every
    supported node type, the constructor returns a collocation object whose
    matrix [Q] reproduces, for every polynomial of degree at most [M - 1],
    its integrals from the left edge to each node; and [Equidistant] is the
    class [Collocation] called with the node type 'EQUID' and the quadrature
    type 'LOBATTO'. *)
Theorem collocation_Q_exact M a b nt qt spl s xs :
  (0 < M)%N -> (a < b)%Re ->
  Collocation.gen_nodes other_nodes nt qt M a b = Some xs ->
  (exists C,
    [/\ Collocation.__init__ other_nodes M a b nt qt spl s
        = (Ok (size s), rcons s (OCollocation C)),
        nodes C = xs, size xs = M
      & forall (p : {poly R}) (m : 'I_(num_nodes C)),
          (size p <= M)%N ->
          \sum_(j < num_nodes C) Qmat C m j * p.[nth 0 (nodes C) j]
          = integ p a (nth 0 (nodes C) m)])
  /\ Equidistant.__init__ other_nodes M a b
     = Collocation.__init__ other_nodes M a b "EQUID" "LOBATTO" false.
Proof.
case: M => [//|M] _ ab Hgen; split; last by [].
have [sz un] := gen_nodes_ok ab Hgen.
rewrite /Collocation.__init__ Rleb_lt // Hgen /alloc.
eexists; split; [by [] | by [] | by [] |] => p m szp /=.
by move: m szp; rewrite -sz => m szp; exact: gen_Qmatrix_exact.
Qed.

(** C4: a node count below 1, an interval with [a >= b] or an unsupported
    combination of node type and quadrature type makes the constructor
    raise [ConfigurationError], and the store is as before: no object is
    constructed.  So does [Equidistant] on a node count below 1 or an
    interval with [a >= b]. *)
Theorem collocation_init_rejects (M : int) a b nt qt spl s :
  [\/ (M < 1)%R, (a >= b)%Re
    | Collocation.gen_nodes other_nodes nt qt `|M|%N a b = None] ->
  Collocation.__init__ other_nodes M a b nt qt spl s
  = (Raise ConfigurationError, s)
  /\ ((M < 1)%R \/ (a >= b)%Re ->
      Equidistant.__init__ other_nodes M a b s = (Raise ConfigurationError, s)).
Proof.
have Hbad (nt' qt' : string) (spl' : bool) :
    (M < 1)%R \/ (a >= b)%Re ->
    Collocation.__init__ other_nodes M a b nt' qt' spl' s
    = (Raise ConfigurationError, s).
  rewrite /Collocation.__init__; case: M => [[|M]|M] //; case=> // ab.
  by case: RlebP => // nle; case: nle; exact: Rge_le.
move=> H; split; last exact: Hbad.
case: H => [H|H|H]; [by apply: Hbad; left | by apply: Hbad; right |].
move: H {Hbad}; rewrite /Collocation.__init__; case: M => [[|M]|M] //=.
by case: Rleb => // ->.
Qed.

End Generator.

Lemma radau_right_2_ok nt qt M a b xs :
  (a < b)%Re -> radau_right_2 nt qt M a b = Some xs -> size xs = M /\ uniq xs.
Proof.
move=> ab; rewrite /radau_right_2; case: ifP => // /and3P [_ _ /eqP ->] [<-].
split=> //=; rewrite inE andbT; apply/eqP.
by rewrite RnatE RaddE RmulE RinvE RsubE /=; lra.
Qed.

Lemma collocation_Q_exact_witness :
  (exists C,
    [/\ Collocation.__init__ radau_right_2 3 0 1 "EQUID" "LOBATTO" false [::]
        = (Ok 0%N, [:: OCollocation C]),
        nodes C = Collocation.equid_lobatto 3 0 1,
        size (Collocation.equid_lobatto 3 0 1) = 3%N
      & forall (p : {poly R}) (m : 'I_(num_nodes C)),
          (size p <= 3)%N ->
          \sum_(j < num_nodes C) Qmat C m j * p.[nth 0 (nodes C) j]
          = integ p 0 (nth 0 (nodes C) m)])
  /\ Equidistant.__init__ radau_right_2 3 0 1
     = Collocation.__init__ radau_right_2 3 0 1 "EQUID" "LOBATTO" false.
Proof.
exact: (@collocation_Q_exact radau_right_2 radau_right_2_ok 3 0 1
          "EQUID" "LOBATTO" false [::] (Collocation.equid_lobatto 3 0 1)
          isT Rlt_0_1 erefl).
Defined.

Lemma collocation_init_rejects_witness :
  Collocation.__init__ radau_right_2 0 0 1 "EQUID" "LOBATTO" false [::]
  = (Raise ConfigurationError, [::])
  /\ Equidistant.__init__ radau_right_2 0 0 1 [::]
     = (Raise ConfigurationError, [::]).
Proof.
have [H1 H2] :=
  @collocation_init_rejects radau_right_2 0 0 1 "EQUID" "LOBATTO" false [::]
    (Or31 _ _ isT).
by split; [exact: H1 | apply: H2; left].
Defined.

(** Two equidistant nodes on [[0, 1]] give the trapezoidal rule. *)
Example equidistant_2_is_trapezoid (m j : 'I_2) :
  Collocation.gen_Qmatrix 2 0 (Collocation.equid_lobatto 2 0 1) m j
  = if (m : nat) == 0%N then 0 else 1 / 2%:R.
Proof.
have -> : Collocation.equid_lobatto 2 0 1 = [:: 0; 1].
  by rewrite /Collocation.equid_lobatto /= subr0 divr1 mul0r mul1r !addr0 add0r.
have un : uniq [:: 0; 1 : R] by rewrite /= inE andbT eq_sym oner_neq0.
set Q := Collocation.gen_Qmatrix _ _ _.
have H0 := @gen_Qmatrix_exact _ un 0 'X^0 m (_ : (size ('X^0 : {poly R}) <= 2)%N).
have H1 := @gen_Qmatrix_exact _ un 0 'X^1 m (_ : (size ('X^1 : {poly R}) <= 2)%N).
move: H0 H1; rewrite !size_polyXn !integ_Xn => /(_ isT) H0 /(_ isT) H1.
move: H0 H1; rewrite !big_ord_recl !big_ord0 /= !hornerXn !addr0 -/Q.
rewrite !expr0 !expr1 !mulr1 expr0n /= mulr0 add0r divr1 !subr0 => H0 H1.
have Em1 : Q m (fintype.lift ord0 ord0) = nth 0 [:: 0; 1] m ^+ 2 / 2%:R by rewrite -H1.
have Em0 : Q m ord0 = nth 0 [:: 0; 1] m - nth 0 [:: 0; 1] m ^+ 2 / 2%:R.
  by rewrite -Em1 -H0 addrK.
have Ej : j = ord0 \/ j = fintype.lift ord0 ord0.
  by case: j => [[|[|//]] Hj]; [left | right]; apply: val_inj.
have half : 1 - 1 / 2%:R = 1 / 2%:R :> R.
  by rewrite RsubE !RdivE RnatE !R1E /=; lra.
case: m {H0 H1} Em0 Em1 => [[|[|//]] Hm] /=; rewrite ?expr0n ?expr1n /= ?mul0r ?subr0;
  by move=> Em0 Em1; case: Ej => ->; rewrite ?Em0 ?Em1.
Qed.


(** ** Counting inner solves *)

Lemma within0 lo hi capped : within lo hi capped 0 0.
Proof. by rewrite /within !muln0 /= implybT. Qed.

Lemma withinD lo hi capped a b m n :
  within lo hi capped a m -> within lo hi capped b n ->
  within lo hi capped (a + b) (m + n).
Proof.
rewrite /within !mulnDr => /andP [la ha] /andP [lb hb].
rewrite leq_add //=; case: capped ha hb => //= ha hb.
by rewrite leq_add.
Qed.

(** ** The controller *)

Section ControllerRun.

Variable V : Type.
Variable predictor : V -> R -> R -> option V.
Variable step_pass :
  Controller.mode -> V -> V -> R -> R -> option (V * R * nat).
Variable C : Controller.controller.

Local Notation step := (Controller.step V).
Local Notation inv := (step_inv predictor step_pass C).

Lemma all_steps_all (p : step -> bool) (steps : seq step) :
  all_steps p steps <-> all p steps.
Proof.
elim: steps => [//|sp steps IH] /=; split.
  by case=> -> /IH.
by case/andP=> -> /IH.
Qed.

Lemma all_steps_impl (P Q : step -> Prop) (steps : seq step) :
  (forall sp, P sp -> Q sp) -> all_steps P steps -> all_steps Q steps.
Proof.
by move=> PQ; elim: steps => [//|sp steps IH] /= [/PQ ? /IH].
Qed.

Lemma all_steps_map (P : step -> Prop) (f : step -> step) (steps : seq step) :
  all_steps P [seq f sp | sp <- steps] <-> all_steps (fun sp => P (f sp)) steps.
Proof.
by elim: steps => [//|sp steps IH] /=; split=> -[? /IH].
Qed.

(** The predictor pass leaves every Step iterating, with no pass behind it,
    on its own time-slice. *)
Lemma predict_all_inv (pending predicted : seq step) :
  Controller.predict_all predictor C pending = Some predicted ->
  [/\ all_steps (inv 0) predicted,
      [seq Controller.t_slice sp | sp <- predicted]
      = [seq Controller.t_slice sp | sp <- pending]
    & sumn [seq Controller.niter sp | sp <- predicted] = 0%N].
Proof.
elim: pending predicted => [|sp pending IH] predicted /=.
  by case=> <-.
rewrite /Controller.predict_step.
case Ep: (predictor _ _ _) => [ue|] //.
case Ea: (Controller.predict_all _ _ _) => [sps|] // [<-] /=.
have [I T S] := IH _ Ea; split=> //; last by rewrite T.
by split=> //; split=> //=; exists (Controller.u_start sp).
Qed.

Section OneIteration.

Variables (lo hi : nat) (capped : bool).
Hypothesis solves_bound :
  forall m u ue t d v r n,
    step_pass m u ue t d = Some (v, r, n) -> within lo hi capped 1 n.

Variable k : nat.
Hypothesis k_lt : (k < Controller.maxiter C)%N.

(** One pass and the bookkeeping after it, on one Step; the communication
    step may have replaced the start value by [u]. *)
Lemma pass_step_inv i (sp : step) r u :
  inv k sp -> Controller.pass_step step_pass C i sp = Some r ->
  let sp2 :=
    Controller.bookkeeping C
      (Controller.Step_obj u (Controller.u_end r.1.1)
         (Controller.t_slice r.1.1) (Controller.st r.1.1)
         (Controller.niter r.1.1) (Controller.res r.1.1)) in
  [/\ inv k.+1 sp2,
      Controller.t_slice sp2 = Controller.t_slice sp,
      Controller.niter sp2 = (Controller.niter sp + size r.1.2)%N,
      within lo hi capped (size r.1.2) r.2
    & ~~ Controller.terminal (Controller.st sp) ->
      Controller.niter sp2 = k.+1].
Proof.
case=> prod le; rewrite /Controller.pass_step.
case Et: (Controller.terminal _) => H; last case: H => Est En.
  case=> <- /=; rewrite /Controller.bookkeeping /= Et.
  by rewrite addn0 within0; split=> //; split; rewrite /= ?Et // leqW.
case Ep: (step_pass _ _ _ _ _) => [[[ue r0] n]|] // [<-] /=.
rewrite /Controller.bookkeeping /= En addn1 (solves_bound Ep).
have prod2 st2 : produced predictor step_pass C
    (Controller.Step_obj u ue (Controller.t_slice sp) st2 k.+1 r0).
  by exists (Controller.u_start sp), (Controller.u_end sp), n.
case: ifP => conv.
  by split=> //; split=> //=; rewrite /final_step /= conv k_lt.
case: ifP => cap; split=> //; split=> //=.
by rewrite /final_step /= eqn_leq k_lt cap.
Qed.

(** The communication step touches the start value only. *)
Lemma communicate_cons prev (sp : step) (steps : seq step) :
  exists u,
    Controller.communicate prev (sp :: steps)
    = Controller.Step_obj u (Controller.u_end sp) (Controller.t_slice sp)
        (Controller.st sp) (Controller.niter sp) (Controller.res sp)
      :: Controller.communicate (Some sp) steps.
Proof.
case: prev => [sp0|] /=; last first.
  by exists (Controller.u_start sp); case: sp.
case: ifP => _; first by eexists.
by exists (Controller.u_start sp); case: sp.
Qed.

(** The passes of one global iteration, the communication and the
    bookkeeping. *)
Lemma iteration_inv i prev (steps : seq step) passed :
  Controller.pass_all step_pass C i steps = Some passed ->
  all_steps (inv k) steps ->
  let steps2 :=
    [seq Controller.bookkeeping C sp
    | sp <- Controller.communicate prev [seq r.1.1 | r <- passed]] in
  let log := flatten [seq r.1.2 | r <- passed] in
  [/\ all_steps (step_inv predictor step_pass C k.+1) steps2,
      [seq Controller.t_slice sp | sp <- steps2]
      = [seq Controller.t_slice sp | sp <- steps],
      sumn [seq Controller.niter sp | sp <- steps2]
      = (sumn [seq Controller.niter sp | sp <- steps] + size log)%N,
      within lo hi capped (size log) (sumn [seq r.2 | r <- passed])
    & has (fun sp => ~~ Controller.terminal (Controller.st sp)) steps ->
      has (fun sp => Controller.niter sp == k.+1) steps2].
Proof.
elim: steps i prev passed => [|sp steps IH] i prev passed /=.
  by case=> <- _ /=; rewrite within0.
case Ep: (Controller.pass_step _ _ _ _) => [r|] //.
case Ea: (Controller.pass_all _ _ _ _) => [rs|] // [<-] [Isp Isteps].
have [I2 T2 N2 S2 M2] := IH _ (Some r.1.1) _ Ea Isteps.
rewrite map_cons.
have [u ->] := communicate_cons prev r.1.1 [seq r0.1.1 | r0 <- rs].
rewrite /=.
have [I1 T1 N1 S1 M1] := pass_step_inv u Isp Ep.
split=> //.
- by rewrite T1 T2.
- by rewrite N1 N2 size_cat addnACA.
- by rewrite size_cat withinD.
- case/orP=> [/M1 -> | /M2 ->]; rewrite ?eqxx ?orbT //.
Qed.

End OneIteration.

Section Loop.

Variables (lo hi : nat) (capped : bool).
Hypothesis solves_bound :
  forall m u ue t d v r n,
    step_pass m u ue t d = Some (v, r, n) -> within lo hi capped 1 n.

(** Forcing the Steps that still iterate at the ceiling. *)
Lemma force_maxiter_inv (sp : step) :
  inv (Controller.maxiter C) sp ->
  let sp' := Controller.force_maxiter sp in
  [/\ final_step C sp', produced predictor step_pass C sp',
      Controller.t_slice sp' = Controller.t_slice sp
    & Controller.niter sp' = Controller.niter sp].
Proof.
case=> prod le; rewrite /Controller.force_maxiter.
case Et: (Controller.terminal _) => H //; case: H => Est En.
by split=> //=; rewrite /final_step /= En.
Qed.

Lemma terminal_inv k (sp : step) :
  inv k sp -> Controller.terminal (Controller.st sp) ->
  [/\ final_step C sp, produced predictor step_pass C sp
    & (Controller.niter sp <= k)%N].
Proof. by case=> prod le H Et; rewrite Et in H. Qed.

Lemma all_terminal_inv k (steps : seq step) :
  all_steps (inv k) steps ->
  all (fun sp => Controller.terminal (Controller.st sp)) steps ->
  [/\ all (final_step C) steps,
      all_steps (produced predictor step_pass C) steps
    & all (fun sp => Controller.niter sp <= k)%N steps].
Proof.
elim: steps => [//|sp steps IH] /= [Isp Isteps] /andP [Et Eall].
have [-> P1 ->] := terminal_inv Isp Et.
by have [-> P2 ->] := IH Isteps Eall.
Qed.

Lemma all_force_inv (steps : seq step) :
  all_steps (inv (Controller.maxiter C)) steps ->
  let steps' := [seq Controller.force_maxiter sp | sp <- steps] in
  [/\ all (final_step C) steps',
      all_steps (produced predictor step_pass C) steps',
      [seq Controller.t_slice sp | sp <- steps']
      = [seq Controller.t_slice sp | sp <- steps]
    & [seq Controller.niter sp | sp <- steps']
      = [seq Controller.niter sp | sp <- steps]].
Proof.
elim: steps => [//|sp steps IH] /= [Isp Isteps].
have [-> P1 -> ->] := force_maxiter_inv Isp.
by have [-> P2 -> ->] := IH Isteps.
Qed.

Lemma all_niter_le k (steps : seq step) :
  all_steps (inv k) steps ->
  all (fun sp => Controller.niter sp <= k)%N steps.
Proof. by elim: steps => [//|sp steps IH] /= [[_ -> _] /IH]. Qed.

Lemma all_niter k (steps : seq step) :
  all (fun sp => Controller.niter sp <= k)%N steps
  = all (fun n => n <= k)%N [seq Controller.niter sp | sp <- steps].
Proof. by rewrite all_map. Qed.

Lemma has_niter k (steps : seq step) :
  has (fun sp => Controller.niter sp == k) steps
  = has (pred1 k) [seq Controller.niter sp | sp <- steps].
Proof. by rewrite has_map. Qed.

(** The loop. *)
Lemma iterate_inv ceiling k (steps : seq step) log solves
    steps' log' k' solves' :
  (ceiling + k)%N = Controller.maxiter C ->
  all_steps (inv k) steps ->
  has (fun sp => Controller.niter sp == k) steps || (k == 0%N) ->
  size log = sumn [seq Controller.niter sp | sp <- steps] ->
  within lo hi capped (size log) solves ->
  Controller.iterate step_pass C ceiling k steps log solves
  = Some (steps', log', k', solves') ->
  [/\ all (final_step C) steps' /\ (k' <= Controller.maxiter C)%N,
      all_steps (produced predictor step_pass C) steps',
      [seq Controller.t_slice sp | sp <- steps']
      = [seq Controller.t_slice sp | sp <- steps],
      size log' = sumn [seq Controller.niter sp | sp <- steps']
    & [/\ within lo hi capped (size log') solves',
          all (fun sp => Controller.niter sp <= k')%N steps'
        & has (fun sp => Controller.niter sp == k') steps' || (k' == 0%N)]].
Proof.
elim: ceiling k steps log solves => [|c IH] k steps log solves /=.
  rewrite add0n => Ek I M L S.
  case: ifP => [Et|_] [<- <- <- <-].
    have [F P N] := all_terminal_inv I Et.
    by split=> //; rewrite Ek.
  rewrite Ek in I; have [F P T N] := all_force_inv I.
  split=> //; rewrite ?N -?Ek //; split=> //.
  - by rewrite all_niter N -all_niter Ek; exact: all_niter_le.
  - by move: M; rewrite !has_niter N.
move=> Ek I M L S.
case: ifP => [Et|/negbT nEt].
  case=> <- <- <- <-; have [F P N] := all_terminal_inv I Et.
  by split=> //; rewrite -Ek leq_addl.
have k_lt : (k < Controller.maxiter C)%N by rewrite -Ek addSn ltnS leq_addl.
case Ep: (Controller.pass_all _ _ _ _) => [passed|] //.
have [I2 T2 N2 S2 M2] := iteration_inv solves_bound k_lt None Ep I.
move/(IH k.+1); rewrite addnS -addSn Ek => /(_ erefl I2).
have Hn : has (fun sp => ~~ Controller.terminal (Controller.st sp)) steps.
  by rewrite (@has_predC _ (fun sp => Controller.terminal (Controller.st sp))).
rewrite (M2 Hn) /= size_cat N2 -L => /(_ isT erefl).
rewrite withinD // => /(_ isT) [F P T Lg Sg].
by split=> //; rewrite T T2.
Qed.

End Loop.

(** ** A run that no solve fails in *)

Section Total.

Hypothesis predictor_total : forall u t d, predictor u t d <> None.
Hypothesis step_pass_total : forall m u ue t d, step_pass m u ue t d <> None.

Lemma predict_all_total (pending : seq step) :
  Controller.predict_all predictor C pending <> None.
Proof.
elim: pending => [//|sp pending IH] /=; rewrite /Controller.predict_step.
case Ep: (predictor _ _ _) => [ue|]; last by case: (predictor_total Ep).
by case: (Controller.predict_all _ _ _) IH.
Qed.

Lemma pass_all_total i (steps : seq step) :
  Controller.pass_all step_pass C i steps <> None.
Proof.
elim: steps i => [//|sp steps IH] i /=; rewrite /Controller.pass_step.
case: ifP => _; first by case: (Controller.pass_all _ _ _ _) (IH i.+1).
case Ep: (step_pass _ _ _ _ _) => [[[ue r] n]|].
  by case: (Controller.pass_all _ _ _ _) (IH i.+1).
by case: (step_pass_total Ep).
Qed.

Lemma iterate_total ceiling k (steps : seq step) log solves :
  Controller.iterate step_pass C ceiling k steps log solves <> None.
Proof.
elim: ceiling k steps log solves => [|c IH] k steps log solves /=.
  by case: ifP.
case: ifP => // _.
by case Ep: (Controller.pass_all _ _ _ _) (@pass_all_total 0 steps).
Qed.

End Total.

Lemma foldr_maxn_spec (l : seq nat) (k : nat) :
  all (fun n => n <= k)%N l -> has (pred1 k) l || (k == 0%N) ->
  foldr maxn 0%N l = k.
Proof.
elim: l => [|n l IH] /=; first by move=> _ /eqP.
case/andP=> le all_le; rewrite -orbA orbC.
have le' : (foldr maxn 0 l <= k)%N.
  by elim: (l) all_le => [//|m l' IH'] /= /andP [? /IH' ?]; rewrite geq_max; apply/andP.
case/orP=> [/(IH all_le) ->|/eqP E]; first exact/maxn_idPr.
by rewrite E; apply/maxn_idPl.
Qed.

End ControllerRun.

(** ** The contract of [run] *)

Section RunContract.

Variable V : Type.
Variable predictor : V -> R -> R -> option V.
Variable step_pass :
  Controller.mode -> V -> V -> R -> R -> option (V * R * nat).

(** What a run on an evenly divisible interval comes to. *)
Lemma run_spec (C : Controller.controller) u0 t_start t_end :
  Controller.evenly_divisible C t_start t_end ->
  Controller.run predictor step_pass C u0 t_start t_end
  = (Raise SolveFailure, C)
  \/ exists steps log k solves,
       [/\ Controller.run predictor step_pass C u0 t_start t_end
           = (Ok (last u0 [seq Controller.u_end sp | sp <- steps], log),
              Controller.Controller_obj (Controller.num_procs C)
                (Controller.dt C) (Controller.restol C)
                (Controller.maxiter C) (Controller.cmode C)
                (if Controller.cmode C is Controller.NewtonCoupled
                 then Some (k, solves) else None)),
           [seq Controller.t_slice sp | sp <- steps]
           = [seq t_start + i%:R * Controller.dt C
             | i <- iota 0 (Controller.num_procs C)],
           all (final_step C) steps
           /\ all_steps (produced predictor step_pass C) steps,
           size log = sumn [seq Controller.niter sp | sp <- steps]
         & [/\ k = foldr maxn 0%N [seq Controller.niter sp | sp <- steps],
               (k <= Controller.maxiter C)%N
             & forall lo hi capped,
                 (forall m u ue t d v r n,
                    step_pass m u ue t d = Some (v, r, n) ->
                    within lo hi capped 1 n) ->
                 within lo hi capped (size log) solves]].
Proof.
move=> ok; rewrite /Controller.run ok /=.
set pending := map _ (iota _ _).
case Ep: (Controller.predict_all _ _ _) => [predicted|]; last by left.
case Ei: (Controller.iterate _ _ _ _ _ _ _) => [[[[steps log] k] solves]|];
  last by left.
right; exists steps, log, k, solves.
have [I0 T0 N0] := predict_all_inv step_pass Ep.
have M0 : has (fun sp : Controller.step V => Controller.niter sp == 0%N)
            predicted || (0%N == 0%N) by rewrite orbT.
have L0 : size (Nil Controller.stat_entry)
          = sumn [seq Controller.niter sp | sp <- predicted] by rewrite N0.
have facts lo hi capped
    (b : forall m u ue t d v r n,
           step_pass m u ue t d = Some (v, r, n) -> within lo hi capped 1 n) :=
  iterate_inv b (addn0 _) I0 M0 L0 (within0 lo hi capped) Ei.
have [[F kle] P T L [_ N M]] := facts 0%N 0%N false (fun _ _ _ _ _ _ _ _ _ => isT).
split=> //.
- by rewrite T T0 /pending -map_comp.
- split=> //; first by rewrite (foldr_maxn_spec (k := k)) // -?all_niter -?has_niter.
  by move=> lo hi capped b; have [_ _ _ _ []] := facts lo hi capped b.
Qed.

End RunContract.

Section Contract.

Variable V : Type.
Variable predictor : V -> R -> R -> option V.
Variable step_pass :
  Controller.mode -> V -> V -> R -> R -> option (V * R * nat).
Variable float_div : R -> R -> R.
Variable initial_value : Controller.controller -> R -> result V.
Variable timing_run : seq Controller.stat_entry -> result R.

Lemma run_total (C : Controller.controller) u0 t_start t_end :
  (forall u t d, predictor u t d <> None) ->
  (forall m u ue t d, step_pass m u ue t d <> None) ->
  (Controller.run predictor step_pass C u0 t_start t_end).1
  <> Raise SolveFailure.
Proof.
move=> pt st; rewrite /Controller.run; case: ifP => // _.
case Ep: (Controller.predict_all _ _ _) => [predicted|];
  last by case: (predict_all_total pt Ep).
case Ei: (Controller.iterate _ _ _ _ _ _ _) => [[[[steps log] k] solves]|] //.
by case: (iterate_total st Ei).
Qed.

Lemma foldr_maxn_ones (l : seq nat) :
  all (pred1 1%N) l -> foldr maxn 0%N l = if l is [::] then 0%N else 1%N.
Proof.
elim: l => [//|n l IH] /= /andP [/eqP -> /IH ->].
by case: l {IH}.
Qed.

(** Under a cap of one iteration, every Step of a run has one pass behind
    it. *)
Lemma final_step_cap1 (C : Controller.controller)
    (steps : seq (Controller.step V)) :
  Controller.maxiter C = 1%N -> all (final_step C) steps ->
  foldr maxn 0%N [seq Controller.niter sp | sp <- steps]
  = if steps is [::] then 0%N else 1%N.
Proof.
move=> cap F.
have ones : all (pred1 1%N) [seq Controller.niter sp | sp <- steps].
  rewrite all_map; apply: sub_all F => sp; rewrite /final_step cap /=.
  case: (Controller.st sp) => //.
  by case/and3P=> _ lt le; rewrite eqn_leq le lt.
by rewrite (foldr_maxn_ones ones); case: steps {F ones}.
Qed.

(** C8: [run(initial_value, t_start, t_end)] raises [ConfigurationError], and
    leaves the controller as it was, when its time-slices do not cover the
    interval exactly.  When they do, it returns a pair of a final value and
    a stats log unless a [SolveFailure] aborts it, which only a failing
    solve of the predictor or of a pass brings about.  The final value is
    the end value of the last Step; there is one Step per time-slice, each
    ends converged within the tolerance or stopped at the iteration cap,
    with its end value the work of a pass on its own slice, and the log
    holds one record per pass.  In the Newton-coupled mode the controller
    then exposes its outer iteration count, the largest number of passes of
    a Step, and its inner solve counter, which lies within the bounds the
    passes keep; in the plain mode it has neither attribute.  The driver
    [run_newton_pfasst_matrixfree] passes on whatever [run] raises, and
    from the pair and the two counters it reports one outer iteration. *)
Theorem controller_run_contract (C : Controller.controller) u0 t_start t_end :
  let r := Controller.run predictor step_pass C u0 t_start t_end in
  [/\ ~~ Controller.evenly_divisible C t_start t_end ->
      r = (Raise ConfigurationError, C),
      Controller.evenly_divisible C t_start t_end ->
      r.1 = Raise SolveFailure
      \/ exists steps log,
           [/\ r.1 = Ok (last u0 [seq Controller.u_end sp | sp <- steps], log),
               [seq Controller.t_slice sp | sp <- steps]
               = [seq t_start + i%:R * Controller.dt C
                 | i <- iota 0 (Controller.num_procs C)],
               all (final_step C) steps
               /\ all_steps (produced predictor step_pass C) steps,
               size log = sumn [seq Controller.niter sp | sp <- steps]
             & if Controller.cmode C is Controller.NewtonCoupled then
                 exists nin,
                   [/\ Controller.nouteriter r.2
                       = Ok (foldr maxn 0%N
                               [seq Controller.niter sp | sp <- steps]),
                       Controller.ninnersolve r.2 = Ok nin
                     & forall lo hi,
                         (forall m u ue t d v res n,
                            step_pass m u ue t d = Some (v, res, n) ->
                            (lo <= n <= hi)%N) ->
                         (lo * size log <= nin <= hi * size log)%N]
               else Controller.nouteriter r.2 = Raise AttributeError
                    /\ Controller.ninnersolve r.2 = Raise AttributeError],
      (forall u t d, predictor u t d <> None) ->
      (forall m u ue t d, step_pass m u ue t d <> None) ->
      r.1 <> Raise SolveFailure
    & forall Tend uinit,
        let C0 := matrixfree_controller float_div Tend in
        let r0 := Controller.run predictor step_pass C0 uinit 0 Tend in
        initial_value C0 0 = Ok uinit ->
        (forall e, r0.1 = Raise e ->
           Playground.run_newton_pfasst_matrixfree predictor step_pass
             float_div initial_value timing_run Tend = Raise e)
        /\ (forall uend stats timing,
              r0.1 = Ok (uend, stats) -> timing_run stats = Ok timing ->
              exists2 nin,
                Controller.ninnersolve r0.2 = Ok nin
                & Playground.run_newton_pfasst_matrixfree predictor step_pass
                    float_div initial_value timing_run Tend
                  = if Controller.num_procs C0 is 0%N
                    then Raise ZeroDivisionError
                    else Ok (1%N, nin, nin%:R / 1%:R,
                             nin%:R
                             / IZR (Playground.py_int
                                      (float_div (Tend - 0)
                                         (Playground.level_dt
                                            Playground.setup))),
                             timing))].
Proof.
move=> r; split.
- by rewrite /r /Controller.run => /negbTE ->.
- move=> /(run_spec predictor step_pass u0) [E|]; first by left; rewrite /r E.
  case=> steps [log [k [solves [E T FP L [Ek kle B]]]]]; right.
  exists steps, log; rewrite /r E; split=> //=.
  case: (Controller.cmode C) => //; exists solves; split=> //.
    by rewrite /Controller.nouteriter /= Ek.
  move=> lo hi b.
  have := B lo hi true; rewrite /within /= !muln1; apply.
  by move=> m u ue t d v res n /b.
- exact: run_total.
move=> Tend uinit C0 r0 Hinit.
rewrite /Playground.run_newton_pfasst_matrixfree.
rewrite -/(matrixfree_controller float_div Tend) -/C0 Hinit -/r0.
split=> [e|uend stats timing].
  by case: r0 => [[p|e'] C'] /= => [//|[->]].
have [ok|/negbTE bad] := boolP (Controller.evenly_divisible C0 0 Tend);
  last by rewrite /r0 /Controller.run bad.
have [E|] := run_spec predictor step_pass uinit ok; first by rewrite /r0 E.
case=> steps [log [k [solves [E T [F _] L [Ek _ _]]]]].
have Ek1 := final_step_cap1 (erefl : Controller.maxiter C0 = 1%N) F.
have Esz : size steps = Controller.num_procs C0.
  by rewrite -(size_map (@Controller.t_slice V)) T size_map size_iota.
rewrite /r0 E /= => -[_ <-] -> /=; exists solves => //.
move: Ek1 Esz; rewrite -Ek /C0 /matrixfree_controller /=.
set z := Playground.py_int _.
case: steps {E T F L Ek} => [|sp steps] /= -> Esz; rewrite -Esz.
  by case: Z.eqb.
by case: Z.eqb_spec => // Ez; move: Esz; rewrite Ez.
Qed.

End Contract.

Lemma Rleb_refl (x : R) : Rleb x x.
Proof. by case: RlebP => // nle; case: nle; exact: Rle_refl. Qed.

(** Two time-slices of length 1 from 0 to 2 in the Newton-coupled mode,
    with passes that converge at once and take two inner solves each: one
    global iteration, two records, four inner solves; and with passes that
    fail, a [SolveFailure]. *)
Example controller_run_example :
  let C := Controller.new 2 1 0 5 Controller.NewtonCoupled in
  Controller.run (fun u _ _ => Some u)
    (fun _ _ ue _ _ => Some (ue.+1, 0, 2%N)) C 7%N 0 2%:R
  = (Ok (8%N, [:: Controller.Stat 0 (0 + 0%:R * 1) 0 1 "residual" 0;
                  Controller.Stat 1 (0 + 1%:R * 1) 0 1 "residual" 0]),
     Controller.Controller_obj 2 1 0 5 Controller.NewtonCoupled
       (Some (1%N, 4%N)))
  /\ Controller.run (fun u _ _ => Some u) (fun _ _ _ _ _ => None) C 7%N 0 2%:R
     = (Raise SolveFailure, C).
Proof.
move=> C; rewrite /Controller.run /Controller.evenly_divisible /=.
by rewrite subr0 mulr1 eqxx /= /Controller.bookkeeping /= !Rleb_refl.
Qed.


(** * Further properties of the problem classes *)

(** ** The system matrix of [heat1d] *)

Lemma nth_arr_of_scale n (c : R) (M : 'M[R]_n) (v : seq R) (i : 'I_n) :
  nth 0 (arr_of ((c *: M) *m vec_of n v)) i
  = c * nth 0 (arr_of (M *m vec_of n v)) i.
Proof. by rewrite !nth_arr_of -scalemxAl mxE. Qed.

Lemma heat1d_impl_stencil (P : heat1d) (uv : seq R) (i : nat) :
  heat1d_invariant P -> size uv = nvars P -> (i < nvars P)%N ->
  nth 0 (arr_of (A P *m vec_of (nvars P) uv)) i
  = nu P / dx P ^+ 2
    * ((if i is k.+1 then nth 0 uv k else 0) - 2%:R * nth 0 uv i
       + nth 0 uv i.+1).
Proof.
move=> [_ _ -> _] sz lt; rewrite get_A_laplacian.
by rewrite (nth_arr_of_scale _ _ _ (Ordinal lt)) fd_laplacian_stencil.
Qed.

Lemma heat1d_eval_f_run_value s self u t P uv :
  olook s self = Some (OHeat1d P) ->
  olook s u = Some (OMesh uv) -> size uv = nvars P ->
  rhs_outcome (Heat1d.eval_f self u t s)
  = Ok (Some (arr_of (A P *m vec_of (nvars P) uv), np_zeros (nvars P))).
Proof.
move=> Hself Hu Hsz.
rewrite heat1d_eval_f_outcome ?(olook_some Hu) // Hself Hu /eval_f_value.
by rewrite Hsz eqxx.
Qed.

(** X1: on an instance built by the constructor, the i-th value of the
    implicit part of [heat1d.eval_f(u, t)] is the three-point stencil
    [nu/dx^2 (u[i-1] - 2 u[i] + u[i+1])], where the values beyond both ends
    of [u] count as zero. *)
Theorem heat1d_eval_f_stencil s self u t P uv :
  olook s self = Some (OHeat1d P) -> heat1d_invariant P ->
  olook s u = Some (OMesh uv) -> size uv = nvars P ->
  exists vi ve,
    [/\ rhs_outcome (Heat1d.eval_f self u t s) = Ok (Some (vi, ve)),
        size vi = nvars P
      & forall i, (i < nvars P)%N ->
          nth 0 vi i
          = nu P / dx P ^+ 2
            * ((if i is k.+1 then nth 0 uv k else 0) - 2%:R * nth 0 uv i
               + nth 0 uv i.+1)].
Proof.
move=> Hself inv Hu Hsz; rewrite (heat1d_eval_f_run_value t Hself Hu Hsz).
do 2!eexists; split; [by [] | by rewrite size_arr_of |] => i lt.
exact: heat1d_impl_stencil.
Qed.

Lemma heat1d_eval_f_stencil_witness :
  exists vi ve,
    [/\ rhs_outcome (Heat1d.eval_f 0 1 0
                       [:: OHeat1d heat1d_example; OMesh [:: 1; 2%:R]])
        = Ok (Some (vi, ve)),
        size vi = 2%N
      & forall i, (i < 2)%N ->
          nth 0 vi i
          = 1 / (1 / 3%:R) ^+ 2
            * ((if i is k.+1 then nth 0 [:: 1; 2%:R] k else 0)
               - 2%:R * nth 0 [:: 1; 2%:R] i + nth 0 [:: 1; 2%:R] i.+1)].
Proof.
exact: (@heat1d_eval_f_stencil
          [:: OHeat1d heat1d_example; OMesh [:: 1; 2%:R]] 0%N 1%N 0
          heat1d_example [:: 1; 2%:R] erefl heat1d_example_invariant
          erefl erefl).
Defined.

Lemma fd_laplacian_sym n : (fd_laplacian n)^T = fd_laplacian n.
Proof.
apply/matrixP => i j; rewrite !mxE (eq_sym (j : nat)).
by case: eqP => // _; rewrite orbC.
Qed.

(** X2: the matrix that [heat1d.__get_A] assembles is symmetric and
    tridiagonal: an entry more than one place off the diagonal is zero. *)
Theorem heat1d_get_A_symmetric_tridiagonal N nu dx :
  (Heat1d.__get_A N nu dx)^T = Heat1d.__get_A N nu dx
  /\ forall i j : 'I_N,
       ((i : nat).+1 < j)%N || ((j : nat).+1 < i)%N ->
       Heat1d.__get_A N nu dx i j = 0.
Proof.
rewrite get_A_laplacian; split; first by rewrite linearZ /= fd_laplacian_sym.
move=> i j far; rewrite !mxE.
have -> : ((i : nat) == j) = false.
  by apply/eqP => E; move: far; rewrite E !ltnNge !leqnSn.
have -> : ((i : nat).+1 == j) = false.
  by apply/eqP => E; move: far; rewrite -E ltnn /= ltnNge -addn2 leq_addr.
have -> : ((j : nat).+1 == i) = false.
  by apply/eqP => E; move: far; rewrite -E ltnn orbF ltnNge -addn2 leq_addr.
by rewrite mulr0.
Qed.

(** ** The maximum principle behind the implicit solve *)

Lemma norm_inf_ub v i : (Rabs (nth 0 v i) <= norm_inf v)%Re.
Proof.
elim: v i => [|x v IH] [|i] /=; rewrite ?Rabs_R0; try exact: Rle_refl.
- exact: Rmax_l.
- exact: Rle_trans (IH i) (Rmax_r _ _).
Qed.

Lemma norm_inf_attained v :
  v <> [::] -> exists2 i, (i < size v)%N & norm_inf v = Rabs (nth 0 v i).
Proof.
elim: v => // x [|y v] IH _.
  by exists 0%N; rewrite //= Rmax_left //; exact: Rabs_pos.
have [//|i lt E] := IH.
rewrite [norm_inf _]/= -/(norm_inf (y :: v)).
rewrite /Rmax; case: Rle_dec => _; first by exists i.+1.
by exists 0%N.
Qed.

Lemma norm_inf_zeros n : norm_inf (np_zeros n) = 0.
Proof.
by elim: n => //= n ->; rewrite Rabs_R0 Rmax_left //; exact: Rle_refl.
Qed.

Lemma Rsum_le (I : finType) (F G : I -> R) :
  (forall j, (F j <= G j)%Re) -> (\sum_j F j <= \sum_j G j)%Re.
Proof.
move=> le; elim/big_ind2: _ => //; first exact: Rle_refl.
by move=> x1 x2 y1 y2 h1 h2; rewrite !RaddE; lra.
Qed.

Lemma max_principle_pos (a b c x : R) :
  (0 <= c)%Re -> (b <= 0)%Re -> (0 <= x)%Re -> (a <= b * x)%Re ->
  (x <= Rabs (x - c * a))%Re.
Proof.
move=> c0 b0 x0 le.
have h1 : (b * x <= 0)%Re by nra.
have h2 : (c * a <= 0)%Re by nra.
by apply: Rle_trans (Rle_abs _); rewrite RsubE RmulE; lra.
Qed.

Lemma max_principle_neg (a b c x : R) :
  (0 <= c)%Re -> (b <= 0)%Re -> (x < 0)%Re -> (b * x <= a)%Re ->
  (- x <= Rabs (x - c * a))%Re.
Proof.
move=> c0 b0 x0 le.
have h1 : (0 <= b * x)%Re by nra.
have h2 : (0 <= c * a)%Re by nra.
by rewrite -Rabs_Ropp; apply: Rle_trans (Rle_abs _); rewrite RsubE RmulE; lra.
Qed.

Section MaxPrinciple.

Variables (n : nat) (L : 'M[R]_n) (c : R).
Hypothesis c_ge0 : (0 <= c)%Re.
Hypothesis offdiag_ge0 : forall i j : 'I_n, i != j -> (0 <= L i j)%Re.
Hypothesis rowsum_le0 : forall i : 'I_n, (\sum_j L i j <= 0)%Re.

Lemma implicit_step_bound (x : 'cV[R]_n) :
  (norm_inf (arr_of x) <= norm_inf (arr_of ((1%:M - c *: L) *m x)))%Re.
Proof.
case E: (arr_of x) => [|x0 xs]; first exact: norm_inf_ge0.
have [|i0 lt0 Enorm] := @norm_inf_attained (arr_of x); first by rewrite E.
rewrite -E {x0 xs E}; rewrite size_arr_of in lt0.
pose i := Ordinal lt0.
have Em : norm_inf (arr_of x) = Rabs (x i ord0).
  by rewrite Enorm -[i0]/(i : nat) nth_arr_of.
have ub j : (Rabs (x j ord0) <= Rabs (x i ord0))%Re.
  by rewrite -Em -(nth_arr_of x j); exact: norm_inf_ub.
rewrite Em; apply: Rle_trans (norm_inf_ub _ i); rewrite nth_arr_of.
rewrite mulmxBl mul1mx -scalemxAl !mxE.
have [pos|neg] := Rle_lt_dec 0 (x i ord0).
- have S : (\sum_j L i j * x j ord0 <= \sum_j L i j * x i ord0)%Re.
    apply: Rsum_le => j; rewrite !RmulE.
    have [->|ne] := eqVneq j i; first exact: Rle_refl.
    rewrite eq_sym in ne; have L0 := offdiag_ge0 ne.
    have := ub j; rewrite (Rabs_pos_eq _ pos) => le.
    have := Rle_abs (x j ord0) => le'.
    by apply: Rmult_le_compat_l => //; lra.
  move: S; rewrite -mulr_suml => S.
  rewrite (Rabs_pos_eq _ pos).
  exact: max_principle_pos c_ge0 (rowsum_le0 i) pos S.
- have S : (\sum_j L i j * x i ord0 <= \sum_j L i j * x j ord0)%Re.
    apply: Rsum_le => j; rewrite !RmulE.
    have [->|ne] := eqVneq j i; first exact: Rle_refl.
    rewrite eq_sym in ne; have L0 := offdiag_ge0 ne.
    have := ub j; rewrite (Rabs_left _ neg) => le.
    have := Rle_abs (- x j ord0)%Re; rewrite Rabs_Ropp => le'.
    by apply: Rmult_le_compat_l => //; lra.
  move: S; rewrite -mulr_suml => S.
  rewrite (Rabs_left _ neg).
  exact: max_principle_neg c_ge0 (rowsum_le0 i) neg S.
Qed.

Lemma norm_inf_eq0 (x : 'cV[R]_n) : (norm_inf (arr_of x) <= 0)%Re -> x = 0.
Proof.
move=> le; apply/matrixP => i j; rewrite ord1 mxE.
have := norm_inf_ub (arr_of x) i; rewrite nth_arr_of => h.
have := Rabs_pos (x i ord0) => h0.
have : Rabs (x i ord0) = 0%Re by lra.
by case: (Req_dec (x i ord0) 0) => // /Rabs_no_R0.
Qed.

Lemma implicit_step_regular : 1%:M - c *: L \in unitmx.
Proof.
rewrite unitmxE unitfE -det_tr; apply/negP => /det0P [v v0 vM].
case/eqP: v0; apply: trmx_inj; rewrite trmx0; apply: norm_inf_eq0.
apply: Rle_trans (implicit_step_bound _) _.
have -> : (1%:M - c *: L) *m v^T = 0.
  by apply: trmx_inj; rewrite trmx_mul trmxK vM trmx0.
by rewrite arr_of_zero norm_inf_zeros; exact: Rle_refl.
Qed.

End MaxPrinciple.

Lemma fd_laplacian_offdiag n (i j : 'I_n) :
  i != j -> (0 <= fd_laplacian n i j)%Re.
Proof.
rewrite -val_eqE /= => ne; rewrite !mxE (negbTE ne).
by case: ifP => _; rewrite ?R1E ?R0E; lra.
Qed.

Lemma fd_laplacian_rowsum n (i : 'I_n) : (\sum_j fd_laplacian n i j <= 0)%Re.
Proof.
have := @fd_laplacian_stencil n (nseq n 1) i (size_nseq _ _).
rewrite nth_arr_of mxE.
have -> : \sum_j fd_laplacian n i j * vec_of n (nseq n 1) j ord0
          = \sum_j fd_laplacian n i j.
  by apply: eq_bigr => j _; rewrite [vec_of _ _ _ _]mxE nth_nseq ltn_ord mulr1.
move=> ->; case: i => [[|k] lt] /=; rewrite !nth_nseq ?lt ?(ltnW lt) mulr1.
  by rewrite RaddE RsubE RnatE [INR 2]/=; case: ifP => _; rewrite ?R1E ?R0E; lra.
by rewrite RaddE RsubE RnatE [INR 2]/=; case: ifP => _; rewrite ?R1E ?R0E; lra.
Qed.

Lemma heat1d_dx2_gt0 (P : heat1d) :
  heat1d_invariant P -> (0 < dx P ^+ 2)%Re.
Proof.
case=> _ -> _ _; rewrite expr2 RmulE RdivE R1E RnatE.
have h : (0 < INR (nvars P).+1)%Re by apply: lt_0_INR; apply/ltP.
have h' := Rinv_0_lt_compat _ h.
by rewrite /Rdiv Rmult_1_l; nra.
Qed.

Lemma heat1d_step_matrix (P : heat1d) (factor : R) :
  heat1d_invariant P ->
  sp_eye (nvars P) - factor *: A P
  = 1%:M - (factor * (nu P / dx P ^+ 2)) *: fd_laplacian (nvars P).
Proof. by case=> _ _ -> _; rewrite get_A_laplacian scalerA. Qed.

Lemma heat1d_step_coef (P : heat1d) (factor : R) :
  heat1d_invariant P -> (0 <= factor)%Re -> (0 <= nu P)%Re ->
  (0 <= factor * (nu P / dx P ^+ 2))%Re.
Proof.
move=> /heat1d_dx2_gt0 d0 f0 n0.
have h := Rinv_0_lt_compat _ d0.
have h2 : (0 <= nu P * / dx P ^+ 2)%Re by nra.
by rewrite /Rdiv; nra.
Qed.

Lemma heat1d_step_unit (P : heat1d) (factor : R) :
  heat1d_invariant P -> (0 <= factor)%Re -> (0 <= nu P)%Re ->
  sp_eye (nvars P) - factor *: A P \in unitmx.
Proof.
move=> inv f0 n0; rewrite heat1d_step_matrix //.
apply: implicit_step_regular (heat1d_step_coef inv f0 n0) _ _.
- exact: fd_laplacian_offdiag.
- exact: fd_laplacian_rowsum.
Qed.

(** X3: on an instance built by the constructor, with a diffusion coefficient
    and a factor that are not negative, [heat1d.solve_system(rhs, factor, u0)]
    does not fail on a right-hand side of length [nvars]: the matrix
    [I - factor A] is regular, the returned mesh [u] solves
    [(I - factor A) u = rhs], and its infinity norm is at most that of the
    right-hand side (the implicit Euler step is unconditionally stable). *)
Theorem heat1d_solve_system_stable s self rhs factor u0 P rv :
  olook s self = Some (OHeat1d P) -> heat1d_invariant P ->
  olook s rhs = Some (OMesh rv) -> size rv = nvars P ->
  (0 <= factor)%Re -> (0 <= nu P)%Re ->
  exists v,
    [/\ mesh_outcome (Heat1d.solve_system self rhs factor u0 s) = Ok (Some v),
        size v = nvars P,
        (sp_eye (nvars P) - factor *: Heat1d.system_matrix P)
          *m vec_of (nvars P) v = vec_of (nvars P) rv
      & (norm_inf v <= norm_inf rv)%Re].
Proof.
move=> Hself inv Hrhs Hsz f0 n0.
have reg := heat1d_step_unit inv f0 n0.
rewrite heat1d_solve_system_outcome ?(olook_some Hrhs) // Hself Hrhs.
rewrite /solve_system_value reg Hsz eqxx /Heat1d.system_matrix.
eexists; split; [by [] | by rewrite size_arr_of | by rewrite vec_of_arr_of mulKVmx |].
set u := invmx _ *m _.
have -> : rv = arr_of ((sp_eye (nvars P) - factor *: A P) *m u).
  by rewrite /u mulKVmx // arr_of_vec_of.
rewrite heat1d_step_matrix //.
apply: implicit_step_bound (heat1d_step_coef inv f0 n0) _ _ _.
- exact: fd_laplacian_offdiag.
- exact: fd_laplacian_rowsum.
Qed.

Lemma heat1d_solve_system_stable_witness :
  exists v,
    [/\ mesh_outcome (Heat1d.solve_system 0 1 (1 / 2%:R) 1
                        [:: OHeat1d heat1d_example; OMesh [:: 1; 2%:R]])
        = Ok (Some v),
        size v = 2%N,
        (sp_eye 2 - (1 / 2%:R) *: Heat1d.system_matrix heat1d_example)
          *m vec_of 2 v = vec_of 2 [:: 1; 2%:R]
      & (norm_inf v <= norm_inf [:: 1; 2%:R])%Re].
Proof.
have f0 : (0 <= (1 / 2%:R)%R)%Re.
  by rewrite RdivE R1E RnatE [INR 2]/=; lra.
have n0 : (0 <= nu heat1d_example)%Re by rewrite /= R1E; lra.
exact: (@heat1d_solve_system_stable
          [:: OHeat1d heat1d_example; OMesh [:: 1; 2%:R]] 0%N 1%N (1 / 2%:R)
          1%N heat1d_example [:: 1; 2%:R] erefl heat1d_example_invariant
          erefl erefl f0 n0).
Defined.

(** ** How [solve_system] and [eval_f] compose *)

Lemma solve_body_run s (P : heat1d) rhs factor rv :
  olook s rhs = Some (OMesh rv) -> size rv = nvars P ->
  sp_eye (nvars P) - factor *: A P \in unitmx ->
  (me <- mesh (nvars P) ;;
   Minv <- lift (LA_inv (sp_eye (nvars P) - factor *: A P)) ;;
   rv <- get_values rhs ;;
   v <- lift (sp_dot Minv rv) ;;
   set_values me v ;;
   ret me) s
  = (Ok (size s),
     rcons s (OMesh (arr_of (invmx (sp_eye (nvars P) - factor *: A P)
                             *m vec_of (nvars P) rv)))).
Proof.
move=> Hrhs Hsz reg; have lt := olook_some Hrhs.
rewrite /mesh {1}/bind {1}/alloc /LA_inv reg /lift {1}/bind.
rewrite /get_values {1}/bind olook_rcons_old // Hrhs.
by rewrite /sp_dot {1}/bind Hsz eqxx /bind set_values_new.
Qed.

Lemma heat1d_solve_system_run s self rhs factor u0 P rv :
  olook s self = Some (OHeat1d P) ->
  olook s rhs = Some (OMesh rv) -> size rv = nvars P ->
  sp_eye (nvars P) - factor *: A P \in unitmx ->
  Heat1d.solve_system self rhs factor u0 s
  = (Ok (size s),
     rcons s (OMesh (arr_of (invmx (sp_eye (nvars P) - factor *: A P)
                             *m vec_of (nvars P) rv)))).
Proof.
move=> Hself Hrhs Hsz reg.
rewrite /Heat1d.solve_system (bind_ok _ (heat1d_self_run Hself)).
exact: solve_body_run.
Qed.

(** X4: the implicit Euler step.  On an instance built by the constructor,
    with a diffusion coefficient and a factor that are not negative, the
    mesh [u = solve_system(rhs, factor, u0)] followed by [f = eval_f(u, t)]
    satisfies [u - factor * f.impl = rhs] value by value, and [f.expl] is
    zero: [solve_system] inverts the map [u -> u - factor * f(u)]. *)
Theorem heat1d_implicit_euler_step s self rhs factor u0 t P rv :
  olook s self = Some (OHeat1d P) -> heat1d_invariant P ->
  olook s rhs = Some (OMesh rv) -> size rv = nvars P ->
  (0 <= factor)%Re -> (0 <= nu P)%Re ->
  exists u s1 uv vi,
    [/\ Heat1d.solve_system self rhs factor u0 s = (Ok u, s1),
        olook s1 u = Some (OMesh uv),
        rhs_outcome (Heat1d.eval_f self u t s1)
        = Ok (Some (vi, np_zeros (nvars P)))
      & forall i, (i < nvars P)%N ->
          nth 0 uv i - factor * nth 0 vi i = nth 0 rv i].
Proof.
move=> Hself inv Hrhs Hsz f0 n0.
have reg := heat1d_step_unit inv f0 n0.
rewrite (heat1d_solve_system_run u0 Hself Hrhs Hsz reg).
set w := invmx _ *m _.
exists (size s), (rcons s (OMesh (arr_of w))), (arr_of w),
       (arr_of (A P *m vec_of (nvars P) (arr_of w))).
split=> //; first exact: olook_rcons_new.
  rewrite heat1d_eval_f_outcome ?size_rcons // olook_rcons_new.
  rewrite olook_rcons_old ?(olook_some Hself) // Hself /eval_f_value.
  by rewrite size_arr_of eqxx.
move=> i lt; rewrite vec_of_arr_of.
have <- : vec_of (nvars P) rv (Ordinal lt) ord0 = nth 0 rv i by rewrite mxE.
rewrite -[i]/(Ordinal lt : nat) !nth_arr_of.
have Ew : (sp_eye (nvars P) - factor *: A P) *m w = vec_of (nvars P) rv.
  by rewrite /w mulKVmx.
clearbody w; rewrite -Ew mulmxBl mul1mx -scalemxAl.
by rewrite [RHS]mxE [in RHS]mxE [in RHS]mxE.
Qed.

Lemma heat1d_implicit_euler_step_witness :
  exists u s1 uv vi,
    [/\ Heat1d.solve_system 0 1 (1 / 2%:R) 1
          [:: OHeat1d heat1d_example; OMesh [:: 1; 2%:R]] = (Ok u, s1),
        olook s1 u = Some (OMesh uv),
        rhs_outcome (Heat1d.eval_f 0 u 0 s1) = Ok (Some (vi, np_zeros 2))
      & forall i, (i < 2)%N ->
          nth 0 uv i - (1 / 2%:R) * nth 0 vi i = nth 0 [:: 1; 2%:R] i].
Proof.
have f0 : (0 <= (1 / 2%:R)%R)%Re.
  by rewrite RdivE R1E RnatE [INR 2]/=; lra.
have n0 : (0 <= nu heat1d_example)%Re by rewrite /= R1E; lra.
exact: (@heat1d_implicit_euler_step
          [:: OHeat1d heat1d_example; OMesh [:: 1; 2%:R]] 0%N 1%N (1 / 2%:R)
          1%N 0 heat1d_example [:: 1; 2%:R] erefl heat1d_example_invariant
          erefl erefl f0 n0).
Defined.

(** X5: with the factor 0, [solve_system] of [heat1d] and of
    [heat1d_periodic] returns a mesh with the values of the right-hand side,
    whatever the matrix of the instance. *)
Theorem solve_system_factor0 s selfh selfp fmt rhs u0 P Q rv :
  olook s selfh = Some (OHeat1d P) ->
  olook s selfp = Some (OHeat1dPeriodic fmt Q) ->
  olook s rhs = Some (OMesh rv) -> size rv = nvars P -> size rv = nvars Q ->
  mesh_outcome (Heat1d.solve_system selfh rhs 0 u0 s) = Ok (Some rv)
  /\ mesh_outcome (Heat1dPeriodic.solve_system selfp rhs 0 u0 s)
     = Ok (Some rv).
Proof.
move=> Hh Hp Hrhs HP HQ; have lt := olook_some Hrhs.
have E (P' : heat1d) : size rv = nvars P' ->
    solve_system_value (Some P') 0 (Some (OMesh rv)) = Ok (Some rv).
  move=> Hsz; rewrite /solve_system_value scale0r subr0 /sp_eye unitmx1.
  by rewrite Hsz eqxx invmx1 mul1mx arr_of_vec_of.
rewrite heat1d_solve_system_outcome // periodic_solve_system_outcome //.
by rewrite Hh Hp Hrhs !E.
Qed.

Lemma solve_system_factor0_witness :
  mesh_outcome (Heat1d.solve_system 0 2 0 2
                  [:: OHeat1d heat1d_example;
                      OHeat1dPeriodic (PyStr "array") periodic_example;
                      OMesh [:: 1; 2%:R]])
  = Ok (Some [:: 1; 2%:R])
  /\ mesh_outcome (Heat1dPeriodic.solve_system 1 2 0 2
                     [:: OHeat1d heat1d_example;
                         OHeat1dPeriodic (PyStr "array") periodic_example;
                         OMesh [:: 1; 2%:R]])
     = Ok (Some [:: 1; 2%:R]).
Proof.
exact: (@solve_system_factor0
          [:: OHeat1d heat1d_example;
              OHeat1dPeriodic (PyStr "array") periodic_example;
              OMesh [:: 1; 2%:R]] 0%N 1%N (PyStr "array") 2%N 2%N
          heat1d_example periodic_example [:: 1; 2%:R]
          erefl erefl erefl erefl erefl).
Defined.

(** ** What the methods leave alone *)

Lemma frames_periodic_eval_fexpl k self u t :
  frames k (Heat1dPeriodic.__eval_fexpl self u t) (fun l => (k <= l)%N).
Proof. by rewrite /Heat1dPeriodic.__eval_fexpl; frames_tac. Qed.

Lemma frames_periodic_eval_fimpl k self u t :
  frames k (Heat1dPeriodic.__eval_fimpl self u t) (fun l => (k <= l)%N).
Proof. by rewrite /Heat1dPeriodic.__eval_fimpl; frames_tac. Qed.

Lemma frames_periodic_eval_f k self u t :
  frames k (Heat1dPeriodic.eval_f self u t) (fun l => (k <= l)%N).
Proof.
rewrite /Heat1dPeriodic.eval_f.
apply: frames_bind; first exact: frames_periodic_self.
move=> P _; apply: frames_bind; first exact: frames_rhs_imex_mesh.
move=> f kf; apply: frames_bind; first exact: frames_periodic_eval_fimpl.
move=> i ki; apply: frames_bind; first exact: frames_set_impl.
move=> _ _; apply: frames_bind; first exact: frames_periodic_eval_fexpl.
move=> e ke; apply: frames_bind; first exact: frames_set_expl.
by move=> _ _; apply: frames_ret.
Qed.

Lemma frames_periodic_solve_system k self rhs factor u0 :
  frames k (Heat1dPeriodic.solve_system self rhs factor u0)
    (fun l => (k <= l)%N).
Proof. by rewrite /Heat1dPeriodic.solve_system; frames_tac. Qed.

Lemma frames_periodic_u_exact k self t :
  frames k (Heat1dPeriodic.u_exact self t) (fun l => (k <= l)%N).
Proof. by rewrite /Heat1dPeriodic.u_exact; frames_tac. Qed.

Lemma frames_sharpclaw_eval_fexpl k self u t :
  frames k (Sharpclaw.__eval_fexpl self u t) (fun l => (k <= l)%N).
Proof.
rewrite /Sharpclaw.__eval_fexpl.
apply: frames_bind; first exact: frames_sharpclaw_self.
move=> P _; apply: frames_bind; first exact: frames_mesh.
move=> m km; apply: frames_bind; first exact: frames_mesh_rmul.
by move=> e ke; apply: frames_ret.
Qed.

Lemma frames_sharpclaw_eval_fimpl k self u t :
  frames k (Sharpclaw.__eval_fimpl self u t) (fun l => (k <= l)%N).
Proof. by rewrite /Sharpclaw.__eval_fimpl; frames_tac. Qed.

Lemma frames_sharpclaw_eval_f k self u t :
  frames k (Sharpclaw.eval_f self u t) (fun l => (k <= l)%N).
Proof.
rewrite /Sharpclaw.eval_f.
apply: frames_bind; first exact: frames_sharpclaw_self.
move=> P _; apply: frames_bind; first exact: frames_rhs_imex_mesh.
move=> f kf; apply: frames_bind; first exact: frames_sharpclaw_eval_fimpl.
move=> i ki; apply: frames_bind; first exact: frames_set_impl.
move=> _ _; apply: frames_bind; first exact: frames_sharpclaw_eval_fexpl.
move=> e ke; apply: frames_bind; first exact: frames_set_expl.
by move=> _ _; apply: frames_ret.
Qed.

Lemma frames_sharpclaw_solve_system k self rhs factor u0 :
  frames k (Sharpclaw.solve_system self rhs factor u0) (fun l => (k <= l)%N).
Proof.
rewrite /Sharpclaw.solve_system.
apply: frames_bind; first exact: frames_sharpclaw_self.
move=> P _; apply: frames_bind; first exact: frames_mesh.
move=> m km; apply: frames_bind; first exact: frames_mesh_rmul.
by move=> e ke; apply: frames_ret.
Qed.

Lemma frames_sharpclaw_u_exact k self t :
  frames k (Sharpclaw.u_exact self t) (fun l => (k <= l)%N).
Proof. by rewrite /Sharpclaw.u_exact; frames_tac. Qed.

Lemma frames_fresh (m : Py loc) :
  (forall k, frames k m (fun l => (k <= l)%N)) -> writes_fresh_only m.
Proof.
by move=> fr s; have [_ eq fresh] := fr (size s) s (leqnn _); split.
Qed.

(** X6: [solve_system] and [u_exact] of [heat1d], and [solve_system],
    [eval_f] and [u_exact] of [heat1d_periodic], change no object of the
    store they are called in (neither the instance, nor the right-hand side,
    nor the initial guess), and the mesh they return is a new object. *)
Theorem heat_methods_write_fresh_only selfh selfp rhs factor u0 u t :
  [/\ writes_fresh_only (Heat1d.solve_system selfh rhs factor u0),
      writes_fresh_only (Heat1d.u_exact selfh t),
      writes_fresh_only (Heat1dPeriodic.solve_system selfp rhs factor u0),
      writes_fresh_only (Heat1dPeriodic.eval_f selfp u t)
    & writes_fresh_only (Heat1dPeriodic.u_exact selfp t)].
Proof.
split; apply: frames_fresh => k.
- exact: frames_heat1d_solve_system.
- exact: frames_heat1d_u_exact.
- exact: frames_periodic_solve_system.
- exact: frames_periodic_eval_f.
- exact: frames_periodic_u_exact.
Qed.

(** X7: [solve_system], [eval_f] and [u_exact] of [sharpclaw] change no
    object of the store they are called in, and what they return is a new
    object. *)
Theorem sharpclaw_methods_write_fresh_only self rhs factor u0 u t :
  [/\ writes_fresh_only (Sharpclaw.solve_system self rhs factor u0),
      writes_fresh_only (Sharpclaw.eval_f self u t)
    & writes_fresh_only (Sharpclaw.u_exact self t)].
Proof.
split; apply: frames_fresh => k.
- exact: frames_sharpclaw_solve_system.
- exact: frames_sharpclaw_eval_f.
- exact: frames_sharpclaw_u_exact.
Qed.

(** ** [sharpclaw.eval_f] *)

Lemma sharpclaw_eval_fimpl_run s self u t P uv :
  olook s self = Some (OSharpclaw P) -> olook s u = Some (OMesh uv) ->
  Sharpclaw.__eval_fimpl self u t s
  = (Ok (size s), rcons s (OMesh [seq 0 * x | x <- uv])).
Proof.
move=> Hself Hu; have lt := olook_some Hu.
rewrite /Sharpclaw.__eval_fimpl (bind_ok _ (sharpclaw_self_run Hself)).
rewrite /mesh {1}/bind {1}/alloc.
have Hu' : olook (rcons s (OMesh (np_zeros (sc_nvars P)))) u = Some (OMesh uv).
  by rewrite olook_rcons_old.
by rewrite (bind_ok _ (get_values_run Hu')) /bind set_values_new.
Qed.

Lemma sharpclaw_eval_fexpl_run s self u t P :
  olook s self = Some (OSharpclaw P) ->
  Sharpclaw.__eval_fexpl self u t s
  = (Ok (size s).+1,
     s ++ [:: OMesh (np_zeros (sc_nvars P));
              OMesh [seq 0 * x | x <- np_zeros (sc_nvars P)]]).
Proof.
move=> Hself.
rewrite /Sharpclaw.__eval_fexpl (bind_ok _ (sharpclaw_self_run Hself)).
rewrite /mesh {1}/bind {1}/alloc /mesh_rmul {1}/bind.
rewrite (bind_ok _ (get_values_run (olook_rcons_new _ _))) /alloc /ret.
by rewrite size_rcons -!cats1 -catA.
Qed.

Lemma scale0_zeros (v : seq R) : [seq 0 * x | x <- v] = np_zeros (size v).
Proof.
by elim: v => [//|x v IH]; rewrite /= mul0r IH.
Qed.

(** X8: [sharpclaw.eval_f(u, t)] never fails on a mesh [u]: both parts of
    the right-hand side it returns are zero, the implicit part with as many
    values as [u] has (whatever [nvars] is), the explicit part with
    [nvars] values. *)
Theorem sharpclaw_eval_f_zero s self u t P uv :
  olook s self = Some (OSharpclaw P) -> olook s u = Some (OMesh uv) ->
  rhs_outcome (Sharpclaw.eval_f self u t s)
  = Ok (Some (np_zeros (size uv), np_zeros (sc_nvars P))).
Proof.
move=> Hself Hu; have lt_self := olook_some Hself; have lt_u := olook_some Hu.
rewrite /Sharpclaw.eval_f (bind_ok _ (sharpclaw_self_run Hself)).
rewrite (bind_ok _ (rhs_imex_mesh_run _ _)).
set z := OMesh (np_zeros _).
rewrite {1}/bind (@sharpclaw_eval_fimpl_run _ self u t P uv) ?olook_cat_old //.
rewrite rcons_cat /= size_cat /=.
set I := OMesh [seq _ | _ <- uv].
have Hf1 : olook (s ++ [:: z; z; ORhsImex (size s) (size s + 1)%N; I])
             (size s + 2)%N = Some (ORhsImex (size s) (size s + 1)%N).
  by rewrite olook_cat_new.
rewrite (bind_ok _ (set_impl_run _ Hf1)) set_nth_cat_new /=.
rewrite (bind_ok _ (@sharpclaw_eval_fexpl_run _ self u t P _)) ?olook_cat_old //.
rewrite -catA /= size_cat /=.
set E := OMesh [seq _ | _ <- np_zeros _].
have Hf2 : olook (s ++ [:: z; z; ORhsImex (size s + 3)%N (size s + 1)%N;
                           I; z; E])
             (size s + 2)%N = Some (ORhsImex (size s + 3)%N (size s + 1)%N).
  by rewrite olook_cat_new.
rewrite (bind_ok _ (set_expl_run _ Hf2)) set_nth_cat_new /= /ret /rhs_outcome.
rewrite olook_cat_new /= olook_cat_new /= -addnS olook_cat_new /=.
by rewrite !scale0_zeros size_nseq.
Qed.

Lemma sharpclaw_eval_f_zero_witness :
  rhs_outcome (Sharpclaw.eval_f 0 1 0
                 [:: OSharpclaw (Sharpclaw_obj
                                   [:: ("nvars"%string, PyInt 2%:Z)]
                                   2 (1 / 3%:R));
                     OMesh [:: 1; 2%:R; 3%:R]])
  = Ok (Some (np_zeros 3, np_zeros 2)).
Proof.
exact: (@sharpclaw_eval_f_zero
          [:: OSharpclaw (Sharpclaw_obj [:: ("nvars"%string, PyInt 2%:Z)]
                            2 (1 / 3%:R));
              OMesh [:: 1; 2%:R; 3%:R]] 0%N 1%N 0
          (Sharpclaw_obj [:: ("nvars"%string, PyInt 2%:Z)] 2 (1 / 3%:R))
          [:: 1; 2%:R; 3%:R] erefl erefl).
Defined.

(** ** The grid of [heat1d] *)

Lemma heat1d_node_bounds (n i : nat) :
  (i < n)%N -> (0 < (i.+1%:R * (1 / n.+1%:R))%R < 1)%Re.
Proof.
move=> lt; rewrite RmulE RdivE R1E !RnatE.
have h0 : (0 < INR i.+1)%Re by apply: lt_0_INR; apply/ltP.
have h1 : (INR i.+1 < INR n.+1)%Re by apply: lt_INR; apply/ltP.
have h2 : (0 < INR n.+1)%Re by lra.
have h3 := Rinv_0_lt_compat _ h2.
have h4 : (INR n.+1 * / INR n.+1 = 1)%Re by apply: Rinv_r; lra.
by rewrite /Rdiv Rmult_1_l; split; nra.
Qed.

Lemma heat1d_xvalues_nth (P : heat1d) (i : nat) :
  heat1d_invariant P -> (i < nvars P)%N ->
  nth 0 (xvalues P) i = i.+1%:R * dx P.
Proof.
case=> _ _ _ -> lt.
by rewrite (nth_map 0%N) ?size_iota // nth_iota.
Qed.



(** ** The exact solution is an eigenvector of the discrete operator *)

Lemma sin_three_point (a b : R) :
  (sin (a - b) - 2 * sin a + sin (a + b) = 2 * (cos b - 1) * sin a)%Re.
Proof. by rewrite sin_minus sin_plus; ring. Qed.

Lemma three_point_scaled (s1 s2 s3 c e : R) :
  (s1 - 2 * s2 + s3 = 2 * (c - 1) * s2)%Re ->
  (s1 * e - (1 + 1) * (s2 * e) + s3 * e = (1 + 1) * (c - 1) * (s2 * e))%Re.
Proof.
move=> E.
have -> : (s1 * e - (1 + 1) * (s2 * e) + s3 * e
           = (s1 - 2 * s2 + s3) * e)%Re by ring.
by rewrite E; ring.
Qed.

Lemma heat1d_exact_nth (P : heat1d) (e : R) (i : nat) :
  heat1d_invariant P -> (i < nvars P)%N ->
  nth 0 [seq sin (PI * x) * e | x <- xvalues P] i
  = sin (PI * (i.+1%:R * dx P)) * e.
Proof.
move=> inv lt; have [_ _ _ Hx] := inv.
rewrite (nth_map 0) ?Hx ?size_map ?size_iota // -Hx.
by rewrite heat1d_xvalues_nth.
Qed.

Lemma heat1d_exact_stencil (P : heat1d) (e : R) (i : nat) :
  heat1d_invariant P -> (i < nvars P)%N ->
  let uv := [seq sin (PI * x) * e | x <- xvalues P] in
  (if i is k.+1 then nth 0 uv k else 0) - 2%:R * nth 0 uv i + nth 0 uv i.+1
  = 2%:R * (cos (PI * dx P) - 1) * nth 0 uv i.
Proof.
move=> inv lt uv; have [n0 Hdx _ Hx] := inv.
have g_left : (if i is k.+1 then nth 0 uv k else 0)
              = sin (PI * (i.+1%:R * dx P) - PI * dx P) * e.
  case: i lt => [|k] lt.
    by rewrite mul1r subrr sin_0 mul0r.
  have lt' := ltnW lt; rewrite heat1d_exact_nth //.
  by rewrite -mulrBr -[k.+2%:R]natr1 mulrDl mul1r addrK.
have g_right : nth 0 uv i.+1 = sin (PI * (i.+1%:R * dx P) + PI * dx P) * e.
  have E : PI * (i.+1%:R * dx P) + PI * dx P = PI * (i.+2%:R * dx P).
    by rewrite -mulrDr -[i.+2%:R]natr1 mulrDl mul1r.
  rewrite E; case: (ltnP i.+1 (nvars P)) => [lt'|le].
    by rewrite heat1d_exact_nth.
  have sz : size uv = nvars P by rewrite /uv size_map Hx size_map size_iota.
  rewrite nth_default ?sz //.
  have -> : i.+1 = nvars P by apply/eqP; rewrite eqn_leq lt le.
  by rewrite Hdx div1r divff ?natr_neq0 // mulr1 sin_PI mul0r.
rewrite g_left g_right heat1d_exact_nth //.
have := sin_three_point (PI * (i.+1%:R * dx P)) (PI * dx P).
set a := PI * _; set b := PI * dx P => tp.
rewrite RnatE [INR 2]/= ?RsubE ?RaddE ?RmulE ?R1E.
exact: three_point_scaled tp.
Qed.

(** X10: on an instance built by the constructor, the mesh
    [u = u_exact(t)] is an eigenvector of the discrete operator: the
    implicit part of [eval_f(u, t')] is [u] multiplied by
    [nu/dx^2 * 2 (cos(pi dx) - 1)], value by value, at every time [t]. *)
Theorem heat1d_u_exact_eigenvector s self t t' P :
  olook s self = Some (OHeat1d P) -> heat1d_invariant P ->
  exists u s1 uv vi,
    [/\ Heat1d.u_exact self t s = (Ok u, s1),
        olook s1 u = Some (OMesh uv),
        rhs_outcome (Heat1d.eval_f self u t' s1)
        = Ok (Some (vi, np_zeros (nvars P)))
      & forall i, (i < nvars P)%N ->
          nth 0 vi i
          = nu P / dx P ^+ 2 * (2%:R * (cos (PI * dx P) - 1)) * nth 0 uv i].
Proof.
move=> Hself inv; have lt_self := olook_some Hself.
have [_ _ _ Hx] := inv.
rewrite (heat1d_u_exact_run t Hself).
set uv := [seq _ | x <- xvalues P].
have sz : size uv = nvars P by rewrite /uv size_map Hx size_map size_iota.
exists (size s), (rcons s (OMesh uv)), uv,
       (arr_of (A P *m vec_of (nvars P) uv)).
split=> //; first exact: olook_rcons_new.
  apply: heat1d_eval_f_run_value => //; last exact: olook_rcons_new.
  by rewrite olook_rcons_old.
move=> i lt; rewrite heat1d_impl_stencil // heat1d_exact_stencil //.
by rewrite !mulrA.
Qed.

Lemma heat1d_u_exact_eigenvector_witness :
  exists u s1 uv vi,
    [/\ Heat1d.u_exact 0 1 [:: OHeat1d heat1d_example] = (Ok u, s1),
        olook s1 u = Some (OMesh uv),
        rhs_outcome (Heat1d.eval_f 0 u 0 s1) = Ok (Some (vi, np_zeros 2))
      & forall i, (i < 2)%N ->
          nth 0 vi i
          = 1 / (1 / 3%:R) ^+ 2 * (2%:R * (cos (PI * (1 / 3%:R)) - 1))
            * nth 0 uv i].
Proof.
exact: (@heat1d_u_exact_eigenvector [:: OHeat1d heat1d_example] 0%N 1 0
          heat1d_example erefl heat1d_example_invariant).
Defined.

Lemma exp_nonpos_le1 (y : R) : (y <= 0)%Re -> (exp y <= 1)%Re.
Proof.
move=> le; case: (Rle_lt_or_eq_dec _ _ le) => [lt|->].
  by apply: Rlt_le; rewrite -exp_0; exact: exp_increasing.
by rewrite exp_0; exact: Rle_refl.
Qed.

(** X11: on an instance built by the constructor with a diffusion
    coefficient that is not negative, the values of [u_exact(t)] at a time
    [t >= 0] all lie in (0, 1]: the exact solution is positive inside the
    domain and never exceeds its initial amplitude. *)
Theorem heat1d_u_exact_bounds s self t P :
  olook s self = Some (OHeat1d P) -> heat1d_invariant P ->
  (0 <= nu P)%Re -> (0 <= t)%Re ->
  exists2 uv,
    mesh_outcome (Heat1d.u_exact self t s) = Ok (Some uv)
    & size uv = nvars P
      /\ forall i, (i < nvars P)%N -> (0 < nth 0 uv i <= 1)%Re.
Proof.
move=> Hself inv nu0 t0; have [_ Hdx _ Hx] := inv.
rewrite (heat1d_u_exact_run t Hself) /= olook_rcons_new.
eexists; first by [].
split=> [|i lt]; first by rewrite size_map Hx size_map size_iota.
rewrite heat1d_exact_nth // Hdx RmulE.
have [x0 x1] := heat1d_node_bounds lt.
have PI0 := PI_RGT_0.
set x := (_ * (1 / _))%R in x0 x1 *.
have s0 : (0 < sin (PI * x))%Re.
  by apply: sin_gt_0; rewrite RmulE; nra.
have s1 : (sin (PI * x) <= 1)%Re by have [] := SIN_bound (PI * x).
have e0 := exp_pos (- PI ^+ 2 * nu P * t).
have e1 : (exp (- PI ^+ 2 * nu P * t) <= 1)%Re.
  apply: exp_nonpos_le1; rewrite expr2 !RmulE RoppE.
  have h1 : (0 < PI * PI)%Re by nra.
  have h2 : (0 <= nu P * t)%Re by nra.
  have h3 : (0 <= PI * PI * (nu P * t))%Re by nra.
  by nra.
by split; nra.
Qed.

Lemma heat1d_u_exact_bounds_witness :
  exists2 uv,
    mesh_outcome (Heat1d.u_exact 0 1 [:: OHeat1d heat1d_example])
    = Ok (Some uv)
    & size uv = 2%N /\ forall i, (i < 2)%N -> (0 < nth 0 uv i <= 1)%Re.
Proof.
have n0 : (0 <= nu heat1d_example)%Re by rewrite /= R1E; lra.
have t0 : (0 <= (1 : R))%Re by rewrite R1E; lra.
exact: (@heat1d_u_exact_bounds [:: OHeat1d heat1d_example] 0%N 1
          heat1d_example erefl heat1d_example_invariant n0 t0).
Defined.

(** ** The periodic problem *)

Lemma sp_diags_stencil n :
  sp_diags [:: 1; -2%:R; 1] [:: -1; 0; 1] n = fd_laplacian n.
Proof.
apply/matrixP => i j; rewrite !mxE /= !big_cons big_nil /= addr0.
rewrite int_eq_pred int_eq_succ addr0 eqz_nat (eq_sym (j : nat)).
have [->|_] := eqVneq (i : nat) j.
  by rewrite gtn_eqF // add0r addr0.
rewrite add0r; case: (boolP (j.+1 == i :> nat)) => [/eqP <-|_].
  by rewrite gtn_eqF ?addr0 // ltnS leqnSn.
by rewrite add0r orbF.
Qed.

Lemma int_eq_corner_up (i j n : nat) :
  (j%:Z == i%:Z + (n%:Z - 1)) = (j.+1 == i + n)%N.
Proof. by rewrite addrA eq_sym subr_eq eq_sym -!PoszD eqz_nat addn1. Qed.

Lemma int_eq_corner_down (i j n : nat) :
  (j%:Z == i%:Z + (1 - n%:Z)) = (i.+1 == j + n)%N.
Proof. by rewrite addrA eq_sym subr_eq -!PoszD eqz_nat addn1. Qed.

Lemma corner_eq (n i j : nat) :
  (j < n)%N -> (j.+1 == i + n)%N = (i == 0%N) && (j.+1 == n).
Proof.
case: i => [|i] lt //=.
by apply/negbTE; rewrite neq_ltn addSn ltnS (leq_trans lt) ?leq_addl.
Qed.

Lemma sp_diags_periodic n :
  sp_diags [:: 1; -2%:R; 1] [:: -1; 0; 1] n
  + sp_diags [:: 1; 1] [:: n%:Z - 1; 1 - n%:Z] n
  = periodic_laplacian n.
Proof.
rewrite sp_diags_stencil; apply/matrixP => i j.
rewrite [LHS]mxE [sp_diags _ _ _ _ _]mxE [RHS]mxE /= !big_cons big_nil /= addr0.
by rewrite int_eq_corner_up int_eq_corner_down !corner_eq // addrA.
Qed.

Lemma periodic_laplacian_sym n :
  (periodic_laplacian n)^T = periodic_laplacian n.
Proof.
apply/matrixP => i j; rewrite [LHS]mxE [LHS]mxE [RHS]mxE.
have /matrixP/(_ i j) := fd_laplacian_sym n; rewrite [LHS]mxE => ->.
by rewrite -!addrA [X in _ + X]addrC.
Qed.

Lemma periodic_laplacian_offdiag n (i j : 'I_n) :
  i != j -> (0 <= periodic_laplacian n i j)%Re.
Proof.
move=> ne; have := fd_laplacian_offdiag ne; rewrite [periodic_laplacian _ _ _]mxE.
rewrite !RaddE => h.
by case: ifP => _; case: ifP => _; rewrite ?R1E ?R0E; lra.
Qed.

Lemma fd_laplacian_rowsum_eq n (i : 'I_n) :
  \sum_j fd_laplacian n i j
  = (if (0 < i)%N then 1 else 0) - 2%:R + (if (i.+1 < n)%N then 1 else 0).
Proof.
have := @fd_laplacian_stencil n (nseq n 1) i (size_nseq _ _).
rewrite nth_arr_of mxE.
have -> : \sum_j fd_laplacian n i j * vec_of n (nseq n 1) j ord0
          = \sum_j fd_laplacian n i j.
  by apply: eq_bigr => j _; rewrite [vec_of _ _ _ _]mxE nth_nseq ltn_ord mulr1.
move=> ->; rewrite !nth_nseq ltn_ord mulr1.
by case: i => [[|k] lt] //=; rewrite nth_nseq (ltnW lt).
Qed.

Lemma sum_indicator n (p : pred 'I_n) (k : 'I_n) :
  (forall j, p j = (j == k)) ->
  \sum_j (if p j then 1 else 0) = 1 :> R.
Proof.
move=> E; rewrite (bigD1 k) //= E eqxx big1 ?addr0 // => j ne.
by rewrite E (negbTE ne).
Qed.

Lemma periodic_laplacian_rowsum n (i : 'I_n) :
  \sum_j periodic_laplacian n i j = 0.
Proof.
have n0 : (0 < n)%N by exact: leq_ltn_trans (ltn_ord i).
have E : \sum_j periodic_laplacian n i j
         = \sum_j fd_laplacian n i j
           + \sum_(j < n) (if ((i : nat) == 0%N) && ((j : nat).+1 == n)
                           then 1 else 0)
           + \sum_(j < n) (if ((j : nat) == 0%N) && ((i : nat).+1 == n)
                           then 1 else 0).
  by rewrite -!big_split; apply: eq_bigr => j _; rewrite [LHS]mxE.
rewrite E fd_laplacian_rowsum_eq {E}.
have -> : \sum_(j < n) (if ((i : nat) == 0%N) && ((j : nat).+1 == n)
                        then 1 else 0)
          = (if (i : nat) == 0%N then 1 else 0) :> R.
  case: eqP => _ /=; last by rewrite big1.
  have lt : (n.-1 < n)%N by rewrite prednK.
  apply: (@sum_indicator _ _ (Ordinal lt)) => j.
  by rewrite -val_eqE /= -[RHS]eqSS prednK.
have -> : \sum_(j < n) (if ((j : nat) == 0%N) && ((i : nat).+1 == n)
                        then 1 else 0)
          = (if (i : nat).+1 == n then 1 else 0) :> R.
  case: eqP => _ /=; last first.
    by rewrite big1 // => j _; rewrite andbF.
  apply: (@sum_indicator _ _ (Ordinal n0)) => j.
  by rewrite andbT -val_eqE.
rewrite lt0n ltn_neqAle ltn_ord andbT.
by case: (_ == 0%N); case: (_ == n) => /=;
   rewrite RnatE [INR 2]/= ?RsubE ?RaddE ?R1E ?R0E; lra.
Qed.

Lemma periodic_eval_fexpl_run s self u t fmt P :
  olook s self = Some (OHeat1dPeriodic fmt P) ->
  Heat1dPeriodic.__eval_fexpl self u t s
  = (Ok (size s), rcons s (OMesh (np_zeros (nvars P)))).
Proof.
move=> Hself.
rewrite /Heat1dPeriodic.__eval_fexpl (bind_ok _ (periodic_self_run Hself)).
by rewrite /mesh /bind /alloc set_values_new.
Qed.

Lemma periodic_eval_fimpl_run s self u t fmt P uv :
  olook s self = Some (OHeat1dPeriodic fmt P) ->
  olook s u = Some (OMesh uv) -> size uv = nvars P ->
  Heat1dPeriodic.__eval_fimpl self u t s
  = (Ok (size s), rcons s (OMesh (arr_of (A P *m vec_of (nvars P) uv)))).
Proof.
move=> Hself Hu Hsz; have lt := olook_some Hu.
rewrite /Heat1dPeriodic.__eval_fimpl (bind_ok _ (periodic_self_run Hself)).
rewrite /mesh {1}/bind {1}/alloc /get_values {1}/bind olook_rcons_old // Hu.
by rewrite /sp_dot /lift {1}/bind Hsz eqxx /bind set_values_new.
Qed.

Lemma periodic_eval_f_run_value s self u t fmt P uv :
  olook s self = Some (OHeat1dPeriodic fmt P) ->
  olook s u = Some (OMesh uv) -> size uv = nvars P ->
  rhs_outcome (Heat1dPeriodic.eval_f self u t s)
  = Ok (Some (arr_of (A P *m vec_of (nvars P) uv), np_zeros (nvars P))).
Proof.
move=> Hself Hu Hsz; have lt_self := olook_some Hself.
have lt_u := olook_some Hu.
rewrite /Heat1dPeriodic.eval_f (bind_ok _ (periodic_self_run Hself)).
rewrite (bind_ok _ (rhs_imex_mesh_run _ _)).
set z := OMesh (np_zeros _).
rewrite (bind_ok _ (@periodic_eval_fimpl_run _ self u t fmt P uv _ _ Hsz))
  ?olook_cat_old //.
rewrite rcons_cat /= size_cat /=.
set Au := OMesh (arr_of _).
have Hf1 : olook (s ++ [:: z; z; ORhsImex (size s) (size s + 1)%N; Au])
             (size s + 2)%N = Some (ORhsImex (size s) (size s + 1)%N).
  by rewrite olook_cat_new.
rewrite (bind_ok _ (set_impl_run _ Hf1)) set_nth_cat_new /=.
rewrite (bind_ok _ (@periodic_eval_fexpl_run _ self u t fmt P _))
  ?olook_cat_old //.
rewrite rcons_cat size_cat /=.
have Hf2 : olook (s ++ [:: z; z; ORhsImex (size s + 3)%N (size s + 1)%N; Au; z])
             (size s + 2)%N = Some (ORhsImex (size s + 3)%N (size s + 1)%N).
  by rewrite olook_cat_new.
rewrite (bind_ok _ (set_expl_run _ Hf2)) set_nth_cat_new /= /ret /rhs_outcome.
by rewrite olook_cat_new /= !olook_cat_new.
Qed.

Lemma periodic_matrix (P : heat1d) :
  periodic_invariant P ->
  A P = (nu P / dx P ^+ 2) *: periodic_laplacian (nvars P).
Proof. by case=> _ _ -> _; rewrite sp_diags_periodic. Qed.

Lemma periodic_example_invariant : periodic_invariant periodic_example.
Proof. by split. Qed.

Lemma sum_arr_of n (x : 'cV[R]_n) : \sum_(y <- arr_of x) y = \sum_i x i ord0.
Proof. by rewrite /arr_of big_map big_enum. Qed.

Lemma periodic_laplacian_colsum n (x : 'cV[R]_n) :
  \sum_i (periodic_laplacian n *m x) i ord0 = 0.
Proof.
have E i : (periodic_laplacian n *m x) i ord0
           = \sum_j periodic_laplacian n j i * x j ord0.
  rewrite mxE; apply: eq_bigr => j _.
  by rewrite -[in LHS]periodic_laplacian_sym [_^T _ _]mxE.
rewrite (eq_bigr _ (fun i _ => E i)) exchange_big /=.
rewrite big1 // => j _.
by rewrite -mulr_suml periodic_laplacian_rowsum mul0r.
Qed.

Lemma periodic_laplacian_const n (c : R) :
  periodic_laplacian n *m vec_of n (nseq n c) = 0.
Proof.
apply/matrixP => i j; rewrite ord1 !mxE.
have E k : true -> periodic_laplacian n i k * vec_of n (nseq n c) k ord0
           = periodic_laplacian n i k * c.
  by move=> _; rewrite [vec_of _ _ _ _]mxE nth_nseq ltn_ord.
by rewrite (eq_bigr _ E) -mulr_suml periodic_laplacian_rowsum mul0r.
Qed.

(** X13: on an instance of [heat1d_periodic] whose matrix is the one the
    constructor assembles, the implicit part of [eval_f(u, t)] sums to zero
    for every mesh [u] of length [nvars] (the total heat is conserved), and
    it is the zero vector when [u] is constant (constants are steady
    states). *)
Theorem periodic_eval_f_conserves s self u t fmt P uv :
  olook s self = Some (OHeat1dPeriodic fmt P) -> periodic_invariant P ->
  olook s u = Some (OMesh uv) -> size uv = nvars P ->
  exists2 vi,
    rhs_outcome (Heat1dPeriodic.eval_f self u t s)
    = Ok (Some (vi, np_zeros (nvars P)))
    & \sum_(y <- vi) y = 0
      /\ forall c, uv = nseq (nvars P) c -> vi = np_zeros (nvars P).
Proof.
move=> Hself inv Hu Hsz; rewrite (periodic_eval_f_run_value t Hself Hu Hsz).
eexists; first by [].
rewrite (periodic_matrix inv) -scalemxAl; split=> [|c ->].
  rewrite sum_arr_of.
  have E i : true -> ((nu P / dx P ^+ 2)
                       *: (periodic_laplacian (nvars P) *m vec_of (nvars P) uv))
                      i ord0
             = nu P / dx P ^+ 2
               * (periodic_laplacian (nvars P) *m vec_of (nvars P) uv) i ord0.
    by move=> _; rewrite mxE.
  by rewrite (eq_bigr _ E) -mulr_sumr periodic_laplacian_colsum mulr0.
by rewrite periodic_laplacian_const scaler0 arr_of_zero.
Qed.

Lemma periodic_eval_f_conserves_witness :
  exists2 vi,
    rhs_outcome (Heat1dPeriodic.eval_f 0 1 0
                   [:: OHeat1dPeriodic (PyStr "array") periodic_example;
                       OMesh [:: 1; 1]])
    = Ok (Some (vi, np_zeros 2))
    & \sum_(y <- vi) y = 0
      /\ forall c : R, [:: 1; 1] = nseq 2 c -> vi = np_zeros 2.
Proof.
exact: (@periodic_eval_f_conserves
          [:: OHeat1dPeriodic (PyStr "array") periodic_example;
              OMesh [:: 1; 1]] 0%N 1%N 0 (PyStr "array")
          periodic_example [:: 1; 1] erefl periodic_example_invariant
          erefl erefl).
Defined.

Lemma periodic_dx2_gt0 (P : heat1d) :
  periodic_invariant P -> (0 < dx P ^+ 2)%Re.
Proof.
case=> n1 -> _ _; rewrite expr2 RmulE RdivE R1E RnatE.
have h : (0 < INR (nvars P))%Re by apply: lt_0_INR; apply/ltP; exact: ltnW.
have h' := Rinv_0_lt_compat _ h.
by rewrite /Rdiv Rmult_1_l; nra.
Qed.

Lemma periodic_step_matrix (P : heat1d) (factor : R) :
  periodic_invariant P ->
  sp_eye (nvars P) - factor *: A P
  = 1%:M - (factor * (nu P / dx P ^+ 2)) *: periodic_laplacian (nvars P).
Proof. by move=> /periodic_matrix ->; rewrite scalerA. Qed.

Lemma periodic_step_coef (P : heat1d) (factor : R) :
  periodic_invariant P -> (0 <= factor)%Re -> (0 <= nu P)%Re ->
  (0 <= factor * (nu P / dx P ^+ 2))%Re.
Proof.
move=> /periodic_dx2_gt0 d0 f0 n0.
have h := Rinv_0_lt_compat _ d0.
have h2 : (0 <= nu P * / dx P ^+ 2)%Re by nra.
by rewrite /Rdiv; nra.
Qed.

Lemma periodic_rowsum_le0 n (i : 'I_n) :
  (\sum_j periodic_laplacian n i j <= 0)%Re.
Proof. by rewrite periodic_laplacian_rowsum; exact: Rle_refl. Qed.

Lemma periodic_step_unit (P : heat1d) (factor : R) :
  periodic_invariant P -> (0 <= factor)%Re -> (0 <= nu P)%Re ->
  sp_eye (nvars P) - factor *: A P \in unitmx.
Proof.
move=> inv f0 n0; rewrite periodic_step_matrix //.
apply: implicit_step_regular (periodic_step_coef inv f0 n0) _ _.
- exact: periodic_laplacian_offdiag.
- exact: periodic_rowsum_le0.
Qed.

(** X14: on an instance of [heat1d_periodic] whose matrix is the one the
    constructor assembles, with a diffusion coefficient and a factor that
    are not negative, [solve_system(rhs, factor, u0)] does not fail on a
    right-hand side of length [nvars]; the mesh it returns has at most the
    infinity norm of the right-hand side, and its values have the same sum
    (the implicit step conserves the total heat). *)
Theorem periodic_solve_system_stable s self rhs factor u0 fmt P rv :
  olook s self = Some (OHeat1dPeriodic fmt P) -> periodic_invariant P ->
  olook s rhs = Some (OMesh rv) -> size rv = nvars P ->
  (0 <= factor)%Re -> (0 <= nu P)%Re ->
  exists v,
    [/\ mesh_outcome (Heat1dPeriodic.solve_system self rhs factor u0 s)
        = Ok (Some v),
        size v = nvars P,
        (norm_inf v <= norm_inf rv)%Re
      & \sum_(y <- v) y = \sum_(y <- rv) y].
Proof.
move=> Hself inv Hrhs Hsz f0 n0.
have reg := periodic_step_unit inv f0 n0.
rewrite periodic_solve_system_outcome ?(olook_some Hrhs) // Hself Hrhs.
rewrite /solve_system_value reg Hsz eqxx.
eexists; split; [by [] | by rewrite size_arr_of | |].
  set u := invmx _ *m _.
  have -> : rv = arr_of ((sp_eye (nvars P) - factor *: A P) *m u).
    by rewrite /u mulKVmx // arr_of_vec_of.
  rewrite periodic_step_matrix //.
  apply: implicit_step_bound (periodic_step_coef inv f0 n0) _ _ _.
  - exact: periodic_laplacian_offdiag.
  - exact: periodic_rowsum_le0.
set u := invmx _ *m _.
have -> : rv = arr_of ((sp_eye (nvars P) - factor *: A P) *m u).
  by rewrite /u mulKVmx // arr_of_vec_of.
clearbody u; rewrite periodic_step_matrix // !sum_arr_of.
rewrite mulmxBl mul1mx -scalemxAl.
have E i : true ->
    (u - (factor * (nu P / dx P ^+ 2))
         *: (periodic_laplacian (nvars P) *m u)) i ord0
    = u i ord0
      - factor * (nu P / dx P ^+ 2)
        * (periodic_laplacian (nvars P) *m u) i ord0.
  by move=> _; rewrite !mxE.
rewrite (eq_bigr _ E) sumrB -mulr_sumr periodic_laplacian_colsum mulr0.
by rewrite subr0.
Qed.

Lemma periodic_solve_system_stable_witness :
  exists v,
    [/\ mesh_outcome (Heat1dPeriodic.solve_system 0 1 (1 / 2%:R) 1
                        [:: OHeat1dPeriodic (PyStr "array") periodic_example;
                            OMesh [:: 1; 2%:R]])
        = Ok (Some v),
        size v = 2%N,
        (norm_inf v <= norm_inf [:: 1; 2%:R])%Re
      & \sum_(y <- v) y = \sum_(y <- [:: 1; 2%:R]) y].
Proof.
have f0 : (0 <= (1 / 2%:R)%R)%Re.
  by rewrite RdivE R1E RnatE [INR 2]/=; lra.
have n0 : (0 <= nu periodic_example)%Re by rewrite /= R1E; lra.
exact: (@periodic_solve_system_stable
          [:: OHeat1dPeriodic (PyStr "array") periodic_example;
              OMesh [:: 1; 2%:R]] 0%N 1%N (1 / 2%:R) 1%N (PyStr "array")
          periodic_example [:: 1; 2%:R] erefl periodic_example_invariant
          erefl erefl f0 n0).
Defined.

(** ** The constructor of [heat1d_periodic] *)





(** ** Superposition *)

Lemma vec_of_lin n (c : R) (a b : seq R) :
  size a = n -> size b = n ->
  vec_of n [seq c * p.1 + p.2 | p <- zip a b]
  = c *: vec_of n a + vec_of n b.
Proof.
move=> sa sb; apply/matrixP => i j; rewrite !mxE.
rewrite (nth_map (0, 0)) ?size_zip ?sa ?sb ?minnn //.
by rewrite nth_zip ?sa ?sb.
Qed.

Lemma arr_of_lin n (c : R) (x y : 'cV[R]_n) :
  arr_of (c *: x + y) = [seq c * p.1 + p.2 | p <- zip (arr_of x) (arr_of y)].
Proof.
apply: (@eq_from_nth _ 0).
  by rewrite size_map size_zip !size_arr_of minnn.
move=> i; rewrite size_arr_of => lt.
rewrite (nth_map (0, 0)) ?size_zip ?size_arr_of ?minnn //.
rewrite nth_zip ?size_arr_of // -[i]/(Ordinal lt : nat) !nth_arr_of.
by rewrite !mxE.
Qed.

(** X16: on an instance built by the constructor, with a diffusion
    coefficient and a factor that are not negative, [heat1d.solve_system] is
    linear in the right-hand side: for right-hand sides [a], [b] and
    [c * a + b] it returns [v1], [v2] and [c * v1 + v2]. *)
Theorem heat1d_solve_system_linear s self r1 r2 r3 factor u0 P c a b :
  olook s self = Some (OHeat1d P) -> heat1d_invariant P ->
  olook s r1 = Some (OMesh a) -> size a = nvars P ->
  olook s r2 = Some (OMesh b) -> size b = nvars P ->
  olook s r3 = Some (OMesh [seq c * p.1 + p.2 | p <- zip a b]) ->
  (0 <= factor)%Re -> (0 <= nu P)%Re ->
  exists v1 v2,
    [/\ mesh_outcome (Heat1d.solve_system self r1 factor u0 s) = Ok (Some v1),
        mesh_outcome (Heat1d.solve_system self r2 factor u0 s) = Ok (Some v2)
      & mesh_outcome (Heat1d.solve_system self r3 factor u0 s)
        = Ok (Some [seq c * p.1 + p.2 | p <- zip v1 v2])].
Proof.
move=> Hself inv H1 sa H2 sb H3 f0 n0.
have reg := heat1d_step_unit inv f0 n0.
have s3 : size [seq c * p.1 + p.2 | p <- zip a b] = nvars P.
  by rewrite size_map size_zip sa sb minnn.
rewrite !heat1d_solve_system_outcome ?(olook_some H1) ?(olook_some H2)
  ?(olook_some H3) // Hself H1 H2 H3.
rewrite /solve_system_value reg sa sb s3 eqxx.
do 2!eexists; split; [by [] | by [] |].
by rewrite vec_of_lin // mulmxDr -scalemxAr arr_of_lin.
Qed.

Lemma heat1d_solve_system_linear_witness :
  exists v1 v2,
    [/\ mesh_outcome (Heat1d.solve_system 0 1 (1 / 2%:R) 1
                        [:: OHeat1d heat1d_example; OMesh [:: 1; 2%:R];
                            OMesh [:: 0; 1];
                            OMesh [seq 3%:R * p.1 + p.2
                                  | p <- zip [:: 1; 2%:R] [:: 0; 1]]])
        = Ok (Some v1),
        mesh_outcome (Heat1d.solve_system 0 2 (1 / 2%:R) 1
                        [:: OHeat1d heat1d_example; OMesh [:: 1; 2%:R];
                            OMesh [:: 0; 1];
                            OMesh [seq 3%:R * p.1 + p.2
                                  | p <- zip [:: 1; 2%:R] [:: 0; 1]]])
        = Ok (Some v2)
      & mesh_outcome (Heat1d.solve_system 0 3 (1 / 2%:R) 1
                        [:: OHeat1d heat1d_example; OMesh [:: 1; 2%:R];
                            OMesh [:: 0; 1];
                            OMesh [seq 3%:R * p.1 + p.2
                                  | p <- zip [:: 1; 2%:R] [:: 0; 1]]])
        = Ok (Some [seq 3%:R * p.1 + p.2 | p <- zip v1 v2])].
Proof.
have f0 : (0 <= (1 / 2%:R)%R)%Re.
  by rewrite RdivE R1E RnatE [INR 2]/=; lra.
have n0 : (0 <= nu heat1d_example)%Re by rewrite /= R1E; lra.
exact: (@heat1d_solve_system_linear
          [:: OHeat1d heat1d_example; OMesh [:: 1; 2%:R]; OMesh [:: 0; 1];
              OMesh [seq 3%:R * p.1 + p.2 | p <- zip [:: 1; 2%:R] [:: 0; 1]]]
          0%N 1%N 2%N 3%N (1 / 2%:R) 1%N heat1d_example 3%:R
          [:: 1; 2%:R] [:: 0; 1] erefl heat1d_example_invariant
          erefl erefl erefl erefl erefl f0 n0).
Defined.

(** ** The periodic stencil *)

Lemma sum_pick n (p : pred 'I_n) (k : 'I_n) (f : 'I_n -> R) :
  (forall j, p j = (j == k)) ->
  \sum_j (if p j then 1 else 0) * f j = f k.
Proof.
move=> E; rewrite (bigD1 k) //= E eqxx mul1r big1 ?addr0 // => j ne.
by rewrite E (negbTE ne) mul0r.
Qed.

Lemma periodic_laplacian_stencil n (v : seq R) (i : 'I_n) :
  size v = n ->
  nth 0 (arr_of (periodic_laplacian n *m vec_of n v)) i
  = (if (i : nat) is k.+1 then nth 0 v k else nth 0 v n.-1)
    - 2%:R * nth 0 v i
    + (if (i : nat).+1 == n then nth 0 v 0 else nth 0 v i.+1).
Proof.
move=> sz; have n0 : (0 < n)%N by exact: leq_ltn_trans (ltn_ord i).
have lt : (n.-1 < n)%N by rewrite prednK.
rewrite nth_arr_of mxE.
have E j : true ->
    periodic_laplacian n i j * vec_of n v j ord0
    = fd_laplacian n i j * vec_of n v j ord0
      + (if ((i : nat) == 0%N) && ((j : nat).+1 == n) then 1 else 0)
        * nth 0 v j
      + (if ((j : nat) == 0%N) && ((i : nat).+1 == n) then 1 else 0)
        * nth 0 v j.
  by move=> _; rewrite [periodic_laplacian _ _ _]mxE !mulrDl [vec_of _ _ _ _]mxE.
rewrite (eq_bigr _ E) !big_split /= {E}.
have := fd_laplacian_stencil i sz; rewrite nth_arr_of mxE => ->.
have -> : \sum_(j < n) (if ((i : nat) == 0%N) && ((j : nat).+1 == n)
                        then 1 else 0) * nth 0 v j
          = (if (i : nat) == 0%N then nth 0 v n.-1 else 0).
  case: eqP => _ /=; last by rewrite big1 // => j _; rewrite mul0r.
  apply: (@sum_pick _ _ (Ordinal lt) (fun j => nth 0 v j)) => j.
  by rewrite -val_eqE /= -[RHS]eqSS prednK.
have -> : \sum_(j < n) (if ((j : nat) == 0%N) && ((i : nat).+1 == n)
                        then 1 else 0) * nth 0 v j
          = (if (i : nat).+1 == n then nth 0 v 0 else 0).
  case: eqP => _ /=; last first.
    by rewrite big1 // => j _; rewrite andbF mul0r.
  apply: (@sum_pick _ _ (Ordinal n0) (fun j => nth 0 v j)) => j.
  by rewrite andbT -val_eqE.
have -> : nth 0 v i.+1 = if (i : nat).+1 == n then 0 else nth 0 v i.+1.
  by case: eqP => // E; rewrite nth_default // sz E.
case: (i : nat) => [|k] /=; case: eqP => _; rewrite ?addr0 ?add0r //.
- by rewrite [- _ + _]addrC.
- by rewrite addrC addrA.
Qed.

(** X17: on an instance of [heat1d_periodic] whose matrix is the one the
    constructor assembles, the i-th value of the implicit part of
    [eval_f(u, t)] is the three-point stencil
    [nu/dx^2 (u[i-1] - 2 u[i] + u[i+1])] where the left neighbour of the
    first point is the last one and the right neighbour of the last point
    is the first one. *)
Theorem periodic_eval_f_stencil s self u t fmt P uv :
  olook s self = Some (OHeat1dPeriodic fmt P) -> periodic_invariant P ->
  olook s u = Some (OMesh uv) -> size uv = nvars P ->
  exists2 vi,
    rhs_outcome (Heat1dPeriodic.eval_f self u t s)
    = Ok (Some (vi, np_zeros (nvars P)))
    & forall i, (i < nvars P)%N ->
        nth 0 vi i
        = nu P / dx P ^+ 2
          * ((if i is k.+1 then nth 0 uv k else nth 0 uv (nvars P).-1)
             - 2%:R * nth 0 uv i
             + (if i.+1 == nvars P then nth 0 uv 0 else nth 0 uv i.+1)).
Proof.
move=> Hself inv Hu Hsz; rewrite (periodic_eval_f_run_value t Hself Hu Hsz).
eexists; first by [].
move=> i lt; rewrite (periodic_matrix inv).
by rewrite (nth_arr_of_scale _ _ _ (Ordinal lt)) periodic_laplacian_stencil.
Qed.

Lemma periodic_eval_f_stencil_witness :
  exists2 vi,
    rhs_outcome (Heat1dPeriodic.eval_f 0 1 0
                   [:: OHeat1dPeriodic (PyStr "array") periodic_example;
                       OMesh [:: 1; 2%:R]])
    = Ok (Some (vi, np_zeros 2))
    & forall i, (i < 2)%N ->
        nth 0 vi i
        = 1 / (1 / 2%:R) ^+ 2
          * ((if i is k.+1 then nth 0 [:: 1; 2%:R] k
              else nth 0 [:: 1; 2%:R] 1)
             - 2%:R * nth 0 [:: 1; 2%:R] i
             + (if i.+1 == 2%N then nth 0 [:: 1; 2%:R] 0
                else nth 0 [:: 1; 2%:R] i.+1)).
Proof.
exact: (@periodic_eval_f_stencil
          [:: OHeat1dPeriodic (PyStr "array") periodic_example;
              OMesh [:: 1; 2%:R]] 0%N 1%N 0 (PyStr "array")
          periodic_example [:: 1; 2%:R] erefl periodic_example_invariant
          erefl erefl).
Defined.

(** ** Positivity *)

Lemma argmin_seq (T : eqType) (f : T -> R) (x0 : T) (s : seq T) :
  exists2 i, i \in x0 :: s & forall j, j \in x0 :: s -> (f i <= f j)%Re.
Proof.
elim: s => [|y s [i Hi min]].
  by exists x0; rewrite ?mem_head // => j; rewrite inE => /eqP ->; exact: Rle_refl.
have [le|lt] := Rle_lt_dec (f i) (f y).
  exists i; first by move: Hi; rewrite !inE => /orP [->|->] //; rewrite !orbT.
  move=> j; rewrite !inE => /or3P [/eqP ->|/eqP -> //|Hj].
    by apply: min; rewrite mem_head.
  by apply: min; rewrite inE Hj orbT.
exists y; first by rewrite !inE eqxx orbT.
move=> j; rewrite !inE => /or3P [/eqP ->|/eqP ->|Hj].
- by apply: Rle_trans (Rlt_le _ _ lt) (min _ _); rewrite mem_head.
- exact: Rle_refl.
- by apply: Rle_trans (Rlt_le _ _ lt) (min _ _); rewrite inE Hj orbT.
Qed.

Lemma min_principle (a b c x : R) :
  (0 <= c)%Re -> (b <= 0)%Re -> (x < 0)%Re -> (b * x <= a)%Re ->
  (0 <= x - c * a)%Re -> False.
Proof.
move=> c0 b0 x0 le.
have h1 : (0 <= b * x)%Re by nra.
have h2 : (0 <= c * a)%Re by nra.
by lra.
Qed.

Section Positivity.

Variables (n : nat) (L : 'M[R]_n) (c : R).
Hypothesis c_ge0 : (0 <= c)%Re.
Hypothesis offdiag_ge0 : forall i j : 'I_n, i != j -> (0 <= L i j)%Re.
Hypothesis rowsum_le0 : forall i : 'I_n, (\sum_j L i j <= 0)%Re.

Lemma implicit_step_nonneg (x : 'cV[R]_n) :
  (forall i, (0 <= ((1%:M - c *: L) *m x) i ord0)%Re) ->
  forall i, (0 <= x i ord0)%Re.
Proof.
move=> pos i0.
have [i _ min] := argmin_seq (fun j => x j ord0) i0 (enum 'I_n).
have {}min j : (x i ord0 <= x j ord0)%Re.
  by apply: min; rewrite inE mem_enum orbT.
apply: Rle_trans (min i0).
have [//|neg] := Rle_lt_dec 0 (x i ord0).
have S : (\sum_j L i j * x i ord0 <= \sum_j L i j * x j ord0)%Re.
  apply: Rsum_le => j; rewrite !RmulE.
  have [->|ne] := eqVneq j i; first exact: Rle_refl.
  rewrite eq_sym in ne; have L0 := offdiag_ge0 ne.
  by apply: Rmult_le_compat_l => //; exact: min.
move: S; rewrite -mulr_suml => S.
have := pos i; rewrite mulmxBl mul1mx -scalemxAl !mxE => pi.
by case: (min_principle c_ge0 (rowsum_le0 i) neg S pi).
Qed.

End Positivity.

Lemma solve_value_nonneg (P : heat1d) (factor c : R) (L : 'M[R]_(nvars P))
    (rv : seq R) :
  sp_eye (nvars P) - factor *: A P = 1%:M - c *: L ->
  (0 <= c)%Re ->
  (forall i j : 'I_(nvars P), i != j -> (0 <= L i j)%Re) ->
  (forall i : 'I_(nvars P), (\sum_j L i j <= 0)%Re) ->
  size rv = nvars P -> (forall i, (0 <= nth 0 rv i)%Re) ->
  exists2 v,
    solve_system_value (Some P) factor (Some (OMesh rv)) = Ok (Some v)
    & forall i, (0 <= nth 0 v i)%Re.
Proof.
move=> EM c0 off rows Hsz pos.
have reg : sp_eye (nvars P) - factor *: A P \in unitmx.
  by rewrite EM; exact: implicit_step_regular.
rewrite /solve_system_value reg Hsz eqxx; eexists; first by [].
set w := invmx _ *m _ => i.
case: (ltnP i (nvars P)) => [lt|le]; last first.
  by rewrite nth_default ?size_arr_of //; exact: Rle_refl.
rewrite -[i]/(Ordinal lt : nat) nth_arr_of.
apply: (implicit_step_nonneg c0 off rows) => k.
by rewrite -EM /w mulKVmx // mxE.
Qed.

(** X18: [solve_system] of [heat1d] and of [heat1d_periodic] keeps
    temperatures non-negative: on instances with the matrix the constructor
    assembles, with a diffusion coefficient and a factor that are not
    negative, a right-hand side without negative values gives a mesh
    without negative values. *)
Theorem solve_system_nonneg s selfh selfp fmt rhs factor u0 P Q rv :
  olook s selfh = Some (OHeat1d P) -> heat1d_invariant P ->
  olook s selfp = Some (OHeat1dPeriodic fmt Q) -> periodic_invariant Q ->
  olook s rhs = Some (OMesh rv) -> size rv = nvars P -> size rv = nvars Q ->
  (0 <= factor)%Re -> (0 <= nu P)%Re -> (0 <= nu Q)%Re ->
  (forall i, (0 <= nth 0 rv i)%Re) ->
  (exists2 v,
     mesh_outcome (Heat1d.solve_system selfh rhs factor u0 s) = Ok (Some v)
     & forall i, (0 <= nth 0 v i)%Re)
  /\ (exists2 v,
        mesh_outcome (Heat1dPeriodic.solve_system selfp rhs factor u0 s)
        = Ok (Some v)
        & forall i, (0 <= nth 0 v i)%Re).
Proof.
move=> Hh invP Hp invQ Hrhs szP szQ f0 nP nQ pos.
have lt := olook_some Hrhs.
rewrite heat1d_solve_system_outcome // periodic_solve_system_outcome //.
rewrite Hh Hp Hrhs; split.
  apply: solve_value_nonneg (heat1d_step_matrix factor invP)
           (heat1d_step_coef invP f0 nP) _ _ szP pos.
  - exact: fd_laplacian_offdiag.
  - exact: fd_laplacian_rowsum.
apply: solve_value_nonneg (periodic_step_matrix factor invQ)
         (periodic_step_coef invQ f0 nQ) _ _ szQ pos.
- exact: periodic_laplacian_offdiag.
- exact: periodic_rowsum_le0.
Qed.

Lemma solve_system_nonneg_witness :
  (exists2 v,
     mesh_outcome (Heat1d.solve_system 0 2 (1 / 2%:R) 2
                     [:: OHeat1d heat1d_example;
                         OHeat1dPeriodic (PyStr "array") periodic_example;
                         OMesh [:: 1; 0]]) = Ok (Some v)
     & forall i, (0 <= nth 0 v i)%Re)
  /\ (exists2 v,
        mesh_outcome (Heat1dPeriodic.solve_system 1 2 (1 / 2%:R) 2
                        [:: OHeat1d heat1d_example;
                            OHeat1dPeriodic (PyStr "array") periodic_example;
                            OMesh [:: 1; 0]]) = Ok (Some v)
        & forall i, (0 <= nth 0 v i)%Re).
Proof.
have f0 : (0 <= (1 / 2%:R)%R)%Re.
  by rewrite RdivE R1E RnatE [INR 2]/=; lra.
have nP : (0 <= nu heat1d_example)%Re by rewrite /= R1E; lra.
have nQ : (0 <= nu periodic_example)%Re by rewrite /= R1E; lra.
have pos i : (0 <= nth 0 ([:: 1; 0] : seq R) i)%Re.
  by case: i => [|[|i]] /=; rewrite ?nth_nil ?R1E ?R0E; lra.
exact: (@solve_system_nonneg
          [:: OHeat1d heat1d_example;
              OHeat1dPeriodic (PyStr "array") periodic_example;
              OMesh [:: 1; 0]] 0%N 1%N (PyStr "array") 2%N (1 / 2%:R) 2%N
          heat1d_example periodic_example [:: 1; 0]
          erefl heat1d_example_invariant erefl periodic_example_invariant
          erefl erefl erefl f0 nP nQ pos).
Defined.

(** ** One implicit Euler step on the exact solution *)

Lemma heat1d_eigenvalue_le0 (P : heat1d) :
  heat1d_invariant P -> (0 <= nu P)%Re ->
  (nu P / dx P ^+ 2 * (2%:R * (cos (PI * dx P) - 1)) <= 0)%Re.
Proof.
move=> /heat1d_dx2_gt0 d0 n0.
have h := Rinv_0_lt_compat _ d0.
have [_ c1] := COS_bound (PI * dx P).
rewrite RnatE [INR 2]/= /Rdiv.
have h2 : (0 <= nu P * / dx P ^+ 2)%Re by nra.
by nra.
Qed.

(** X19: on an instance built by the constructor, with a diffusion
    coefficient and a factor that are not negative, one implicit Euler step
    from the exact solution, [solve_system(u, factor, u0)] with
    [u = u_exact(t)], returns [u] damped by the factor
    [1 / (1 - factor * lambda)] with the eigenvalue
    [lambda = nu/dx^2 * 2 (cos(pi dx) - 1) <= 0]. *)
Theorem heat1d_implicit_euler_on_exact s self factor u0 t P :
  olook s self = Some (OHeat1d P) -> heat1d_invariant P ->
  (0 <= factor)%Re -> (0 <= nu P)%Re ->
  let lambda := nu P / dx P ^+ 2 * (2%:R * (cos (PI * dx P) - 1)) in
  exists u s1 uv,
    [/\ Heat1d.u_exact self t s = (Ok u, s1),
        olook s1 u = Some (OMesh uv),
        (0 < 1 - factor * lambda)%Re
      & mesh_outcome (Heat1d.solve_system self u factor u0 s1)
        = Ok (Some [seq x / (1 - factor * lambda) | x <- uv])].
Proof.
move=> Hself inv f0 n0 lambda; have lt_self := olook_some Hself.
have [_ _ _ Hx] := inv.
have l0 : (lambda <= 0)%Re by exact: heat1d_eigenvalue_le0.
have d0 : (0 < 1 - factor * lambda)%Re.
  by nra.
have dn : 1 - factor * lambda != 0.
  have d0' : (0 < (1 - factor * lambda)%R)%Re := d0.
  by apply/eqP => E; rewrite E in d0'; exact: Rlt_irrefl d0'.
rewrite (heat1d_u_exact_run t Hself).
set uv := [seq _ | x <- xvalues P].
have sz : size uv = nvars P by rewrite /uv size_map Hx size_map size_iota.
exists (size s), (rcons s (OMesh uv)), uv; split=> //.
  exact: olook_rcons_new.
have reg := heat1d_step_unit inv f0 n0.
rewrite heat1d_solve_system_outcome ?size_rcons // olook_rcons_new.
rewrite olook_rcons_old // Hself /solve_system_value reg sz eqxx.
congr (Ok (Some _)).
have eig : A P *m vec_of (nvars P) uv = lambda *: vec_of (nvars P) uv.
  apply/matrixP => i j; rewrite ord1 -nth_arr_of heat1d_impl_stencil //.
  by rewrite heat1d_exact_stencil // !mxE mulrA.
have -> : invmx (sp_eye (nvars P) - factor *: A P) *m vec_of (nvars P) uv
          = (1 - factor * lambda)^-1 *: vec_of (nvars P) uv.
  have Ev : (sp_eye (nvars P) - factor *: A P)
              *m ((1 - factor * lambda)^-1 *: vec_of (nvars P) uv)
            = vec_of (nvars P) uv.
    rewrite -scalemxAr mulmxBl mul1mx -scalemxAl eig scalerA.
    by rewrite -{1}[vec_of _ _]scale1r -scalerBl scalerA mulVf // scale1r.
  by rewrite -{1}Ev mulKmx.
apply: (@eq_from_nth _ 0); first by rewrite size_arr_of size_map.
move=> i; rewrite size_arr_of => lt.
rewrite (nth_map 0) ?sz // -[i in LHS]/(Ordinal lt : nat) nth_arr_of !mxE.
by rewrite mulrC.
Qed.

Lemma heat1d_implicit_euler_on_exact_witness :
  let lambda := 1 / (1 / 3%:R) ^+ 2 * (2%:R * (cos (PI * (1 / 3%:R)) - 1)) in
  exists u s1 uv,
    [/\ Heat1d.u_exact 0 0 [:: OHeat1d heat1d_example] = (Ok u, s1),
        olook s1 u = Some (OMesh uv),
        (0 < 1 - (1 / 2%:R) * lambda)%Re
      & mesh_outcome (Heat1d.solve_system 0 u (1 / 2%:R) 0 s1)
        = Ok (Some [seq x / (1 - (1 / 2%:R) * lambda) | x <- uv])].
Proof.
have f0 : (0 <= (1 / 2%:R)%R)%Re.
  by rewrite RdivE R1E RnatE [INR 2]/=; lra.
have n0 : (0 <= nu heat1d_example)%Re by rewrite /= R1E; lra.
exact: (@heat1d_implicit_euler_on_exact [:: OHeat1d heat1d_example] 0%N
          (1 / 2%:R) 0%N 0 heat1d_example erefl heat1d_example_invariant
          f0 n0).
Defined.
